(** * commitmonk: the scheduler, the execution pipeline and their collaborators

    A shallow embedding of the Go packages [db], [logger], [llm], [git] and
    [scheduler] of commitmonk, followed by the properties of the scheduling
    and execution-reconciliation engine.

    Conventions of the embedding
    - a Go [int64] that is only used as a key or a count is a [Z];
    - a Go [string] is a [string];
    - a Go [error] is a value of [error] below: [nil] is [None] of
      [option error], and a pair [(v, err)] is a sum [error + V];
    - a method with a pointer receiver takes the receiver's state and
      returns the new one;
    - what happens outside the process (the clock, the SQLite file, the
      working tree, the remote, the HTTP endpoint) is a field of an explicit
      world value that every effectful function threads;
    - the packages of the Go standard library and of third parties that the
      code calls ([time.ParseDuration], [strings.TrimSpace], go-git, gobwas
      glob) are interfaces (type classes); the theorems hold for every
      implementation, the examples run on the small instances given here. *)

From Stdlib Require Import ZArith Ascii String DecimalString List Bool Lia.
From stdpp Require Import base option list gmap strings.

Local Open Scope string_scope.
Local Open Scope list_scope.
Local Open Scope Z_scope.

(** ** Go values shared by all packages *)

(** [error]: the sentinel of go-git that [Push] compares against, an error
    made from a message, and [fmt.Errorf("<prefix>%w", err)]. *)
Inductive error : Type :=
  | NoErrAlreadyUpToDate
  | errorString (msg : string)
  | wrapError (prefix : string) (inner : error).

(** The [Error()] method. *)
Fixpoint Error (e : error) : string :=
  match e with
  | NoErrAlreadyUpToDate => "already up-to-date"
  | errorString msg => msg
  | wrapError prefix inner => prefix +:+ Error inner
  end.

(** [err == git.NoErrAlreadyUpToDate]: identity with the sentinel. *)
Definition isNoErrAlreadyUpToDate (e : error) : bool :=
  match e with NoErrAlreadyUpToDate => true | _ => false end.

(** The verb [%d]. *)
Definition itoa (n : Z) : string := NilZero.string_of_int (Z.to_int n).

(** [time.Time] as a count of nanoseconds, [time.Duration] likewise. *)
Abbreviation Time := Z (only parsing).
Abbreviation Duration := Z (only parsing).

Definition Second : Duration := 1000000000.
Definition Minute : Duration := 60 * Second.

(** [t.After(u)] and [t.Add(d)]. *)
Definition After (t u : Time) : bool := u <? t.
Definition Add (t : Time) (d : Duration) : Time := t + d.

(** The part of package [time] that parses: [time.ParseDuration]. *)
Class TimePkg := { ParseDuration : string -> error + Duration }.

(** ** package logger *)
Module logger.

(** An argument of a format verb: [%s], [%d], [%v] of an error. *)
Inductive Arg : Type :=
  | S_ (s : string)
  | D_ (n : Z)
  | V_ (e : error).

(** One call of the logger, kept unformatted. [Printf] and [Println] write
    only in verbose mode, [Errorf] always. *)
Inductive Entry : Type :=
  | Println (s : string)
  | Printf (format : string) (args : list Arg)
  | Errorf (format : string) (args : list Arg).

End logger.

(** ** package db *)
Module db.

Record Task : Type := {
  ID : Z;
  Path : string;
  Every : string;
  AutoAdd : bool;
  AutoPush : bool;
  StaticMsg : string;
  ExcludePatterns : string
}.

(** What [database/sql] gives for the query of [GetAllTasks]: the query
    fails, or it yields rows, each of which scans or not, and the iteration
    ends with [rows.Err()]. *)
Inductive QueryResult : Type :=
  | QueryError (err : error)
  | Rows (rows : list (error + Task)) (rowsErr : option error).

(** The loop [for rows.Next() { ... rows.Scan ... append }]. *)
Fixpoint scanRows (rows : list (error + Task)) (tasks : list Task)
  : error + list Task :=
  match rows with
  | [] => inr tasks
  | inl err :: _ => inl (wrapError "failed to scan row: " err)
  | inr task :: rest => scanRows rest (tasks ++ [task])
  end.

Definition GetAllTasks (q : QueryResult) : error + list Task :=
  match q with
  | QueryError err => inl (wrapError "failed to query tasks: " err)
  | Rows rows rowsErr =>
      match scanRows rows [] with
      | inl err => inl err
      | inr tasks =>
          match rowsErr with
          | Some err => inl (wrapError "error iterating through rows: " err)
          | None => inr tasks
          end
      end
  end.

(** What [database/sql] gives for a statement that is prepared and run with
    its arguments: the preparation fails, the execution fails, or it reports
    the rows it affected (which can fail in turn). *)
Inductive ExecResult : Type :=
  | PrepareError (err : error)
  | ExecError (err : error)
  | Executed (rowsAffected : Z) (rowsAffectedErr : option error).

Inductive SqlArg : Type :=
  | Text (s : string)
  | Integer (n : Z)
  | Boolean (b : bool).

Record Statement : Type := {
  sqlText : string;
  sqlArgs : list SqlArg
}.

(** The connection, as the answer it would give to a statement now. *)
Definition Conn : Type := Statement -> ExecResult.

(** A line feed and two tabs, as the statement of [AddTask] is laid out. *)
Definition indent : string := String "010"%char (String "009"%char (String "009"%char "")).

Definition insertTask (task : Task) : Statement :=
  {| sqlText :=
       indent +:+ "INSERT OR REPLACE INTO tasks "
       +:+ indent +:+ "(path, every, auto_add, auto_push, static_msg, exclude_patterns)"
       +:+ indent +:+ "VALUES (?, ?, ?, ?, ?, ?)"
       +:+ String "010"%char (String "009"%char "");
     sqlArgs := [Text (Path task); Text (Every task); Boolean (AutoAdd task);
                 Boolean (AutoPush task); Text (StaticMsg task);
                 Text (ExcludePatterns task)] |}.

Definition AddTask (conn : Conn) (task : Task) : option error :=
  match conn (insertTask task) with
  | PrepareError err => Some (wrapError "failed to prepare statement: " err)
  | ExecError err => Some (wrapError "failed to add task: " err)
  | Executed _ _ => None
  end.

Definition deleteByPath (path : string) : Statement :=
  {| sqlText := "DELETE FROM tasks WHERE path = ?"; sqlArgs := [Text path] |}.

Definition deleteByID (id : Z) : Statement :=
  {| sqlText := "DELETE FROM tasks WHERE id = ?"; sqlArgs := [Integer id] |}.

Definition RemoveTask (conn : Conn) (path : string) : option error :=
  match conn (deleteByPath path) with
  | PrepareError err => Some (wrapError "failed to prepare statement: " err)
  | ExecError err => Some (wrapError "failed to remove task: " err)
  | Executed _ (Some err) => Some (wrapError "failed to get affected rows: " err)
  | Executed rowsAffected None =>
      if rowsAffected =? 0 then Some (errorString ("no task found for path: " +:+ path))
      else None
  end.

Definition RemoveTaskByID (conn : Conn) (id : Z) : option error :=
  match conn (deleteByID id) with
  | PrepareError err => Some (wrapError "failed to prepare statement: " err)
  | ExecError err => Some (wrapError "failed to remove task: " err)
  | Executed _ (Some err) => Some (wrapError "failed to get affected rows: " err)
  | Executed rowsAffected None =>
      if rowsAffected =? 0 then Some (errorString ("no task found with ID: " +:+ itoa id))
      else None
  end.

End db.

(** ** package strings of the Go standard library, on bytes *)
Module gostrings.

Definition bytes (l : list nat) : list ascii := map ascii_of_nat l.

Fixpoint isPrefix (p s : list ascii) : bool :=
  match p, s with
  | [], _ => true
  | _ :: _, [] => false
  | a :: p, b :: s => Ascii.eqb a b && isPrefix p s
  end.

(** The encodings of the runes for which [unicode.IsSpace] holds: the six
    ASCII ones, then U+0085, U+00A0, U+1680, U+2000 to U+200A, U+2028,
    U+2029, U+202F, U+205F and U+3000 in UTF-8. *)
Definition spaces : list (list ascii) :=
  map bytes
    [ [9]; [10]; [11]; [12]; [13]; [32];
      [194; 133]; [194; 160]; [225; 154; 128];
      [226; 128; 128]; [226; 128; 129]; [226; 128; 130]; [226; 128; 131];
      [226; 128; 132]; [226; 128; 133]; [226; 128; 134]; [226; 128; 135];
      [226; 128; 136]; [226; 128; 137]; [226; 128; 138];
      [226; 128; 168]; [226; 128; 169]; [226; 128; 175];
      [226; 129; 159]; [227; 128; 128] ]%nat.

(** Drop from the front, as long as one of [seqs] is a prefix. *)
Fixpoint trimLeftSeqs (seqs : list (list ascii)) (fuel : nat) (s : list ascii)
  : list ascii :=
  match fuel with
  | O => s
  | S fuel =>
      match List.find (fun q => isPrefix q s) seqs with
      | Some q => trimLeftSeqs seqs fuel (skipn (List.length q) s)
      | None => s
      end
  end.

Definition trimLeft (seqs : list (list ascii)) (s : list ascii) : list ascii :=
  trimLeftSeqs seqs (List.length s) s.

Definition trimRight (seqs : list (list ascii)) (s : list ascii) : list ascii :=
  List.rev (trimLeft (map (@List.rev ascii) seqs) (List.rev s)).

(** [strings.TrimSpace]: leading and trailing white space removed, white
    space as Unicode defines it; a byte of an invalid encoding is no space. *)
Definition TrimSpace (s : string) : string :=
  string_of_list_ascii
    (trimRight spaces (trimLeft spaces (list_ascii_of_string s))).

(** [strings.Trim(s, cutset)] for a cutset of ASCII bytes, which its one
    call has: leading and trailing bytes of the cutset removed. *)
Definition Trim (s cutset : string) : string :=
  let set := map (fun c => [c]) (list_ascii_of_string cutset) in
  string_of_list_ascii (trimRight set (trimLeft set (list_ascii_of_string s))).

(** [strings.Split(s, sep)] for a separator of one byte. *)
Fixpoint Split (s : string) (sep : ascii) : list string :=
  match s with
  | EmptyString => [EmptyString]
  | String c s' =>
      if Ascii.eqb c sep then EmptyString :: Split s' sep
      else match Split s' sep with
           | [] => [String c EmptyString]
           | piece :: pieces => String c piece :: pieces
           end
  end.

(** [strings.Contains(s, substr)] *)
Fixpoint Contains (s substr : string) : bool :=
  String.prefix substr s
  || match s with
     | EmptyString => false
     | String _ s' => Contains s' substr
     end.

(** [strings.TrimSuffix(s, suffix)] *)
Definition TrimSuffix (s suffix : string) : string :=
  let n := String.length s in
  let k := String.length suffix in
  if (k <=? n)%nat && String.eqb (String.substring (n - k) k s) suffix
  then String.substring 0 (n - k) s
  else s.

End gostrings.

(** ** package config *)
Module config.

Record LLMConfig : Type := {
  BaseURL : string;
  APIKey : string;
  Model : string
}.

Record Config : Type := {
  DefaultInterval : string;
  LLM : LLMConfig
}.

Definition DefaultConfig : Config :=
  {| DefaultInterval := "5m";
     LLM := {| BaseURL := "https://api.openai.com/v1"; APIKey := ""; Model := "gpt-4" |} |}.

End config.

(** ** package llm *)
Module llm.

Record Client : Type := {
  BaseURL : string;
  APIKey : string;
  Model : string
}.

(** [c.APIKey != ""] *)
Definition HasCredentials (c : Client) : bool :=
  negb (String.eqb (APIKey c) "").

Record Message : Type := {
  Role : string;
  Content : string
}.

Record ChatRequest : Type := {
  chatModel : string;
  Messages : list Message;
  MaxTokens : Z
}.

(** A POST request as [GenerateCommitMessage] fills it. *)
Record Request : Type := {
  URL : string;
  Body : string;
  ContentType : string;
  Authorization : string
}.

(** A response: the status and what the two decoders make of the body,
    the error envelope ([error.message]) and [ChatResponse] (the content of
    each choice). *)
Record Response : Type := {
  StatusCode : Z;
  decodeError : error + string;
  decodeChat : error + list string
}.

(** [encoding/json] and [net/http] as the client uses them. *)
Record Transport : Type := {
  json_Marshal : ChatRequest -> error + string;
  http_NewRequest : string -> string -> error + unit;   (* POST, url, body *)
  client_Do : Request -> error + Response
}.

Definition StatusOK : Z := 200.

Definition promptPrefix : string :=
  "You are a Git commit message generator. Your task is to write a clear, " +:+
  "concise commit message in the conventional commit format (type: description) based on the " +:+
  "following Git diff. Focus only on the most important changes, and keep the message under 72 characters. " +:+
  "Respond with ONLY the commit message, nothing else, do not add any other prefix or suffix." +:+
  String "010"%char (String "010"%char ("Diff:" +:+ String "010"%char "")).

(** The cutset of the last [strings.Trim]: a double and a single quote. *)
Definition quotes : string := String "034"%char (String "039"%char "").

(** [GenerateCommitMessage], with the requests it sent (none or one). *)
Definition GenerateCommitMessage (c : Client) (diff : string) (net : Transport)
  : list Request * (error + string) :=
  if negb (HasCredentials c) then
    ([], inl (errorString "LLM API credentials not configured"))
  else
    let prompt := promptPrefix +:+ diff in
    let chatReq :=
      {| chatModel := Model c;
         Messages :=
           [ {| Role := "system";
                Content := "You generate concise git commit messages in conventional format." |};
             {| Role := "user"; Content := prompt |} ];
         MaxTokens := 100 |} in
    match json_Marshal net chatReq with
    | inl err => ([], inl (wrapError "failed to marshal request body: " err))
    | inr reqBody =>
        let endpoint := gostrings.TrimSuffix (BaseURL c) "/" +:+ "/chat/completions" in
        match http_NewRequest net endpoint reqBody with
        | inl err => ([], inl (wrapError "failed to create request: " err))
        | inr _ =>
            let req := {| URL := endpoint; Body := reqBody;
                          ContentType := "application/json";
                          Authorization := "Bearer " +:+ APIKey c |} in
            match client_Do net req with
            | inl err => ([req], inl (wrapError "failed to send request: " err))
            | inr resp =>
                if negb (StatusCode resp =? StatusOK) then
                  match decodeError resp with
                  | inr message =>
                      ([req], inl (errorString ("API error: " +:+ message)))
                  | inl _ =>
                      ([req], inl (errorString ("API returned non-200 status code: "
                                                +:+ itoa (StatusCode resp))))
                  end
                else
                  match decodeChat resp with
                  | inl err => ([req], inl (wrapError "failed to decode response: " err))
                  | inr [] => ([req], inl (errorString "no response from LLM"))
                  | inr (content :: _) =>
                      let message := gostrings.TrimSpace content in
                      let message := gostrings.Trim message quotes in
                      ([req], inr message)
                  end
            end
        end
    end.

Definition NewClient (cfg : config.LLMConfig) : Client :=
  {| BaseURL := config.BaseURL cfg; APIKey := config.APIKey cfg;
     Model := config.Model cfg |}.

End llm.

(** ** What a task execution sees of the outside and does to it *)

(** The calls that change the repository or reach the network, in the order
    they are made. Reads of the status and of HEAD are not recorded. *)
Inductive Call : Type :=
  | CallAddGlob (pattern : string)
  | CallRemoveGlob (pattern : string)
  | CallCommit (message : string)
  | CallPush (refSpecs : list string)
  | CallHTTP (req : llm.Request).

Record Env (Disk : Type) : Type := {
  disk : Disk;                    (* the file system with the repositories on it, and their remotes *)
  transport : llm.Transport;      (* the way to the LLM endpoint *)
  clockE : nat -> Time;           (* [clockE n]: what the n-th call of time.Now() returns *)
  nowCallsE : nat;
  loggedE : list logger.Entry;    (* the log, oldest first *)
  calls : list Call               (* oldest first *)
}.
Arguments disk {Disk} e.
Arguments transport {Disk} e.
Arguments clockE {Disk} e.
Arguments nowCallsE {Disk} e.
Arguments loggedE {Disk} e.
Arguments calls {Disk} e.

Section EnvOps.
Context {Disk : Type}.

Definition set_disk (d : Disk) (e : Env Disk) : Env Disk :=
  {| disk := d; transport := transport e; clockE := clockE e;
     nowCallsE := nowCallsE e; loggedE := loggedE e; calls := calls e |}.

Definition record (cs : list Call) (e : Env Disk) : Env Disk :=
  {| disk := disk e; transport := transport e; clockE := clockE e;
     nowCallsE := nowCallsE e; loggedE := loggedE e; calls := calls e ++ cs |}.

Definition logE (entry : logger.Entry) (e : Env Disk) : Env Disk :=
  {| disk := disk e; transport := transport e; clockE := clockE e;
     nowCallsE := nowCallsE e; loggedE := loggedE e ++ [entry]; calls := calls e |}.

(** A computation that reads and changes the environment and either
    yields a value or stops with an [X]: an [error] for the methods that
    return one, [unit] for the [return] statements of [executeTask]. *)
Definition ST (X A : Type) : Type := Env Disk -> (X + A) * Env Disk.

Definition ret {X A} (a : A) : ST X A := fun e => (inr a, e).

Definition bind {X A B} (m : ST X A) (k : A -> ST X B) : ST X B :=
  fun e => match m e with
           | (inl x, e') => (inl x, e')
           | (inr a, e') => k a e'
           end.

Definition fail {X A} (x : X) : ST X A := fun e => (inl x, e).

(** [if err != nil { return fmt.Errorf("<prefix>%w", err) }] *)
Definition wrap {A} (prefix : string) (m : ST error A) : ST error A :=
  fun e => match m e with
           | (inl err, e') => (inl (wrapError prefix err), e')
           | (inr a, e') => (inr a, e')
           end.

(** A read of the disk. *)
Definition read {A} (f : Disk -> error + A) : ST error A :=
  fun e => (f (disk e), e).

(** A recorded call that changes the disk and may fail. *)
Definition change (c : Call) (f : Disk -> option error * Disk) : ST error unit :=
  fun e => let '(err, d) := f (disk e) in
           (match err with Some err => inl err | None => inr tt end,
            record [c] (set_disk d e)).

Definition time_NowE : ST error Time :=
  fun e => (inr (clockE e (nowCallsE e)),
            {| disk := disk e; transport := transport e; clockE := clockE e;
               nowCallsE := S (nowCallsE e); loggedE := loggedE e; calls := calls e |}).

(** [for _, x := range l { if err := body(x); err != nil { return err } }] *)
Fixpoint forEach {X A} (l : list A) (body : A -> ST X unit) : ST X unit :=
  match l with
  | [] => ret tt
  | x :: l => bind (body x) (fun _ => forEach l body)
  end.

(** [if err != nil { <log the entry>; return }] *)
Definition try {A} (m : ST error A) (report : error -> logger.Entry) : ST unit A :=
  fun e => match m e with
           | (inl err, e') => (inl tt, logE (report err) e')
           | (inr a, e') => (inr a, e')
           end.

Definition say (entry : logger.Entry) : ST unit unit :=
  fun e => (inr tt, logE entry e).

(** A bare [return]. *)
Definition return_ {A} : ST unit A := fail tt.

(** The call of the client, with the requests it sent put on record. *)
Definition llmClient_GenerateCommitMessage (c : llm.Client) (diff : string)
  : ST error string :=
  fun e =>
    let '(reqs, res) := llm.GenerateCommitMessage c diff (transport e) in
    (res, record (CallHTTP <$> reqs) e).

End EnvOps.

#[global] Instance ST_ret {Disk X} : MRet (@ST Disk X) := fun A a => ret a.
#[global] Instance ST_bind {Disk X} : MBind (@ST Disk X) := fun A B k m => bind m k.

(** ** package git *)
Module git.

Inductive StatusCode : Type :=
  | Unmodified | Untracked | Modified | Added | Deleted | Renamed | Copied
  | UpdatedButUnmerged.

Definition isUnmodified (c : StatusCode) : bool :=
  match c with Unmodified => true | _ => false end.

Record FileStatus : Type := {
  Staging : StatusCode;
  Worktree : StatusCode
}.

(** [git.Status], a map from path to [*FileStatus], in the order a [range]
    yields it. *)
Definition Status : Type := list (string * FileStatus).

Record Signature : Type := {
  Name : string;
  Email : string;
  When : Time
}.

(** go-git, [path/filepath] and [os/exec] as [RepoManager] uses them, over a
    disk they read and change. *)
Class GoGit : Type := {
  Disk : Type;
  Repository : Type;
  WorktreeHandle : Type;
  filepath_Abs : string -> Disk -> error + string;
  PlainOpen : string -> Disk -> error + Repository;
  repo_Worktree : Repository -> Disk -> error + WorktreeHandle;
  wt_Status : WorktreeHandle -> Disk -> error + Status;
  wt_AddGlob : WorktreeHandle -> string -> Disk -> option error * Disk;
  wt_RemoveGlob : WorktreeHandle -> string -> Disk -> option error * Disk;
  wt_Commit : WorktreeHandle -> string -> Signature -> Disk -> option error * Disk;
  repo_Head : Repository -> Disk -> error + string;   (* head.Name().String() *)
  repo_Push : Repository -> list string -> Disk -> option error * Disk;
  exec_LookPath : string -> Disk -> error + string;
  exec_Output : string -> list string -> Disk -> error + string   (* cmd.Dir, argv *)
}.

(** gobwas/glob *)
Class GlobPkg : Type := {
  Glob : Type;
  Compile : string -> error + Glob;
  Match : Glob -> string -> bool
}.

Section RepoManager.
Context `{!GoGit} `{!GlobPkg}.

Record RepoManager : Type := {
  path : string;
  repo : Repository
}.

Definition NewRepoManager (repoPath : string) : ST error RepoManager :=
  absPath ← wrap "failed to get absolute path: " (read (filepath_Abs repoPath));
  repo ← wrap "failed to open git repository: " (read (PlainOpen absPath));
  ret {| path := absPath; repo := repo |}.

Definition HasChanges (r : RepoManager) : ST error bool :=
  wt ← wrap "failed to get worktree: " (read (repo_Worktree (repo r)));
  status ← wrap "failed to get status: " (read (wt_Status wt));
  ret (existsb (fun fileStatus =>
                  negb (isUnmodified (Worktree fileStatus))
                  || negb (isUnmodified (Staging fileStatus)))
               status.*2).

Definition HasStagedChanges (r : RepoManager) : ST error bool :=
  wt ← wrap "failed to get worktree: " (read (repo_Worktree (repo r)));
  status ← wrap "failed to get status: " (read (wt_Status wt));
  ret (existsb (fun fileStatus => negb (isUnmodified (Staging fileStatus)))
               status.*2).

Definition StageChanges (r : RepoManager) (excludePatterns : string) : ST error unit :=
  wt ← wrap "failed to get worktree: " (read (repo_Worktree (repo r)));
  wrap "failed to stage changes: " (change (CallAddGlob ".") (wt_AddGlob wt "."));;
  if negb (String.eqb excludePatterns "") then
    let patterns := gostrings.Split excludePatterns ","%char in
    forEach patterns (fun pattern =>
      let pattern := gostrings.TrimSpace pattern in
      if String.eqb pattern "" then ret tt
      else
        g ← wrap ("invalid exclude pattern '" +:+ pattern +:+ "': ")
                  (fun e => (Compile pattern, e));
        status ← wrap "failed to get status: " (read (wt_Status wt));
        forEach status.*1 (fun filePath =>
          if Match g filePath then
            wrap ("failed to unstage file " +:+ filePath +:+ ": ")
                 (change (CallRemoveGlob filePath) (wt_RemoveGlob wt filePath))
          else ret tt))
  else ret tt.

Definition getSystemGitDiff (r : RepoManager) : ST error string :=
  wrap "git executable not found: " (read (exec_LookPath "git"));;
  output ← wrap "failed to run git diff: "
                 (read (exec_Output (path r) ["git"; "diff"; "--staged"]));
  if (String.length output =? 0)%nat then
    output ← wrap "failed to run git diff for unstaged changes: "
                   (read (exec_Output (path r) ["git"; "diff"]));
    ret output
  else ret output.

Definition stagingStatus (c : StatusCode) : string :=
  match c with
  | Untracked => "Untracked"
  | Modified => "Modified"
  | Added => "Added"
  | Deleted => "Deleted"
  | Renamed => "Renamed"
  | Copied => "Copied"
  | UpdatedButUnmerged => "Conflicted"
  | Unmodified => "Modified"
  end.

Definition GetDiff (r : RepoManager) : ST error string :=
  fun e =>
    match getSystemGitDiff r e with
    | (inr diffStr, e) => (inr diffStr, e)
    | (inl _, e) =>
        (wt ← wrap "failed to get worktree: " (read (repo_Worktree (repo r)));
         status ← wrap "failed to get status: " (read (wt_Status wt));
         ret (fold_left
                (fun buf '(filePath, fileStatus) =>
                   if negb (isUnmodified (Staging fileStatus)) then
                     buf +:+ "File: " +:+ filePath +:+ " (Status: "
                         +:+ stagingStatus (Staging fileStatus) +:+ ")"
                         +:+ String "010"%char ""
                   else buf)
                status "")) e
    end.

Definition Commit (r : RepoManager) (message : string) : ST error unit :=
  wt ← wrap "failed to get worktree: " (read (repo_Worktree (repo r)));
  hasStagedChanges ← wrap "failed to check for staged changes: " (HasStagedChanges r);
  (if negb hasStagedChanges then
     wrap "failed to stage changes: " (change (CallAddGlob ".") (wt_AddGlob wt "."));;
     hasStagedChanges ← wrap "failed to check for staged changes: " (HasStagedChanges r);
     if negb hasStagedChanges then fail (errorString "no staged changes to commit")
     else ret tt
   else ret tt);;
  now ← time_NowE;
  wrap "failed to create commit: "
       (change (CallCommit message)
               (wt_Commit wt message
                  {| Name := "Commitmonk"; Email := "commitmonk@automated.tool";
                     When := now |})).

Definition Push (r : RepoManager) : ST error unit :=
  head ← wrap "failed to get HEAD: " (read (repo_Head (repo r)));
  let refSpec := head +:+ ":" +:+ head in
  ((fun e =>
      let '(err, d) := repo_Push (repo r) [refSpec] (disk e) in
      let e := record [CallPush [refSpec]] (set_disk d e) in
      match err with
      | Some err =>
          if negb (isNoErrAlreadyUpToDate err)
          then (inl (wrapError "failed to push: " err), e)
          else (inr tt, e)
      | None => (inr tt, e)
      end) : ST error unit).

End RepoManager.

End git.

(** ** package scheduler *)
Module scheduler.
Import db.

(** [taskState]: the record and the time of its next run. The map of the
    runner holds pointers to these; no pointer is shared between two keys or
    kept outside the map, so the map holds the values. *)
Record taskState : Type := {
  task : Task;
  nextRun : Time
}.

(** A channel that is only ever closed and received from. *)
Inductive chan : Type :=
  | chanNil
  | chanOpen
  | chanClosed.

(** [TaskRunner]. The field [database] is the connection, whose answers are
    the field [sqlite] of the world below. *)
Record TaskRunner : Type := {
  llmClient : llm.Client;
  stopCh : chan;
  tasks : gmap Z taskState;
  lastCheck : Time
}.

Definition set_tasks (m : gmap Z taskState) (r : TaskRunner) : TaskRunner :=
  {| llmClient := llmClient r; stopCh := stopCh r; tasks := m;
     lastCheck := lastCheck r |}.

Definition set_lastCheck (t : Time) (r : TaskRunner) : TaskRunner :=
  {| llmClient := llmClient r; stopCh := stopCh r; tasks := tasks r;
     lastCheck := t |}.

Definition set_stopCh (c : chan) (r : TaskRunner) : TaskRunner :=
  {| llmClient := llmClient r; stopCh := c; tasks := tasks r;
     lastCheck := lastCheck r |}.

(** What the scheduler goroutine sees of the outside and does to it. *)
Record World : Type := {
  clock : nat -> Time;          (* [clock n]: what the n-th call of time.Now() returns *)
  nowCalls : nat;               (* calls of time.Now() so far *)
  sqlite : QueryResult;         (* the answer of the registry to the next query *)
  tickerC : bool;               (* whether the ticker's channel holds a tick *)
  logged : list logger.Entry;   (* the log, oldest first *)
  goroutines : list Task        (* every [go r.executeTask(task)] so far, oldest first *)
}.

Definition time_Now (w : World) : Time * World :=
  (clock w (nowCalls w),
   {| clock := clock w; nowCalls := S (nowCalls w); sqlite := sqlite w; tickerC := tickerC w;
      logged := logged w; goroutines := goroutines w |}).

Definition log (e : logger.Entry) (w : World) : World :=
  {| clock := clock w; nowCalls := nowCalls w; sqlite := sqlite w; tickerC := tickerC w;
     logged := logged w ++ [e]; goroutines := goroutines w |}.

Definition go_executeTask (t : Task) (w : World) : World :=
  {| clock := clock w; nowCalls := nowCalls w; sqlite := sqlite w; tickerC := tickerC w;
     logged := logged w; goroutines := goroutines w ++ [t] |}.

Definition set_sqlite (q : QueryResult) (w : World) : World :=
  {| clock := clock w; nowCalls := nowCalls w; sqlite := q; tickerC := tickerC w;
     logged := logged w; goroutines := goroutines w |}.

Definition set_tickerC (b : bool) (w : World) : World :=
  {| clock := clock w; nowCalls := nowCalls w; sqlite := sqlite w; tickerC := b;
     logged := logged w; goroutines := goroutines w |}.

(** [for id, state := range r.tasks]: Go leaves the order open. The bodies
    below delete or update only the key of the current iteration, so the
    loop visits exactly the entries the map had when it started, once each,
    in the order the runtime picks. *)
Class GoMapRange := {
  mapRange : gmap Z taskState -> list (Z * taskState);
  mapRange_perm : forall m, mapRange m ≡ₚ map_to_list m
}.

(** [NewTaskRunner]; [time.Now()] is read for [lastCheck]. *)
Definition NewTaskRunner (c : llm.Client) (w : World) : TaskRunner * World :=
  let '(now, w) := time_Now w in
  ({| llmClient := c; stopCh := chanOpen; tasks := ∅; lastCheck := now |}, w).

(** A Go call either returns or panics. *)
Inductive outcome (A : Type) : Type :=
  | Returns (a : A)
  | Panics (msg : string).
Arguments Returns {A} a.
Arguments Panics {A} msg.

(** The builtin [close]. *)
Definition close (c : chan) : outcome chan :=
  match c with
  | chanNil => Panics "close of nil channel"
  | chanOpen => Returns chanClosed
  | chanClosed => Panics "close of closed channel"
  end.

Definition Stop (r : TaskRunner) (w : World) : outcome (TaskRunner * World) :=
  match close (stopCh r) with
  | Panics msg => Panics msg
  | Returns c =>
      Returns (set_stopCh c r, log (logger.Println "Task scheduler stopped") w)
  end.

Section Scheduling.
Context `{!TimePkg} `{!GoMapRange}.

(** The body of the first loop of [loadTasks], for one record. *)
Definition loadTasks_record (t : Task)
    (st : gmap Z bool * TaskRunner * World) : gmap Z bool * TaskRunner * World :=
  let '(currentTaskIDs, r, w) := st in
  let currentTaskIDs := <[ID t := true]> currentTaskIDs in
  match tasks r !! ID t with
  | Some existingState =>
      let r := set_tasks
                 (<[ID t := {| task := t; nextRun := nextRun existingState |}]> (tasks r)) r in
      let w := log (logger.Printf "Updated task: %s (ID: %d, every %s)"
                      [logger.S_ (Path t); logger.D_ (ID t); logger.S_ (Every t)]) w in
      (currentTaskIDs, r, w)
  | None =>
      match ParseDuration (Every t) with
      | inl err =>
          let w := log (logger.Printf "Warning: Invalid duration for task %d (%s): %v"
                          [logger.D_ (ID t); logger.S_ (Path t); logger.V_ err]) w in
          (currentTaskIDs, r, w)
      | inr duration =>
          let '(now, w) := time_Now w in
          let r := set_tasks
                     (<[ID t := {| task := t; nextRun := Add now duration |}]> (tasks r)) r in
          let w := log (logger.Printf "Loaded new task: %s (ID: %d, every %s)"
                          [logger.S_ (Path t); logger.D_ (ID t); logger.S_ (Every t)]) w in
          (currentTaskIDs, r, w)
      end
  end.

(** The body of the second loop of [loadTasks], for one key. *)
Definition loadTasks_remove (currentTaskIDs : gmap Z bool) (id : Z)
    (st : TaskRunner * World) : TaskRunner * World :=
  let '(r, w) := st in
  if negb (default false (currentTaskIDs !! id)) then
    let w := log (logger.Printf
                    "Removing task with ID %d as it's no longer in the database"
                    [logger.D_ id]) w in
    (set_tasks (delete id (tasks r)) r, w)
  else (r, w).

Definition loadTasks (r : TaskRunner) (w : World) : option error * TaskRunner * World :=
  match GetAllTasks (sqlite w) with
  | inl err => (Some err, r, w)
  | inr records =>
      let '(currentTaskIDs, r, w) :=
        fold_left (fun st t => loadTasks_record t st) records (∅, r, w) in
      let '(r, w) :=
        fold_left (fun st e => loadTasks_remove currentTaskIDs (fst e) st)
                  (mapRange (tasks r)) (r, w) in
      let '(now, w) := time_Now w in
      (None, set_lastCheck now r, w)
  end.

(** [time.Since(r.lastCheck) < 10*time.Second], then [loadTasks]. [Since]
    saturates at the ends of [int64]; against ten seconds that compares as
    the exact difference does. *)
Definition checkForChanges (r : TaskRunner) (w : World) : option error * TaskRunner * World :=
  let '(now, w) := time_Now w in
  if now - lastCheck r <? 10 * Second then (None, r, w)
  else
    let w := log (logger.Println "Checking for task updates...") w in
    loadTasks r w.

(** The body of the loop of [processTasks], for one entry. *)
Definition processTasks_entry (now : Time) (e : Z * taskState)
    (st : TaskRunner * World) : TaskRunner * World :=
  let '(r, w) := st in
  let '(id, state) := e in
  if After now (nextRun state) then
    let w := go_executeTask (task state) w in
    match ParseDuration (Every (task state)) with
    | inl err =>
        let w := log (logger.Printf "Error parsing duration for task %d: %v"
                        [logger.D_ id; logger.V_ err]) w in
        (set_tasks (delete id (tasks r)) r, w)
    | inr duration =>
        (set_tasks (<[id := {| task := task state; nextRun := Add now duration |}]> (tasks r)) r, w)
    end
  else (r, w).

Definition processTasks (r : TaskRunner) (w : World) : TaskRunner * World :=
  let '(now, w) := time_Now w in
  fold_left (fun st e => processTasks_entry now e st) (mapRange (tasks r)) (r, w).

(** [Start]: the first load; the loop itself is [run_step] below. *)
Definition Start (r : TaskRunner) (w : World) : option error * TaskRunner * World :=
  let w := log (logger.Println "Starting task scheduler...") w in
  match loadTasks r w with
  | (Some err, r, w) => (Some (wrapError "failed to load tasks: " err), r, w)
  | (None, r, w) => (None, r, w)
  end.

(** One iteration of the loop of [run] that takes the ticker's case. *)
Definition tick (r : TaskRunner) (w : World) : TaskRunner * World :=
  let '(err, r, w) := checkForChanges r w in
  let w := match err with
           | Some err => log (logger.Printf "Error checking for task updates: %v"
                                [logger.V_ err]) w
           | None => w
           end in
  processTasks r w.

(** [run]: [for { select { case <-r.stopCh: return; case <-ticker.C: ... } }],
    one [select] at a time. A receive from a closed channel can proceed;
    one from an open or nil channel that nobody sends on cannot; the
    ticker's channel holds one tick at most. When both cases can
    proceed, [select] takes either. *)
Inductive loop : Type :=
  | Selecting
  | Returned.

Inductive run_step : loop * TaskRunner * World -> loop * TaskRunner * World -> Prop :=
  | run_stop r w :
      stopCh r = chanClosed ->
      run_step (Selecting, r, w) (Returned, r, w)
  | run_tick r w :
      tickerC w = true ->
      run_step (Selecting, r, w)
               (Selecting, (tick r (set_tickerC false w)).1,
                           (tick r (set_tickerC false w)).2).

(** What happens around the loop: the ticker fires, the registry is
    edited, another goroutine calls [Stop] and it returns. *)
Inductive env_step : loop * TaskRunner * World -> loop * TaskRunner * World -> Prop :=
  | env_fire l r w :
      env_step (l, r, w) (l, r, set_tickerC true w)
  | env_registry l r w q :
      env_step (l, r, w) (l, r, set_sqlite q w)
  | env_Stop l r w r' w' :
      Stop r w = Returns (r', w') ->
      env_step (l, r, w) (l, r', w').

Definition step (c c' : loop * TaskRunner * World) : Prop :=
  run_step c c' \/ env_step c c'.

End Scheduling.

(** *** [executeTask], the body of a goroutine *)
Section Execution.
Context `{!git.GoGit} `{!git.GlobPkg}.

(** Lines 166 to 214: open the repository, look for changes, stage or
    check the index, take the diff. *)
Definition executeTask_prepare (t : Task) : ST unit (git.RepoManager * string) :=
  say (logger.Printf "Executing task for repository: %s" [logger.S_ (Path t)]);;
  repoManager ← try (git.NewRepoManager (Path t))
    (fun err => logger.Errorf "Error opening repository %s: %v"
                  [logger.S_ (Path t); logger.V_ err]);
  hasChanges ← try (git.HasChanges repoManager)
    (fun err => logger.Errorf "Error checking for changes in %s: %v"
                  [logger.S_ (Path t); logger.V_ err]);
  (if negb hasChanges then
     say (logger.Printf "No changes detected in %s, skipping" [logger.S_ (Path t)]);;
     return_
   else ret tt);;
  (if AutoAdd t then
     say (logger.Printf "Auto-staging changes in %s" [logger.S_ (Path t)]);;
     try (git.StageChanges repoManager (ExcludePatterns t))
       (fun err => logger.Errorf "Error staging changes in %s: %v"
                     [logger.S_ (Path t); logger.V_ err])
   else
     hasStagedChanges ← try (git.HasStagedChanges repoManager)
       (fun err => logger.Errorf "Error checking for staged changes in %s: %v"
                     [logger.S_ (Path t); logger.V_ err]);
     if negb hasStagedChanges then
       say (logger.Printf "No staged changes in %s and auto-add is disabled, skipping"
              [logger.S_ (Path t)]);;
       return_
     else ret tt);;
  diff ← try (git.GetDiff repoManager)
    (fun err => logger.Errorf "Error getting diff for %s: %v"
                  [logger.S_ (Path t); logger.V_ err]);
  ret (repoManager, diff).

(** Lines 216 to 241: determine the commit message. *)
Definition executeTask_message (r : TaskRunner) (t : Task) (diff : string)
  : @ST git.Disk unit string :=
  if llm.HasCredentials (llmClient r) then
    say (logger.Printf "Generating commit message using LLM for %s" [logger.S_ (Path t)]);;
    ((fun e =>
        match llmClient_GenerateCommitMessage (llmClient r) diff e with
        | (inr commitMsg, e) => (inr commitMsg, e)
        | (inl err, e) =>
            let e := logE (logger.Errorf "Error generating commit message for %s: %v"
                             [logger.S_ (Path t); logger.V_ err]) e in
            if negb (String.eqb (StaticMsg t) "") then
              (inr (StaticMsg t),
               logE (logger.Printf "Falling back to static message for %s"
                       [logger.S_ (Path t)]) e)
            else
              (inl tt,
               logE (logger.Errorf
                       "LLM failed and no static message configured for %s, cannot commit"
                       [logger.S_ (Path t)]) e)
        end) : @ST git.Disk unit string)
  else if negb (String.eqb (StaticMsg t) "") then
    say (logger.Printf "Using configured static message for %s" [logger.S_ (Path t)]);;
    ret (StaticMsg t)
  else
    say (logger.Errorf
           "No LLM credentials and no static message configured for %s, cannot commit"
           [logger.S_ (Path t)]);;
    return_.

(** Lines 243 to 263: commit, and push if configured. *)
Definition executeTask_finish (t : Task) (repoManager : git.RepoManager)
    (commitMsg : string) : ST unit unit :=
  try (git.Commit repoManager commitMsg)
    (fun err =>
       if gostrings.Contains (Error err) "no staged changes" then
         logger.Printf "No staged changes to commit in %s" [logger.S_ (Path t)]
       else
         logger.Errorf "Error committing changes in %s: %v"
           [logger.S_ (Path t); logger.V_ err]);;
  say (logger.Printf "Created commit in %s: %s" [logger.S_ (Path t); logger.S_ commitMsg]);;
  if AutoPush t then
    say (logger.Printf "Auto-pushing commits in %s" [logger.S_ (Path t)]);;
    try (git.Push repoManager)
      (fun err => logger.Errorf "Error pushing changes in %s: %v"
                    [logger.S_ (Path t); logger.V_ err]);;
    say (logger.Printf "Successfully pushed commits in %s" [logger.S_ (Path t)])
  else ret tt.

Definition executeTask (r : TaskRunner) (t : Task) : ST unit unit :=
  prepared ← executeTask_prepare t;
  commitMsg ← executeTask_message r t prepared.2;
  executeTask_finish t prepared.1 commitMsg.

End Execution.

End scheduler.

(** ** package cmd *)
Module cmd.
Import db scheduler.

(** [strings.Repeat] *)
Fixpoint Repeat (s : string) (count : nat) : string :=
  match count with
  | O => ""
  | S count => s +:+ Repeat s count
  end.

(** [maskAPIKey]; [key[:4]] and [key[len(key)-4:]] are substrings. *)
Definition maskAPIKey (key : string) : string :=
  if String.eqb key "" then "<not set>"
  else if (String.length key <=? 8)%nat then Repeat "*" (String.length key)
  else String.substring 0 4 key
       +:+ Repeat "*" (String.length key - 8)
       +:+ String.substring (String.length key - 4) 4 key.

(** The command line of [add] as the [cli] context gives it: the
    arguments, and the flags ([every] is absent when not given, and then
    has the default interval of the configuration as its value). *)
Record AddContext : Type := {
  Args : list string;
  no_autoadd : bool;
  autopush : bool;
  every : option string;
  message : string;
  exclude : string
}.

(** [path/filepath] and [os] as the commands use them. *)
Record Host : Type := {
  filepath_Abs : string -> error + string;
  filepath_Join : string -> string -> string;
  os_Stat_IsNotExist : string -> bool      (* os.IsNotExist of the error of os.Stat *)
}.

(** The action of [AddCommand]: the error it returns, what it prints, and
    the tasks it gave to [AddTask]. *)
Definition AddAction `{!TimePkg} (conn : Conn) (cfg : config.Config) (host : Host)
    (c : AddContext) : option error * list string * list Task :=
  if negb (List.length (Args c) =? 1)%nat then
    (Some (errorString "path argument required"), [], [])
  else
    let repoPath := List.nth 0 (Args c) "" in
    match filepath_Abs host repoPath with
    | inl err => (Some (wrapError "failed to get absolute path: " err), [], [])
    | inr absPath =>
        if os_Stat_IsNotExist host (filepath_Join host absPath ".git") then
          (Some (errorString (absPath +:+ " is not a git repository")), [], [])
        else
          let interval := default (config.DefaultInterval cfg) (every c) in
          match ParseDuration interval with
          | inl err => (Some (wrapError "invalid interval format: " err), [], [])
          | inr duration =>
              if duration <? Minute then
                (Some (errorString "interval must be at least 1 minute"), [], [])
              else
                let staticMsg := message c in
                if String.eqb staticMsg ""
                   && String.eqb (config.APIKey (config.LLM cfg)) "" then
                  (Some (errorString
                           "commit message is required when LLM is not configured. Use --message to provide one"),
                   [], [])
                else
                  let task := {| ID := 0; Path := absPath; Every := interval;
                                 AutoAdd := negb (no_autoadd c);
                                 AutoPush := autopush c;
                                 StaticMsg := staticMsg;
                                 ExcludePatterns := exclude c |} in
                  match AddTask conn task with
                  | Some err =>
                      (Some (wrapError "failed to register repository: " err), [], [task])
                  | None =>
                      (None,
                       ["Registered " +:+ absPath +:+ " (every " +:+ interval]
                       ++ (if negb (AutoAdd task) then [", auto-add disabled"] else [])
                       ++ (if AutoPush task then [", auto-push enabled"] else [])
                       ++ (if negb (String.eqb (StaticMsg task) "")
                           then [", message=" +:+ String "034"%char (StaticMsg task)
                                 +:+ String "034"%char ""]
                           else [])
                       ++ (if negb (String.eqb (ExcludePatterns task) "")
                           then [", exclude=" +:+ ExcludePatterns task]
                           else [])
                       ++ [")" +:+ String "010"%char ""],
                       [task])
                  end
          end
    end.

(** The action of [RemoveCommand]; [Sscanf_d arg] is
    [fmt.Sscanf(arg, "%d", &id)]. It returns the error, what it prints and the
    statements it ran. *)
Definition RemoveAction (conn : Conn) (host : Host) (Sscanf_d : string -> error + Z)
    (args : list string) : option error * list string * list Statement :=
  if negb (List.length args =? 1)%nat then
    (Some (errorString "path or id argument required"), [], [])
  else
    let arg := List.nth 0 args "" in
    match Sscanf_d arg with
    | inr id =>
        match RemoveTaskByID conn id with
        | Some err =>
            (Some (wrapError ("failed to unregister repository with ID " +:+ itoa id +:+ ": ")
                     err), [], [deleteByID id])
        | None =>
            (None,
             ["Unregistered repository with ID " +:+ itoa id +:+ String "010"%char ""],
             [deleteByID id])
        end
    | inl _ =>
        match filepath_Abs host arg with
        | inl err => (Some (wrapError "failed to get absolute path: " err), [], [])
        | inr absPath =>
            match RemoveTask conn absPath with
            | Some err =>
                (Some (wrapError "failed to unregister repository: " err), [],
                 [deleteByPath absPath])
            | None =>
                (None, ["Unregistered " +:+ absPath +:+ String "010"%char ""],
                 [deleteByPath absPath])
            end
        end
    end.

(** The action of [RunCommand]. While it waits for the signal the loop takes
    some ticks, the registry answering [q] at each of [qs]; then [Stop] is
    called. It returns the error and what it printed, with the runner and the
    world it leaves. *)
Definition RunAction `{!TimePkg} `{!GoMapRange} (cfg : config.Config) (w : World)
    (qs : list QueryResult) : outcome (option error * list string * TaskRunner * World) :=
  let '(runner, w) := NewTaskRunner (llm.NewClient (config.LLM cfg)) w in
  match Start runner w with
  | (Some err, runner, w) =>
      Returns (Some (wrapError "failed to start scheduler: " err), [], runner, w)
  | (None, runner, w) =>
      let '(runner, w) :=
        fold_left (fun st q => tick st.1 (set_sqlite q st.2)) qs (runner, w) in
      match Stop runner w with
      | Panics msg => Panics msg
      | Returns (runner, w) =>
          Returns (None,
                   ["Monitoring changes. Press Ctrl+C to stop." +:+ String "010"%char "";
                    String "010"%char "Shutting down..." +:+ String "010"%char ""],
                   runner, w)
      end
  end.

End cmd.

Import db scheduler.

(** ** Small instances of the interfaces, for the examples *)

(** [time.ParseDuration] on the three strings the examples use; Go answers
    the same on them. *)
#[local] Instance exampleTime : TimePkg := {
  ParseDuration s :=
    if String.eqb s "1m" then inr Minute
    else if String.eqb s "5m" then inr (5 * Minute)
    else if String.eqb s "soon" then
      inl (errorString "time: invalid duration soon")
    else inl (errorString "time: invalid duration")
}.

(** The order stdpp lists a map in. *)
#[local] Instance exampleRange : GoMapRange := {
  mapRange := map_to_list;
  mapRange_perm := fun m => reflexivity (map_to_list m)
}.

Definition exampleTask (id : Z) (every : string) : db.Task :=
  {| ID := id; Path := "/srv/repo"; Every := every; AutoAdd := true;
     AutoPush := false; StaticMsg := "checkpoint"; ExcludePatterns := "" |}.

(** A world whose clock shows 1000, 1001, ... nanoseconds. *)
Definition exampleWorld (q : QueryResult) : World :=
  {| clock := fun n => 1000 + Z.of_nat n; nowCalls := 0; sqlite := q;
     tickerC := false; logged := []; goroutines := [] |}.

Definition exampleRunner (m : gmap Z taskState) : TaskRunner :=
  {| llmClient := {| llm.BaseURL := "https://llm.example/v1/"; llm.APIKey := "";
                     llm.Model := "m" |};
     stopCh := chanOpen; tasks := m; lastCheck := 0 |}.

(** A disk with one repository, enough of go-git to run the examples on.
    A path is absolute as it is; the git executable is not installed, so the
    diff is the list of staged files; [AddGlob(".")] stages every change;
    [RemoveGlob] is given the meaning [StageChanges] uses it for, taking a
    path out of the index and leaving the file as it is; a commit records its
    message and the staged paths; a push answers what the remote is set to
    answer. *)
Record ExampleDisk : Type := {
  repoAt : string;
  status : git.Status;
  history : list (string * list string);
  pushAnswer : option error
}.

Definition stageFile (fs : git.FileStatus) : git.FileStatus :=
  if git.isUnmodified (git.Worktree fs) then fs
  else {| git.Staging := match git.Worktree fs with
                         | git.Untracked => git.Added
                         | c => c
                         end;
          git.Worktree := git.Unmodified |}.

Definition unstageFile (fs : git.FileStatus) : git.FileStatus :=
  match git.Staging fs with
  | git.Unmodified => fs
  | git.Added => {| git.Staging := git.Untracked; git.Worktree := git.Untracked |}
  | c => {| git.Staging := git.Unmodified; git.Worktree := c |}
  end.

Definition staged (st : git.Status) : git.Status :=
  List.filter (fun e => negb (git.isUnmodified (git.Staging e.2))) st.

Definition exampleAddGlob (pattern : string) (d : ExampleDisk) : option error * ExampleDisk :=
  (None,
   {| repoAt := repoAt d;
      status := (fun e => (e.1, stageFile e.2)) <$> status d;
      history := history d; pushAnswer := pushAnswer d |}).

Definition exampleRemoveGlob (pattern : string) (d : ExampleDisk) : option error * ExampleDisk :=
  (None,
   {| repoAt := repoAt d;
      status := (fun e => if String.eqb e.1 pattern then (e.1, unstageFile e.2) else e)
                <$> status d;
      history := history d; pushAnswer := pushAnswer d |}).

Definition exampleCommit (message : string) (d : ExampleDisk) : option error * ExampleDisk :=
  (None,
   {| repoAt := repoAt d;
      status := List.filter (fun e => git.isUnmodified (git.Staging e.2)) (status d);
      history := history d ++ [(message, (staged (status d)).*1)];
      pushAnswer := pushAnswer d |}).

#[local] Instance exampleGit : git.GoGit := {
  git.Disk := ExampleDisk;
  git.Repository := unit;
  git.WorktreeHandle := unit;
  git.filepath_Abs p _ := inr p;
  git.PlainOpen p d :=
    if String.eqb p (repoAt d) then inr tt
    else inl (errorString "repository does not exist");
  git.repo_Worktree _ _ := inr tt;
  git.wt_Status _ d := inr (status d);
  git.wt_AddGlob _ := exampleAddGlob;
  git.wt_RemoveGlob _ := exampleRemoveGlob;
  git.wt_Commit _ message _ := exampleCommit message;
  git.repo_Head _ _ := inr "refs/heads/main";
  git.repo_Push _ _ d := (pushAnswer d, d);
  git.exec_LookPath _ _ := inl (errorString "executable file not found in $PATH");
  git.exec_Output _ _ _ := inl (errorString "executable file not found in $PATH")
}.

(** Patterns without a meta character: such a pattern matches itself. *)
#[local] Instance exampleGlob : git.GlobPkg := {
  git.Glob := string;
  git.Compile p := inr p;
  git.Match g filePath := String.eqb g filePath
}.

(** A transport on which every request gets the same answer. *)
Definition exampleTransport (answer : error + llm.Response) : llm.Transport :=
  {| llm.json_Marshal _ := inr "{}";
     llm.http_NewRequest _ _ := inr tt;
     llm.client_Do _ := answer |}.

Definition exampleEnv (d : ExampleDisk) (answer : error + llm.Response) : Env ExampleDisk :=
  {| disk := d; transport := exampleTransport answer;
     clockE := fun n => 1000 + Z.of_nat n; nowCallsE := 0; loggedE := []; calls := [] |}.

(** A repository whose one change is in a file that the task excludes. *)
Definition exampleSecretDisk : ExampleDisk :=
  {| repoAt := "/srv/repo";
     status := [("secret.env",
                 {| git.Staging := git.Unmodified; git.Worktree := git.Modified |})];
     history := [];
     pushAnswer := Some NoErrAlreadyUpToDate |}.

Definition exampleSecretTask : Task :=
  {| ID := 1; Path := "/srv/repo"; Every := "5m"; AutoAdd := true; AutoPush := true;
     StaticMsg := "checkpoint"; ExcludePatterns := "*.log, secret.env" |}.

(** A repository with nothing to commit. *)
Definition exampleCleanDisk : ExampleDisk :=
  {| repoAt := "/srv/repo"; status := []; history := []; pushAnswer := None |}.

(** A runner whose client has a key, and an answer of the endpoint. *)
Definition exampleKeyed : TaskRunner :=
  {| llmClient := {| llm.BaseURL := "https://llm.example/v1/"; llm.APIKey := "k";
                     llm.Model := "m" |};
     stopCh := chanOpen; tasks := ∅; lastCheck := 0 |}.

Definition exampleAnswer : error + llm.Response :=
  inr {| llm.StatusCode := 200; llm.decodeError := inl (errorString "no error envelope");
         llm.decodeChat := inr ["  'feat: x'  "] |}.

Definition exampleEntry (id : Z) (every : string) (at_ : Time) : taskState :=
  {| task := exampleTask id every; nextRun := at_ |}.

(** A registry with the single record 1, and a runner that still has an
    entry for 7, long due. *)
Definition exampleRegistry : QueryResult := Rows [inr (exampleTask 1 "5m")] None.

(** A registry that cannot be read, and one with two records, the second
    with an interval that does not parse. *)
Definition exampleLocked : QueryResult := QueryError (errorString "database is locked").

Definition exampleRecords : list Task := [exampleTask 1 "5m"; exampleTask 2 "soon"].

Definition exampleStale : TaskRunner :=
  exampleRunner (<[1 := exampleEntry 1 "5m" 77]> (<[7 := exampleEntry 7 "1m" 5]> ∅)).

Definition exampleManager : @git.RepoManager exampleGit :=
  {| git.path := "/srv/repo"; git.repo := tt |}.

(** A world whose clock is twenty seconds on. *)
Definition exampleLateWorld (q : QueryResult) : World :=
  {| clock := fun n => 20 * Second + Z.of_nat n; nowCalls := 0; sqlite := q;
     tickerC := false; logged := []; goroutines := [] |}.

(** A repository with one change in the index, and a task that neither
    stages nor pushes. *)
Definition exampleStagedDisk : ExampleDisk :=
  {| repoAt := "/srv/repo";
     status := [("main.go",
                 {| git.Staging := git.Modified; git.Worktree := git.Unmodified |})];
     history := [];
     pushAnswer := None |}.

Definition exampleManualTask : Task :=
  {| ID := 2; Path := "/srv/repo"; Every := "5m"; AutoAdd := false; AutoPush := false;
     StaticMsg := "checkpoint"; ExcludePatterns := "" |}.

(** The same git, but for an [AddGlob] that stages nothing. *)
Definition exampleInertGit : git.GoGit := {|
  git.Disk := ExampleDisk;
  git.Repository := unit;
  git.WorktreeHandle := unit;
  git.filepath_Abs p _ := inr p;
  git.PlainOpen p d :=
    if String.eqb p (repoAt d) then inr tt
    else inl (errorString "repository does not exist");
  git.repo_Worktree _ _ := inr tt;
  git.wt_Status _ d := inr (status d);
  git.wt_AddGlob _ _ d := (None, d);
  git.wt_RemoveGlob _ := exampleRemoveGlob;
  git.wt_Commit _ message _ := exampleCommit message;
  git.repo_Head _ _ := inr "refs/heads/main";
  git.repo_Push _ _ d := (pushAnswer d, d);
  git.exec_LookPath _ _ := inl (errorString "executable file not found in $PATH");
  git.exec_Output _ _ _ := inl (errorString "executable file not found in $PATH")
|}.

Definition exampleInertManager : @git.RepoManager exampleInertGit :=
  @git.Build_RepoManager exampleInertGit "/srv/repo" tt.

(** A host on which paths are absolute as they are and one repository
    exists; a connection on which every statement affects one row; a command
    line of [add]; and [fmt.Sscanf] on the argument the examples use. *)
Definition exampleHost : cmd.Host :=
  {| cmd.filepath_Abs p := inr p;
     cmd.filepath_Join a b := a +:+ "/" +:+ b;
     cmd.os_Stat_IsNotExist p := negb (String.eqb p "/srv/repo/.git") |}.

Definition exampleConn : Conn := fun _ => Executed 1 None.

Definition exampleAdd : cmd.AddContext :=
  {| cmd.Args := ["/srv/repo"]; cmd.no_autoadd := false; cmd.autopush := true;
     cmd.every := Some "5m"; cmd.message := "checkpoint"; cmd.exclude := "*.log" |}.

Definition exampleAdded : Task :=
  {| ID := 0; Path := "/srv/repo"; Every := "5m"; AutoAdd := true; AutoPush := true;
     StaticMsg := "checkpoint"; ExcludePatterns := "*.log" |}.

Definition exampleSscanf (arg : string) : error + Z :=
  if String.eqb arg "3" then inr 3 else inl (errorString "expected integer").

(** A client whose base URL has no slash at its end, and the request the
    client of [exampleKeyed] sends. *)
Definition exampleBare : llm.Client :=
  {| llm.BaseURL := "https://llm.example/v1"; llm.APIKey := "k"; llm.Model := "m" |}.

Definition exampleRequest : llm.Request :=
  {| llm.URL := "https://llm.example/v1/chat/completions"; llm.Body := "{}";
     llm.ContentType := "application/json"; llm.Authorization := "Bearer k" |}.

(** * The vocabulary of the statements *)

(** What a step of the scheduler leaves alone in the world: the clock and
    the registry, and what it only extends: the calls of [time.Now()], the
    log and the goroutines. *)
Record extends (w w' : World) : Prop := {
  ext_clock : clock w' = clock w;
  ext_sqlite : sqlite w' = sqlite w;
  ext_now : (nowCalls w <= nowCalls w')%nat;
  ext_logged : exists l, logged w' = logged w ++ l;
  ext_go : exists l, goroutines w' = goroutines w ++ l
}.

Section Vocabulary.
Context `{!TimePkg} `{!GoMapRange}.

(** The two loops of [loadTasks] and the loop of [processTasks], from a
    given state. *)
Definition records_loop (records : list Task) (st : gmap Z bool * TaskRunner * World) :=
  fold_left (fun st t => loadTasks_record t st) records st.

Definition remove_loop (ids : gmap Z bool) (l : list (Z * taskState))
    (st : TaskRunner * World) : TaskRunner * World :=
  fold_left (fun st e => loadTasks_remove ids (fst e) st) l st.

Definition due (now : Time) (e : Z * taskState) : bool := After now (nextRun e.2).

(** What the body leaves at the key of a due entry. *)
Definition rescheduled (now : Time) (s : taskState) : option taskState :=
  match ParseDuration (Every (task s)) with
  | inl _ => None
  | inr duration => Some {| task := task s; nextRun := Add now duration |}
  end.

Definition entries_loop (now : Time) (l : list (Z * taskState))
    (st : TaskRunner * World) : TaskRunner * World :=
  fold_left (fun st e => processTasks_entry now e st) l st.

(** Ticks of the loop, the registry answering [q] at each. *)
Definition ticks (qs : list QueryResult) (st : TaskRunner * World) : TaskRunner * World :=
  fold_left (fun st q => tick st.1 (set_sqlite q st.2)) qs st.

End Vocabulary.

(** Every entry sits at the ID of its record. [NewTaskRunner] starts with it
    and [loadTasks] and [processTasks] keep it. *)
Definition keys_agree (m : gmap Z taskState) : Prop :=
  forall id s, m !! id = Some s -> ID (task s) = id.

(** The goroutines started between two worlds, none of them for [id]. *)
Definition no_dispatch_of (id : Z) (w w' : World) : Prop :=
  exists l, goroutines w' = goroutines w ++ l /\ forall t, t ∈ l -> ID t <> id.

(** A registry answer in which no record has this ID. *)
Definition silent_on (id : Z) (q : QueryResult) : Prop :=
  forall records, GetAllTasks q = inr records -> id ∉ ID <$> records.

(** The calls put on record between two environments all satisfy [P]. *)
Definition emitted {Disk} (P : Call -> Prop) (e e' : Env Disk) : Prop :=
  exists l, calls e' = calls e ++ l /\ Forall P l.

(** The calls a computation puts on record all satisfy [P]. *)
Definition emits {Disk X A} (P : Call -> Prop) (m : @ST Disk X A) : Prop :=
  forall e, emitted P e (m e).2.

(** A computation that leaves the environment as it is and whose result
    depends on the disk alone. *)
Definition readonly {Disk X A} (m : @ST Disk X A) : Prop :=
  forall e, (m e).2 = e /\ forall e', disk e' = disk e -> (m e').1 = (m e).1.

Definition isStaging (c : Call) : Prop :=
  match c with CallAddGlob _ | CallRemoveGlob _ => True | _ => False end.

Definition isHTTP (c : Call) : Prop :=
  match c with CallHTTP _ => True | _ => False end.

(** A call that is no commit, or the commit with this message. *)
Definition commitsOnly (message : string) (c : Call) : Prop :=
  match c with CallCommit m => m = message | _ => True end.

Definition noCommit (c : Call) : Prop :=
  match c with CallCommit _ => False | _ => True end.

(** No entry has an interval that parses to a negative duration. *)
Definition nonnegative_intervals `{!TimePkg} (m : gmap Z taskState) : Prop :=
  forall id s d,
    m !! id = Some s -> ParseDuration (Every (task s)) = inr d -> 0 <= d.


Definition noPush (c : Call) : Prop :=
  match c with CallPush _ => False | _ => True end.

(** A call of [StageChanges] for these patterns: staging everything, or
    taking out a path that one of the patterns, trimmed, matches. *)
Definition stagesFor `{!git.GlobPkg} (excludePatterns : string) (c : Call) : Prop :=
  match c with
  | CallAddGlob pattern => pattern = "."
  | CallRemoveGlob filePath =>
      exists pattern g,
        pattern ∈ gostrings.Split excludePatterns ","%char
        /\ git.Compile (gostrings.TrimSpace pattern) = inr g
        /\ git.Match g filePath = true
  | _ => False
  end.

Definition isPush (c : Call) : Prop :=
  match c with CallPush _ => True | _ => False end.

(** The calls of [Commit] with this message. *)
Definition commitCall (message : string) (c : Call) : Prop :=
  c = CallAddGlob "." \/ c = CallCommit message.

(** * Properties *)

(** A decidable, closed proposition, settled by evaluating its decision. *)
Ltac by_computation := refine (bool_decide_unpack _ _); vm_compute; exact I.

Section SchedulerFacts.
Context `{!TimePkg} `{!GoMapRange}.

Lemma extends_refl w : extends w w.
Proof.
  split; try done; try lia; exists []; by rewrite app_nil_r.
Qed.

Lemma extends_trans w1 w2 w3 : extends w1 w2 -> extends w2 w3 -> extends w1 w3.
Proof.
  intros [c1 s1 n1 [l1 L1] [g1 G1]] [c2 s2 n2 [l2 L2] [g2 G2]].
  split.
  - congruence.
  - congruence.
  - lia.
  - exists (l1 ++ l2). rewrite L2, L1. by rewrite app_assoc.
  - exists (g1 ++ g2). rewrite G2, G1. by rewrite app_assoc.
Qed.

Lemma extends_log e w : extends w (log e w).
Proof. split; simpl; try done; try lia; [by exists [e] | exists []; by rewrite app_nil_r]. Qed.

Lemma extends_now w : extends w (time_Now w).2.
Proof. split; simpl; try done; try lia; exists []; by rewrite app_nil_r. Qed.

Lemma extends_go t w : extends w (go_executeTask t w).
Proof. split; simpl; try done; try lia; [exists []; by rewrite app_nil_r | by exists [t]]. Qed.

Lemma extends_logged_elem e w w' : extends w w' -> e ∈ logged w -> e ∈ logged w'.
Proof. intros [_ _ _ [l ->] _] ?. apply elem_of_app. by left. Qed.

(** *** The first loop of [loadTasks] *)

Lemma loadTasks_record_other t ids r w id :
  id <> ID t ->
  tasks (loadTasks_record t (ids, r, w)).1.2 !! id = tasks r !! id.
Proof.
  intros Hne. unfold loadTasks_record.
  destruct (tasks r !! ID t) as [existing|]; simpl.
  - by rewrite lookup_insert_ne.
  - destruct (ParseDuration (Every t)) as [err|d]; simpl; [done|].
    by rewrite lookup_insert_ne.
Qed.

Lemma loadTasks_record_update t ids r w st :
  tasks r !! ID t = Some st ->
  tasks (loadTasks_record t (ids, r, w)).1.2 !! ID t
    = Some {| task := t; nextRun := nextRun st |}.
Proof.
  intros E. unfold loadTasks_record. rewrite E. simpl. by rewrite lookup_insert_eq.
Qed.

Lemma loadTasks_record_new t ids r w d :
  tasks r !! ID t = None -> ParseDuration (Every t) = inr d ->
  tasks (loadTasks_record t (ids, r, w)).1.2 !! ID t
    = Some {| task := t; nextRun := Add (clock w (nowCalls w)) d |}
  /\ nowCalls (loadTasks_record t (ids, r, w)).2 = S (nowCalls w).
Proof.
  intros E P. unfold loadTasks_record. rewrite E, P. simpl.
  by rewrite lookup_insert_eq.
Qed.

Lemma loadTasks_record_invalid t ids r w err :
  tasks r !! ID t = None -> ParseDuration (Every t) = inl err ->
  (loadTasks_record t (ids, r, w)).1.2 = r
  /\ logger.Printf "Warning: Invalid duration for task %d (%s): %v"
       [logger.D_ (ID t); logger.S_ (Path t); logger.V_ err]
     ∈ logged (loadTasks_record t (ids, r, w)).2.
Proof.
  intros E P. unfold loadTasks_record. rewrite E, P. simpl. split; [done|].
  apply elem_of_app. right. by apply list_elem_of_singleton.
Qed.

Lemma loadTasks_record_ids t ids r w id :
  default false ((loadTasks_record t (ids, r, w)).1.1 !! id)
  = default false (ids !! id) || bool_decide (id = ID t).
Proof.
  assert ((loadTasks_record t (ids, r, w)).1.1 = <[ID t := true]> ids) as ->.
  { unfold loadTasks_record.
    destruct (tasks r !! ID t); simpl; [done|].
    destruct (ParseDuration (Every t)); by simpl. }
  case_bool_decide as Hid.
  - subst. rewrite lookup_insert_eq. simpl. by rewrite orb_true_r.
  - rewrite lookup_insert_ne by done. by rewrite orb_false_r.
Qed.

Lemma loadTasks_record_extends t ids r w :
  extends w (loadTasks_record t (ids, r, w)).2.
Proof.
  unfold loadTasks_record.
  destruct (tasks r !! ID t); simpl; [apply extends_log|].
  destruct (ParseDuration (Every t)); simpl; [apply extends_log|].
  eapply extends_trans; [apply extends_now | apply extends_log].
Qed.

Lemma loadTasks_record_runner t ids r w :
  stopCh (loadTasks_record t (ids, r, w)).1.2 = stopCh r
  /\ lastCheck (loadTasks_record t (ids, r, w)).1.2 = lastCheck r
  /\ llmClient (loadTasks_record t (ids, r, w)).1.2 = llmClient r.
Proof.
  unfold loadTasks_record.
  destruct (tasks r !! ID t); simpl; [done|].
  destruct (ParseDuration (Every t)); by simpl.
Qed.

Lemma records_loop_cons t records st :
  records_loop (t :: records) st = records_loop records (loadTasks_record t st).
Proof. reflexivity. Qed.

Lemma records_loop_other records : forall ids r w id,
  id ∉ ID <$> records ->
  tasks (records_loop records (ids, r, w)).1.2 !! id = tasks r !! id.
Proof.
  induction records as [|t records IH]; intros ids r w id Hid; [done|].
  rewrite fmap_cons, not_elem_of_cons in Hid. destruct Hid as [Hne Hid].
  rewrite records_loop_cons.
  destruct (loadTasks_record t (ids, r, w)) as [[ids1 r1] w1] eqn:E.
  rewrite (IH ids1 r1 w1 id Hid).
  change r1 with (ids1, r1, w1).1.2. rewrite <- E.
  by apply loadTasks_record_other.
Qed.

Lemma records_loop_extends records : forall ids r w,
  extends w (records_loop records (ids, r, w)).2.
Proof.
  induction records as [|t records IH]; intros ids r w; [apply extends_refl|].
  rewrite records_loop_cons.
  destruct (loadTasks_record t (ids, r, w)) as [[ids1 r1] w1] eqn:E.
  eapply extends_trans; [|apply IH].
  change w1 with (ids1, r1, w1).2. rewrite <- E. apply loadTasks_record_extends.
Qed.

Lemma records_loop_runner records : forall ids r w,
  stopCh (records_loop records (ids, r, w)).1.2 = stopCh r
  /\ lastCheck (records_loop records (ids, r, w)).1.2 = lastCheck r
  /\ llmClient (records_loop records (ids, r, w)).1.2 = llmClient r.
Proof.
  induction records as [|t records IH]; intros ids r w; [done|].
  rewrite records_loop_cons.
  destruct (loadTasks_record t (ids, r, w)) as [[ids1 r1] w1] eqn:E.
  destruct (IH ids1 r1 w1) as (-> & -> & ->).
  change r1 with (ids1, r1, w1).1.2. rewrite <- E. apply loadTasks_record_runner.
Qed.

Lemma records_loop_ids records : forall ids r w id,
  default false ((records_loop records (ids, r, w)).1.1 !! id)
  = default false (ids !! id) || bool_decide (id ∈ ID <$> records).
Proof.
  induction records as [|t records IH]; intros ids r w id.
  - rewrite bool_decide_eq_false_2 by (rewrite fmap_nil; apply not_elem_of_nil).
    by rewrite orb_false_r.
  - rewrite records_loop_cons.
    destruct (loadTasks_record t (ids, r, w)) as [[ids1 r1] w1] eqn:E.
    rewrite IH.
    change ids1 with (ids1, r1, w1).1.1. rewrite <- E.
    rewrite loadTasks_record_ids. rewrite <- orb_assoc. f_equal.
    apply eq_true_iff_eq.
    rewrite fmap_cons, orb_true_iff, !bool_decide_eq_true, elem_of_cons. done.
Qed.

(** A record of a list without repeated IDs: what the first loop leaves at
    its key. *)
Lemma records_loop_update records : forall ids r w t st,
  NoDup (ID <$> records) -> t ∈ records ->
  tasks r !! ID t = Some st ->
  tasks (records_loop records (ids, r, w)).1.2 !! ID t
    = Some {| task := t; nextRun := nextRun st |}.
Proof.
  induction records as [|t0 records IH]; intros ids r w t st Hnd Hin Hst.
  { by apply elem_of_nil in Hin. }
  rewrite fmap_cons in Hnd. apply NoDup_cons in Hnd as [Hfresh Hnd].
  rewrite records_loop_cons.
  destruct (loadTasks_record t0 (ids, r, w)) as [[ids1 r1] w1] eqn:E.
  apply elem_of_cons in Hin as [->|Hin].
  - rewrite records_loop_other by done.
    change r1 with (ids1, r1, w1).1.2. rewrite <- E.
    by apply loadTasks_record_update.
  - apply (IH ids1 r1 w1 t st Hnd Hin).
    change r1 with (ids1, r1, w1).1.2. rewrite <- E.
    rewrite loadTasks_record_other; [done|].
    intros Heq. apply Hfresh. rewrite <- Heq. by apply list_elem_of_fmap_2.
Qed.

Lemma records_loop_new records : forall ids r w t d,
  NoDup (ID <$> records) -> t ∈ records ->
  tasks r !! ID t = None -> ParseDuration (Every t) = inr d ->
  exists n, (nowCalls w <= n < nowCalls (records_loop records (ids, r, w)).2)%nat
    /\ tasks (records_loop records (ids, r, w)).1.2 !! ID t
       = Some {| task := t; nextRun := Add (clock w n) d |}.
Proof.
  induction records as [|t0 records IH]; intros ids r w t d Hnd Hin Hst Hd.
  { by apply elem_of_nil in Hin. }
  rewrite fmap_cons in Hnd. apply NoDup_cons in Hnd as [Hfresh Hnd].
  rewrite records_loop_cons.
  pose proof (loadTasks_record_extends t0 ids r w) as Hext.
  destruct (loadTasks_record t0 (ids, r, w)) as [[ids1 r1] w1] eqn:E.
  apply elem_of_cons in Hin as [->|Hin].
  - exists (nowCalls w).
    destruct (loadTasks_record_new t0 ids r w d Hst Hd) as [Hl Hn].
    rewrite E in Hl, Hn. simpl in Hl, Hn.
    pose proof (ext_now _ _ (records_loop_extends records ids1 r1 w1)) as Hle.
    split; [lia|]. by rewrite records_loop_other.
  - destruct (IH ids1 r1 w1 t d Hnd Hin) as (n & Hn & Hl); [|done|].
    { change r1 with (ids1, r1, w1).1.2. rewrite <- E.
      rewrite loadTasks_record_other; [done|].
      intros Heq. apply Hfresh. rewrite <- Heq. by apply list_elem_of_fmap_2. }
    exists n. destruct Hext as [Hc _ Hle _ _]. simpl in Hc, Hle.
    split; [lia|]. by rewrite <- Hc.
Qed.

Lemma records_loop_invalid records : forall ids r w t err,
  NoDup (ID <$> records) -> t ∈ records ->
  tasks r !! ID t = None -> ParseDuration (Every t) = inl err ->
  tasks (records_loop records (ids, r, w)).1.2 !! ID t = None
  /\ logger.Printf "Warning: Invalid duration for task %d (%s): %v"
       [logger.D_ (ID t); logger.S_ (Path t); logger.V_ err]
     ∈ logged (records_loop records (ids, r, w)).2.
Proof.
  induction records as [|t0 records IH]; intros ids r w t err Hnd Hin Hst Hd.
  { by apply elem_of_nil in Hin. }
  rewrite fmap_cons in Hnd. apply NoDup_cons in Hnd as [Hfresh Hnd].
  rewrite records_loop_cons.
  destruct (loadTasks_record t0 (ids, r, w)) as [[ids1 r1] w1] eqn:E.
  apply elem_of_cons in Hin as [->|Hin].
  - destruct (loadTasks_record_invalid t0 ids r w err Hst Hd) as [Hr Hl].
    rewrite E in Hr, Hl. simpl in Hr, Hl. subst r1.
    split; [by rewrite records_loop_other|].
    eapply extends_logged_elem; [apply records_loop_extends|done].
  - apply (IH ids1 r1 w1 t err Hnd Hin); [|done].
    change r1 with (ids1, r1, w1).1.2. rewrite <- E.
    rewrite loadTasks_record_other; [done|].
    intros Heq. apply Hfresh. rewrite <- Heq. by apply list_elem_of_fmap_2.
Qed.

Lemma loadTasks_record_go t ids r w :
  goroutines (loadTasks_record t (ids, r, w)).2 = goroutines w.
Proof.
  unfold loadTasks_record.
  destruct (tasks r !! ID t); simpl; [done|].
  destruct (ParseDuration (Every t)); by simpl.
Qed.

Lemma records_loop_go records : forall ids r w,
  goroutines (records_loop records (ids, r, w)).2 = goroutines w.
Proof.
  induction records as [|t records IH]; intros ids r w; [done|].
  rewrite records_loop_cons.
  destruct (loadTasks_record t (ids, r, w)) as [[ids1 r1] w1] eqn:E.
  rewrite IH. change w1 with (ids1, r1, w1).2. rewrite <- E.
  apply loadTasks_record_go.
Qed.

(** *** The second loop of [loadTasks] *)

Lemma remove_loop_cons ids e l st :
  remove_loop ids (e :: l) st = remove_loop ids l (loadTasks_remove ids (fst e) st).
Proof. reflexivity. Qed.

Lemma loadTasks_remove_tasks ids k r w :
  tasks (loadTasks_remove ids k (r, w)).1
  = if default false (ids !! k) then tasks r else delete k (tasks r).
Proof. unfold loadTasks_remove. by destruct (default false (ids !! k)). Qed.

Lemma remove_loop_lookup ids l : forall r w id,
  tasks (remove_loop ids l (r, w)).1 !! id
  = if bool_decide (id ∈ l.*1) && negb (default false (ids !! id))
    then None else tasks r !! id.
Proof.
  induction l as [|[k s] l IH]; intros r w id.
  - rewrite bool_decide_eq_false_2 by (rewrite fmap_nil; apply not_elem_of_nil). done.
  - rewrite remove_loop_cons. change (fst (k, s)) with k.
    pose proof (loadTasks_remove_tasks ids k r w) as Ht.
    destruct (loadTasks_remove ids k (r, w)) as [r1 w1]. simpl in Ht.
    rewrite IH, Ht. rewrite fmap_cons. change (fst (k, s)) with k.
    destruct (decide (id = k)) as [->|Hne].
    + rewrite (bool_decide_eq_true_2 (k ∈ k :: l.*1)) by (apply elem_of_cons; by left).
      destruct (default false (ids !! k)); simpl.
      * by rewrite andb_false_r.
      * rewrite andb_true_r, lookup_delete_eq. by destruct (bool_decide _).
    + assert (bool_decide (id ∈ k :: l.*1) = bool_decide (id ∈ l.*1)) as ->.
      { apply bool_decide_ext. rewrite elem_of_cons. tauto. }
      destruct (default false (ids !! k)); [done|].
      by rewrite lookup_delete_ne.
Qed.

Lemma loadTasks_remove_frame ids k r w :
  extends w (loadTasks_remove ids k (r, w)).2
  /\ goroutines (loadTasks_remove ids k (r, w)).2 = goroutines w
  /\ nowCalls (loadTasks_remove ids k (r, w)).2 = nowCalls w
  /\ stopCh (loadTasks_remove ids k (r, w)).1 = stopCh r
  /\ lastCheck (loadTasks_remove ids k (r, w)).1 = lastCheck r
  /\ llmClient (loadTasks_remove ids k (r, w)).1 = llmClient r.
Proof.
  unfold loadTasks_remove.
  destruct (negb _); simpl; split_and!; try done;
    first [apply extends_log | apply extends_refl].
Qed.

Lemma remove_loop_frame ids l : forall r w,
  extends w (remove_loop ids l (r, w)).2
  /\ goroutines (remove_loop ids l (r, w)).2 = goroutines w
  /\ nowCalls (remove_loop ids l (r, w)).2 = nowCalls w
  /\ stopCh (remove_loop ids l (r, w)).1 = stopCh r
  /\ lastCheck (remove_loop ids l (r, w)).1 = lastCheck r
  /\ llmClient (remove_loop ids l (r, w)).1 = llmClient r.
Proof.
  induction l as [|[k s] l IH]; intros r w.
  - split_and!; try done. apply extends_refl.
  - rewrite remove_loop_cons. change (fst (k, s)) with k.
    destruct (loadTasks_remove_frame ids k r w) as (E1 & G1 & N1 & S1 & L1 & C1).
    destruct (loadTasks_remove ids k (r, w)) as [r1 w1]. simpl in *.
    destruct (IH r1 w1) as (E2 & G2 & N2 & S2 & L2 & C2).
    split_and!; try congruence. by eapply extends_trans.
Qed.

Lemma elem_of_mapRange_keys m id : id ∈ (mapRange m).*1 <-> is_Some (m !! id).
Proof.
  rewrite (mapRange_perm m). rewrite list_elem_of_fmap. split.
  - intros ([k s] & -> & Hin). apply elem_of_map_to_list in Hin. by exists s.
  - intros [s Hs]. exists (id, s). split; [done|]. by apply elem_of_map_to_list.
Qed.

Lemma NoDup_mapRange_keys m : NoDup (mapRange m).*1.
Proof. rewrite (mapRange_perm m). apply NoDup_fst_map_to_list. Qed.

Lemma elem_of_mapRange m id s : (id, s) ∈ mapRange m <-> m !! id = Some s.
Proof. rewrite (mapRange_perm m). apply elem_of_map_to_list. Qed.

(** *** [loadTasks] as a whole *)

(** The result of a load whose registry read succeeds. *)
Lemma loadTasks_ok r w records :
  GetAllTasks (sqlite w) = inr records ->
  exists r' w',
    loadTasks r w = (None, r', w')
    /\ (forall id, tasks r' !! id
          = if bool_decide (id ∈ ID <$> records)
            then tasks (records_loop records (∅, r, w)).1.2 !! id else None)
    /\ extends (records_loop records (∅, r, w)).2 w'
    /\ nowCalls w' = S (nowCalls (records_loop records (∅, r, w)).2)
    /\ goroutines w' = goroutines w
    /\ lastCheck r' = clock w (nowCalls (records_loop records (∅, r, w)).2)
    /\ stopCh r' = stopCh r /\ llmClient r' = llmClient r.
Proof.
  intros Hq. unfold loadTasks. rewrite Hq.
  fold (records_loop records (∅, r, w)).
  pose proof (records_loop_ids records ∅ r w) as Hids.
  pose proof (records_loop_extends records ∅ r w) as Hext.
  pose proof (records_loop_go records ∅ r w) as Hgo.
  pose proof (records_loop_runner records ∅ r w) as (Hs & Hl & Hc).
  destruct (records_loop records (∅, r, w)) as [[ids r1] w1]. simpl in *.
  fold (remove_loop ids (mapRange (tasks r1)) (r1, w1)).
  pose proof (remove_loop_lookup ids (mapRange (tasks r1)) r1 w1) as Hlk.
  destruct (remove_loop_frame ids (mapRange (tasks r1)) r1 w1)
    as (E2 & G2 & N2 & S2 & L2 & C2).
  destruct (remove_loop ids (mapRange (tasks r1)) (r1, w1)) as [r2 w2]. simpl in *.
  eexists _, _. split; [reflexivity|]. simpl.
  split_and!; try congruence.
  - intros id. rewrite Hlk, Hids. rewrite lookup_empty. simpl.
    destruct (bool_decide (id ∈ ID <$> records)); simpl.
    + by rewrite andb_false_r.
    + rewrite andb_true_r. clear Hids Hlk. case_bool_decide as Hin; [done|].
      rewrite elem_of_mapRange_keys in Hin.
      destruct (tasks r1 !! id) eqn:E; [|done]. exfalso. apply Hin. by eexists.
  - eapply extends_trans; [exact E2|].
    split; simpl; try done; try lia; exists []; by rewrite app_nil_r.
  - rewrite N2. by rewrite (ext_clock _ _ E2), (ext_clock _ _ Hext).
Qed.

(** *** The loop of [processTasks] *)

Lemma entries_loop_cons now e l st :
  entries_loop now (e :: l) st = entries_loop now l (processTasks_entry now e st).
Proof. reflexivity. Qed.

Lemma processTasks_entry_tasks now k s r w id :
  tasks (processTasks_entry now (k, s) (r, w)).1 !! id
  = if bool_decide (id = k) && due now (k, s) then rescheduled now s
    else tasks r !! id.
Proof.
  unfold processTasks_entry, due, rescheduled. simpl.
  destruct (After now (nextRun s)); [|by rewrite andb_false_r].
  rewrite andb_true_r.
  destruct (ParseDuration (Every (task s))) as [err|d]; simpl;
    case_bool_decide as Hk; subst.
  - by rewrite lookup_delete_eq.
  - by rewrite lookup_delete_ne.
  - by rewrite lookup_insert_eq.
  - by rewrite lookup_insert_ne.
Qed.

Lemma processTasks_entry_go now e r w :
  goroutines (processTasks_entry now e (r, w)).2
  = goroutines w ++ (if due now e then [task e.2] else []).
Proof.
  destruct e as [k s]. unfold processTasks_entry, due. simpl.
  destruct (After now (nextRun s)); [|by rewrite app_nil_r].
  by destruct (ParseDuration (Every (task s))).
Qed.

Lemma processTasks_entry_frame now e r w :
  extends w (processTasks_entry now e (r, w)).2
  /\ nowCalls (processTasks_entry now e (r, w)).2 = nowCalls w
  /\ stopCh (processTasks_entry now e (r, w)).1 = stopCh r
  /\ lastCheck (processTasks_entry now e (r, w)).1 = lastCheck r
  /\ llmClient (processTasks_entry now e (r, w)).1 = llmClient r.
Proof.
  destruct e as [k s]. unfold processTasks_entry.
  destruct (After now (nextRun s)); [|split_and!; try done; apply extends_refl].
  destruct (ParseDuration (Every (task s))); simpl; split_and!; try done.
  - eapply extends_trans; [apply extends_go | apply extends_log].
  - apply extends_go.
Qed.

Lemma processTasks_entry_logged now k s r w err :
  due now (k, s) = true -> ParseDuration (Every (task s)) = inl err ->
  logger.Printf "Error parsing duration for task %d: %v" [logger.D_ k; logger.V_ err]
  ∈ logged (processTasks_entry now (k, s) (r, w)).2.
Proof.
  unfold due, processTasks_entry. simpl. intros -> ->. simpl.
  apply elem_of_app. right. by apply list_elem_of_singleton.
Qed.

Lemma entries_loop_frame now l : forall r w,
  extends w (entries_loop now l (r, w)).2
  /\ nowCalls (entries_loop now l (r, w)).2 = nowCalls w
  /\ stopCh (entries_loop now l (r, w)).1 = stopCh r
  /\ lastCheck (entries_loop now l (r, w)).1 = lastCheck r
  /\ llmClient (entries_loop now l (r, w)).1 = llmClient r.
Proof.
  induction l as [|e l IH]; intros r w.
  - split_and!; try done. apply extends_refl.
  - rewrite entries_loop_cons.
    destruct (processTasks_entry_frame now e r w) as (E1 & N1 & S1 & L1 & C1).
    destruct (processTasks_entry now e (r, w)) as [r1 w1]. simpl in *.
    destruct (IH r1 w1) as (E2 & N2 & S2 & L2 & C2).
    split_and!; try congruence. by eapply extends_trans.
Qed.

Lemma entries_loop_go now l : forall r w,
  goroutines (entries_loop now l (r, w)).2
  = goroutines w ++ ((fun e => task e.2) <$> filter (fun e => due now e = true) l).
Proof.
  induction l as [|e l IH]; intros r w.
  - by rewrite app_nil_r.
  - rewrite entries_loop_cons.
    pose proof (processTasks_entry_go now e r w) as Hg.
    destruct (processTasks_entry now e (r, w)) as [r1 w1]. simpl in Hg.
    rewrite IH, Hg. rewrite filter_cons.
    destruct (decide (due now e = true)) as [Hd|Hd].
    + rewrite Hd. rewrite fmap_cons. by rewrite <- app_assoc.
    + apply not_true_is_false in Hd. rewrite Hd. by rewrite app_nil_r.
Qed.

Lemma entries_loop_other now l : forall r w id,
  id ∉ l.*1 -> tasks (entries_loop now l (r, w)).1 !! id = tasks r !! id.
Proof.
  induction l as [|[k s] l IH]; intros r w id Hid; [done|].
  rewrite fmap_cons, not_elem_of_cons in Hid. destruct Hid as [Hne Hid].
  rewrite entries_loop_cons.
  pose proof (processTasks_entry_tasks now k s r w id) as Ht.
  destruct (processTasks_entry now (k, s) (r, w)) as [r1 w1]. simpl in Ht.
  rewrite IH by done. rewrite Ht.
  rewrite bool_decide_eq_false_2; done.
Qed.

Lemma entries_loop_entry now l : forall r w k s,
  NoDup l.*1 -> (k, s) ∈ l ->
  tasks (entries_loop now l (r, w)).1 !! k
  = if due now (k, s) then rescheduled now s else tasks r !! k.
Proof.
  induction l as [|[k0 s0] l IH]; intros r w k s Hnd Hin.
  { by apply elem_of_nil in Hin. }
  rewrite fmap_cons in Hnd. apply NoDup_cons in Hnd as [Hfresh Hnd].
  rewrite entries_loop_cons.
  pose proof (processTasks_entry_tasks now k0 s0 r w k) as Ht.
  destruct (processTasks_entry now (k0, s0) (r, w)) as [r1 w1]. simpl in Ht.
  apply elem_of_cons in Hin as [Heq|Hin].
  - inversion Heq; subst. rewrite entries_loop_other by done.
    rewrite Ht. by rewrite bool_decide_eq_true_2.
  - rewrite (IH r1 w1 k s Hnd Hin). rewrite Ht.
    rewrite bool_decide_eq_false_2; [done|].
    intros ->. apply Hfresh. apply list_elem_of_fmap. by exists (k0, s).
Qed.

Lemma entries_loop_logged now l : forall r w k s err,
  (k, s) ∈ l -> due now (k, s) = true -> ParseDuration (Every (task s)) = inl err ->
  logger.Printf "Error parsing duration for task %d: %v" [logger.D_ k; logger.V_ err]
  ∈ logged (entries_loop now l (r, w)).2.
Proof.
  induction l as [|e l IH]; intros r w k s err Hin Hd Hp.
  { by apply elem_of_nil in Hin. }
  rewrite entries_loop_cons.
  apply elem_of_cons in Hin as [<-|Hin].
  - pose proof (processTasks_entry_logged now k s r w err Hd Hp) as Hl.
    destruct (processTasks_entry now (k, s) (r, w)) as [r1 w1]. simpl in Hl.
    eapply extends_logged_elem; [|exact Hl].
    apply (entries_loop_frame now l r1 w1).
  - destruct (processTasks_entry now e (r, w)) as [r1 w1]. by eapply IH.
Qed.

(** *** [processTasks] as a whole *)

Lemma processTasks_spec r w :
  let now := clock w (nowCalls w) in
  let r' := (processTasks r w).1 in
  let w' := (processTasks r w).2 in
  (forall id, tasks r' !! id
     = match tasks r !! id with
       | Some s => if due now (id, s) then rescheduled now s else Some s
       | None => None
       end)
  /\ goroutines w'
     = goroutines w ++ ((fun e => task e.2) <$> filter (fun e => due now e = true)
                                                   (mapRange (tasks r)))
  /\ (forall id s err, tasks r !! id = Some s -> due now (id, s) = true ->
        ParseDuration (Every (task s)) = inl err ->
        logger.Printf "Error parsing duration for task %d: %v"
          [logger.D_ id; logger.V_ err] ∈ logged w')
  /\ extends w w' /\ nowCalls w' = S (nowCalls w)
  /\ stopCh r' = stopCh r /\ lastCheck r' = lastCheck r /\ llmClient r' = llmClient r.
Proof.
  intros now r' w'. subst r' w'. unfold processTasks. simpl.
  fold now.
  set (w1 := {| clock := clock w; nowCalls := S (nowCalls w); sqlite := sqlite w; tickerC := tickerC w;
                logged := logged w; goroutines := goroutines w |}).
  fold (entries_loop now (mapRange (tasks r)) (r, w1)).
  destruct (entries_loop_frame now (mapRange (tasks r)) r w1) as (E & N & S1 & L & C).
  split_and!; try done.
  - intros id. destruct (tasks r !! id) as [s|] eqn:Hs.
    + rewrite (entries_loop_entry now _ r w1 id s); [by rewrite Hs| |].
      * apply NoDup_mapRange_keys.
      * by apply elem_of_mapRange.
    + rewrite entries_loop_other; [done|].
      rewrite elem_of_mapRange_keys. rewrite Hs. by intros [? ?].
  - by rewrite entries_loop_go.
  - intros id s err Hs Hd Hp.
    eapply entries_loop_logged; [|done|done]. by apply elem_of_mapRange.
  - eapply extends_trans; [|exact E]. apply (extends_now w).
Qed.

End SchedulerFacts.

(** ** Reconciliation: [loadTasks] *)

Section Reconciliation.
Context `{!TimePkg} `{!GoMapRange}.

(** C6. If the registry read fails, [loadTasks] returns that error and
    leaves the runner, with its live schedule, and the world exactly as
    they were: no entry is added, changed or removed. *)
Theorem loadTasks_read_error_changes_nothing (r : TaskRunner) (w : World) (err : error) :
  GetAllTasks (sqlite w) = inl err ->
  loadTasks r w = (Some err, r, w).
Proof. intros Hq. unfold loadTasks. by rewrite Hq. Qed.

(** C3. A record with no live entry, in a read whose records have
    distinct IDs: if its interval parses, the load leaves an entry for it
    whose [nextRun] is a reading of the clock taken during the load plus the
    interval (the last reading of the load is the one kept in [lastCheck]);
    if not, the warning is logged and no entry is left. Either way the load
    completes without an error. *)
Theorem loadTasks_new_record (r : TaskRunner) (w : World) (records : list Task) (t : Task) :
  GetAllTasks (sqlite w) = inr records ->
  NoDup (ID <$> records) ->
  t ∈ records ->
  tasks r !! ID t = None ->
  exists r' w',
    loadTasks r w = (None, r', w')
    /\ lastCheck r' = clock w (Nat.pred (nowCalls w'))
    /\ match ParseDuration (Every t) with
       | inr duration =>
           exists n, (nowCalls w <= n < nowCalls w')%nat
             /\ tasks r' !! ID t
                = Some {| task := t; nextRun := Add (clock w n) duration |}
       | inl err =>
           tasks r' !! ID t = None
           /\ logger.Printf "Warning: Invalid duration for task %d (%s): %v"
                [logger.D_ (ID t); logger.S_ (Path t); logger.V_ err] ∈ logged w'
       end.
Proof.
  intros Hq Hnd Hin Hnone.
  destruct (loadTasks_ok r w records Hq)
    as (r' & w' & Hload & Hlk & Hext & Hnow & _ & Hlast & _).
  exists r', w'. split; [done|].
  split; [by rewrite Hnow|].
  assert (bool_decide (ID t ∈ ID <$> records) = true) as Hmem.
  { apply bool_decide_eq_true. by apply list_elem_of_fmap_2. }
  destruct (ParseDuration (Every t)) as [err|d] eqn:Hp.
  - destruct (records_loop_invalid records ∅ r w t err Hnd Hin Hnone Hp) as [Hl Hlog].
    split.
    + by rewrite Hlk, Hmem.
    + by eapply extends_logged_elem.
  - destruct (records_loop_new records ∅ r w t d Hnd Hin Hnone Hp) as (n & Hn & Hl).
    exists n. split; [lia|]. by rewrite Hlk, Hmem.
Qed.

(** C4. A record whose ID has a live entry, in a read whose records have
    distinct IDs: the load puts the record into the entry and keeps the
    entry's [nextRun]. The interval of the new record is used when
    [processTasks] next finds the entry due and advances [nextRun]; until
    then the entry stays as the load left it. *)
Theorem loadTasks_existing_record (r : TaskRunner) (w : World) (records : list Task)
    (t : Task) (st : taskState) :
  GetAllTasks (sqlite w) = inr records ->
  NoDup (ID <$> records) ->
  t ∈ records ->
  tasks r !! ID t = Some st ->
  exists r' w',
    loadTasks r w = (None, r', w')
    /\ tasks r' !! ID t = Some {| task := t; nextRun := nextRun st |}
    /\ forall w2,
         tasks (processTasks r' w2).1 !! ID t
         = if After (clock w2 (nowCalls w2)) (nextRun st) then
             match ParseDuration (Every t) with
             | inr duration =>
                 Some {| task := t; nextRun := Add (clock w2 (nowCalls w2)) duration |}
             | inl _ => None
             end
           else Some {| task := t; nextRun := nextRun st |}.
Proof.
  intros Hq Hnd Hin Hst.
  destruct (loadTasks_ok r w records Hq) as (r' & w' & Hload & Hlk & _).
  assert (tasks r' !! ID t = Some {| task := t; nextRun := nextRun st |}) as Hnew.
  { rewrite Hlk. rewrite bool_decide_eq_true_2 by (by apply list_elem_of_fmap_2).
    by apply records_loop_update. }
  exists r', w'. split_and!; [done|done|].
  intros w2. destruct (processTasks_spec r' w2) as (Hp & _).
  rewrite Hp, Hnew. done.
Qed.

End Reconciliation.

(** C6 at a registry whose query fails. *)
Lemma loadTasks_read_error_changes_nothing_witness :
  loadTasks exampleStale (exampleWorld exampleLocked)
  = (Some (wrapError "failed to query tasks: " (errorString "database is locked")),
     exampleStale, exampleWorld exampleLocked).
Proof.
  apply (loadTasks_read_error_changes_nothing exampleStale (exampleWorld exampleLocked)
           (wrapError "failed to query tasks: " (errorString "database is locked"))).
  reflexivity.
Defined.

(** C3 at a registry with a record whose interval parses and one whose
    interval does not. *)
Lemma loadTasks_new_record_witness :
  (exists r' w',
     loadTasks (exampleRunner ∅) (exampleWorld (Rows (inr <$> exampleRecords) None))
     = (None, r', w')
     /\ lastCheck r' = 1000 + Z.of_nat (Nat.pred (nowCalls w'))
     /\ exists n,
          (0 <= n < nowCalls w')%nat
          /\ tasks r' !! 1
             = Some {| task := exampleTask 1 "5m";
                       nextRun := Add (1000 + Z.of_nat n) (5 * Minute) |})
  /\ (exists r' w',
        loadTasks (exampleRunner ∅) (exampleWorld (Rows (inr <$> exampleRecords) None))
        = (None, r', w')
        /\ lastCheck r' = 1000 + Z.of_nat (Nat.pred (nowCalls w'))
        /\ tasks r' !! 2 = None
        /\ logger.Printf "Warning: Invalid duration for task %d (%s): %v"
             [logger.D_ 2; logger.S_ "/srv/repo";
              logger.V_ (errorString "time: invalid duration soon")] ∈ logged w').
Proof.
  assert (NoDup (ID <$> exampleRecords)) as Hnd.
  { by_computation. }
  assert (exampleTask 1 "5m" ∈ exampleRecords) as Hin1.
  { apply elem_of_cons. by left. }
  assert (exampleTask 2 "soon" ∈ exampleRecords) as Hin2.
  { apply elem_of_cons. right. apply elem_of_cons. by left. }
  split.
  - exact (loadTasks_new_record (exampleRunner ∅)
             (exampleWorld (Rows (inr <$> exampleRecords) None))
             exampleRecords (exampleTask 1 "5m") eq_refl Hnd Hin1 eq_refl).
  - exact (loadTasks_new_record (exampleRunner ∅)
             (exampleWorld (Rows (inr <$> exampleRecords) None))
             exampleRecords (exampleTask 2 "soon") eq_refl Hnd Hin2 eq_refl).
Defined.

(** C4 at a registry whose record 1 now says one minute, while the entry was
    made with five and is due at 77. *)
Lemma loadTasks_existing_record_witness :
  exists r' w',
    loadTasks exampleStale (exampleWorld (Rows [inr (exampleTask 1 "1m")] None))
    = (None, r', w')
    /\ tasks r' !! 1 = Some {| task := exampleTask 1 "1m"; nextRun := 77 |}
    /\ forall w2,
         tasks (processTasks r' w2).1 !! 1
         = if After (clock w2 (nowCalls w2)) 77 then
             Some {| task := exampleTask 1 "1m";
                     nextRun := Add (clock w2 (nowCalls w2)) Minute |}
           else Some {| task := exampleTask 1 "1m"; nextRun := 77 |}.
Proof.
  assert (NoDup (ID <$> [exampleTask 1 "1m"])) as Hnd.
  { by_computation. }
  assert (exampleTask 1 "1m" ∈ [exampleTask 1 "1m"]) as Hin.
  { apply elem_of_cons. by left. }
  exact (loadTasks_existing_record exampleStale
           (exampleWorld (Rows [inr (exampleTask 1 "1m")] None))
           [exampleTask 1 "1m"] (exampleTask 1 "1m") (exampleEntry 1 "5m" 77)
           eq_refl Hnd Hin eq_refl).
Defined.

(** ** Dispatch: [processTasks] *)

Section Dispatch.
Context `{!TimePkg} `{!GoMapRange}.

Lemma no_dispatch_of_refl id w w' :
  goroutines w' = goroutines w -> no_dispatch_of id w w'.
Proof. intros E. exists []. split; [by rewrite app_nil_r|]. by intros t Ht%elem_of_nil. Qed.

Lemma no_dispatch_of_trans id w1 w2 w3 :
  no_dispatch_of id w1 w2 -> no_dispatch_of id w2 w3 -> no_dispatch_of id w1 w3.
Proof.
  intros (l1 & E1 & H1) (l2 & E2 & H2). exists (l1 ++ l2). split.
  - by rewrite E2, E1, app_assoc.
  - intros t [Ht|Ht]%elem_of_app; auto.
Qed.

Lemma keys_agree_empty : keys_agree ∅.
Proof. intros id s Hs. by rewrite lookup_empty in Hs. Qed.

Lemma NewTaskRunner_keys_agree c w : keys_agree (tasks (NewTaskRunner c w).1).
Proof. apply keys_agree_empty. Qed.

Lemma keys_agree_insert m id s :
  ID (task s) = id -> keys_agree m -> keys_agree (<[id := s]> m).
Proof.
  intros Hid Hk k s'. destruct (decide (k = id)) as [->|Hne].
  - rewrite lookup_insert_eq. by intros [= <-].
  - rewrite lookup_insert_ne by done. apply Hk.
Qed.

Lemma loadTasks_record_keys_agree t ids r w :
  keys_agree (tasks r) -> keys_agree (tasks (loadTasks_record t (ids, r, w)).1.2).
Proof.
  intros Hk id s. destruct (decide (id = ID t)) as [->|Hne].
  - destruct (tasks r !! ID t) as [st|] eqn:Hst.
    + rewrite (loadTasks_record_update t ids r w st Hst). by intros [= <-].
    + destruct (ParseDuration (Every t)) as [err|d] eqn:Hp.
      * destruct (loadTasks_record_invalid t ids r w err Hst Hp) as [-> _].
        by rewrite Hst.
      * destruct (loadTasks_record_new t ids r w d Hst Hp) as [-> _]. by intros [= <-].
  - rewrite loadTasks_record_other by done. apply Hk.
Qed.

Lemma records_loop_keys_agree records : forall ids r w,
  keys_agree (tasks r) -> keys_agree (tasks (records_loop records (ids, r, w)).1.2).
Proof.
  induction records as [|t records IH]; intros ids r w Hk; [done|].
  rewrite records_loop_cons.
  pose proof (loadTasks_record_keys_agree t ids r w Hk) as Hk1.
  destruct (loadTasks_record t (ids, r, w)) as [[ids1 r1] w1]. by apply IH.
Qed.

(** The two outcomes of a load. *)
Lemma loadTasks_cases r w :
  (exists err, GetAllTasks (sqlite w) = inl err /\ loadTasks r w = (Some err, r, w))
  \/ (exists records r' w',
        GetAllTasks (sqlite w) = inr records
        /\ loadTasks r w = (None, r', w')
        /\ (forall id, tasks r' !! id
              = if bool_decide (id ∈ ID <$> records)
                then tasks (records_loop records (∅, r, w)).1.2 !! id else None)
        /\ goroutines w' = goroutines w
        /\ stopCh r' = stopCh r).
Proof.
  destruct (GetAllTasks (sqlite w)) as [err|records] eqn:Hq.
  - left. exists err. split; [done|]. unfold loadTasks. by rewrite Hq.
  - right. destruct (loadTasks_ok r w records Hq)
      as (r' & w' & Hload & Hlk & _ & _ & Hgo & _ & Hstop & _).
    by exists records, r', w'.
Qed.

Lemma loadTasks_absent r w id :
  keys_agree (tasks r) -> tasks r !! id = None -> silent_on id (sqlite w) ->
  keys_agree (tasks (loadTasks r w).1.2)
  /\ tasks (loadTasks r w).1.2 !! id = None
  /\ goroutines (loadTasks r w).2 = goroutines w
  /\ stopCh (loadTasks r w).1.2 = stopCh r.
Proof.
  intros Hk Hnone Hsilent.
  destruct (loadTasks_cases r w)
    as [(err & Hq & ->)|(records & r' & w' & Hq & -> & Hlk & Hgo & Hstop)]; simpl.
  - done.
  - split_and!; try done.
    + intros k s. rewrite Hlk. case_bool_decide; [|done].
      by apply records_loop_keys_agree.
    + rewrite Hlk. rewrite bool_decide_eq_false_2; [done|]. by apply Hsilent.
Qed.

Lemma checkForChanges_absent r w id :
  keys_agree (tasks r) -> tasks r !! id = None -> silent_on id (sqlite w) ->
  keys_agree (tasks (checkForChanges r w).1.2)
  /\ tasks (checkForChanges r w).1.2 !! id = None
  /\ goroutines (checkForChanges r w).2 = goroutines w
  /\ stopCh (checkForChanges r w).1.2 = stopCh r.
Proof.
  intros Hk Hnone Hsilent. unfold checkForChanges. simpl.
  destruct (_ <? _); [done|].
  match goal with |- context [loadTasks r ?w1] =>
    destruct (loadTasks_absent r w1 id Hk Hnone Hsilent) as (Hk1 & Hn1 & Hg1 & Hs1)
  end.
  done.
Qed.

Lemma processTasks_keys_agree r w :
  keys_agree (tasks r) -> keys_agree (tasks (processTasks r w).1).
Proof.
  intros Hk id s. destruct (processTasks_spec r w) as (Hp & _). rewrite Hp.
  destruct (tasks r !! id) as [s0|] eqn:Hs0; [|done].
  destruct (due _ _); [|intros [= <-]; by apply Hk].
  unfold rescheduled. destruct (ParseDuration _); [done|].
  intros [= <-]. simpl. by apply Hk.
Qed.

Lemma processTasks_absent r w id :
  keys_agree (tasks r) -> tasks r !! id = None ->
  tasks (processTasks r w).1 !! id = None
  /\ no_dispatch_of id w (processTasks r w).2.
Proof.
  intros Hk Hnone. destruct (processTasks_spec r w) as (Hp & Hgo & _).
  split; [by rewrite Hp, Hnone|].
  eexists. split; [exact Hgo|].
  intros t ([k s] & -> & [_ Hin]%list_elem_of_filter)%list_elem_of_fmap.
  apply elem_of_mapRange in Hin. simpl.
  rewrite (Hk k s Hin). intros ->. congruence.
Qed.

Lemma tick_absent r w id :
  keys_agree (tasks r) -> tasks r !! id = None -> silent_on id (sqlite w) ->
  keys_agree (tasks (tick r w).1)
  /\ tasks (tick r w).1 !! id = None
  /\ no_dispatch_of id w (tick r w).2.
Proof.
  intros Hk Hnone Hsilent. unfold tick.
  destruct (checkForChanges_absent r w id Hk Hnone Hsilent) as (Hk1 & Hn1 & Hg1 & _).
  destruct (checkForChanges r w) as [[err r1] w1]. simpl in *.
  set (w2 := match err with Some e => _ | None => w1 end).
  assert (goroutines w2 = goroutines w) as Hg2.
  { subst w2. by destruct err. }
  destruct (processTasks_absent r1 w2 id Hk1 Hn1) as [Hn2 Hd2].
  split_and!; [by apply processTasks_keys_agree|done|].
  eapply no_dispatch_of_trans; [by apply no_dispatch_of_refl|exact Hd2].
Qed.

Lemma ticks_absent qs : forall r w id,
  keys_agree (tasks r) -> tasks r !! id = None -> Forall (silent_on id) qs ->
  no_dispatch_of id w (ticks qs (r, w)).2.
Proof.
  induction qs as [|q qs IH]; intros r w id Hk Hnone Hqs.
  - by apply no_dispatch_of_refl.
  - apply Forall_cons in Hqs as [Hq Hqs].
    change (ticks (q :: qs) (r, w)) with (ticks qs (tick r (set_sqlite q w))).
    destruct (tick_absent r (set_sqlite q w) id Hk Hnone Hq) as (Hk1 & Hn1 & Hd1).
    destruct (tick r (set_sqlite q w)) as [r1 w1]. simpl in *.
    eapply no_dispatch_of_trans; [exact Hd1|]. by apply IH.
Qed.

(** C5. After a load whose registry read succeeds, no ID that is absent
    from the records has an entry in the live schedule, and neither the rest
    of this tick nor any later tick starts an execution for that ID, as long
    as the registry keeps returning no record with it. *)
Theorem loadTasks_removes_absent (r : TaskRunner) (w : World) (records : list Task) (id : Z) :
  GetAllTasks (sqlite w) = inr records ->
  keys_agree (tasks r) ->
  id ∉ ID <$> records ->
  exists r' w',
    loadTasks r w = (None, r', w')
    /\ tasks r' !! id = None
    /\ no_dispatch_of id w w'
    /\ forall qs, Forall (silent_on id) qs ->
         no_dispatch_of id w' (ticks qs (r', w')).2
         /\ no_dispatch_of id w' (ticks qs (processTasks r' w')).2.
Proof.
  intros Hq Hk Hid.
  destruct (loadTasks_ok r w records Hq)
    as (r' & w' & Hload & Hlk & _ & _ & Hgo & _).
  assert (tasks r' !! id = None) as Hnone.
  { rewrite Hlk. by rewrite bool_decide_eq_false_2. }
  assert (keys_agree (tasks r')) as Hk'.
  { intros k s. rewrite Hlk. case_bool_decide; [|done].
    by apply records_loop_keys_agree. }
  exists r', w'. split_and!; [done|done|by apply no_dispatch_of_refl|].
  intros qs Hqs. split; [by apply ticks_absent|].
  destruct (processTasks_absent r' w' id Hk' Hnone) as [Hn1 Hd1].
  pose proof (processTasks_keys_agree r' w' Hk') as Hk1.
  destruct (processTasks r' w') as [r1 w1]. simpl in *.
  eapply no_dispatch_of_trans; [exact Hd1|]. by apply ticks_absent.
Qed.

(** C2, as the code has it. In a call of [processTasks] that reads the clock
    at [now]: the goroutines it starts are the executions of the entries whose
    [nextRun] is strictly before [now], one for each and in some order; each
    such entry gets [nextRun = now + interval] from the interval of its own
    record, or, if that interval does not parse, is deleted and the failure is
    logged; an entry whose [nextRun] is [now] or later is neither started nor
    changed. *)
Theorem processTasks_dispatches_past_due (r : TaskRunner) (w : World) :
  (exists l,
     goroutines (processTasks r w).2 = goroutines w ++ l
     /\ l ≡ₚ (fun e => task e.2)
             <$> filter (fun e => nextRun e.2 < clock w (nowCalls w))
                        (map_to_list (tasks r)))
  /\ (forall id s,
        tasks r !! id = Some s -> nextRun s < clock w (nowCalls w) ->
        match ParseDuration (Every (task s)) with
        | inr duration =>
            tasks (processTasks r w).1 !! id
            = Some {| task := task s; nextRun := Add (clock w (nowCalls w)) duration |}
        | inl err =>
            tasks (processTasks r w).1 !! id = None
            /\ logger.Printf "Error parsing duration for task %d: %v"
                 [logger.D_ id; logger.V_ err] ∈ logged (processTasks r w).2
        end)
  /\ (forall id s,
        tasks r !! id = Some s -> clock w (nowCalls w) <= nextRun s ->
        tasks (processTasks r w).1 !! id = Some s)
  /\ (forall id, tasks r !! id = None -> tasks (processTasks r w).1 !! id = None).
Proof.
  destruct (processTasks_spec r w) as (Hp & Hgo & Hlog & _).
  assert (forall e, due (clock w (nowCalls w)) e = true
                    <-> nextRun e.2 < clock w (nowCalls w)) as Hdue.
  { intros e. unfold due, After. apply Z.ltb_lt. }
  split_and!.
  - eexists. split; [exact Hgo|].
    rewrite (list_filter_iff _ _ _ Hdue). by rewrite (mapRange_perm (tasks r)).
  - intros id s Hs Hlt. apply (Hdue (id, s)) in Hlt.
    specialize (Hp id). rewrite Hs, Hlt in Hp. unfold rescheduled in Hp.
    destruct (ParseDuration (Every (task s))) as [err|d] eqn:Hpd; [|done].
    split; [done|]. by eapply Hlog.
  - intros id s Hs Hge. rewrite Hp, Hs.
    destruct (due _ _) eqn:Hd; [|done]. apply Hdue in Hd. simpl in Hd. lia.
  - intros id Hs. by rewrite Hp, Hs.
Qed.

End Dispatch.

(** ** The life of the loop: [run] and [Stop] *)

Section Lifecycle.
Context `{!TimePkg} `{!GoMapRange}.

Lemma checkForChanges_stopCh r w : stopCh (checkForChanges r w).1.2 = stopCh r.
Proof.
  unfold checkForChanges. simpl. destruct (_ <? _); [done|].
  match goal with |- context [loadTasks r ?w1] =>
    destruct (loadTasks_cases r w1)
      as [(err & _ & ->)|(records & r' & w' & _ & -> & _ & _ & Hstop)]
  end; done.
Qed.

Lemma tick_stopCh r w : stopCh (tick r w).1 = stopCh r.
Proof.
  unfold tick. pose proof (checkForChanges_stopCh r w) as Hc.
  destruct (checkForChanges r w) as [[err r1] w1]. simpl in Hc.
  match goal with |- context [processTasks r1 ?w2] =>
    destruct (processTasks_spec r1 w2) as (_ & _ & _ & _ & _ & Hs & _)
  end.
  congruence.
Qed.







End Lifecycle.

(** ** The scheduler at concrete inputs *)

(** C5 at that registry and runner. *)
Lemma loadTasks_removes_absent_witness :
  exists r' w',
    loadTasks exampleStale (exampleWorld exampleRegistry) = (None, r', w')
    /\ tasks r' !! 7 = None
    /\ no_dispatch_of 7 (exampleWorld exampleRegistry) w'
    /\ forall qs, Forall (silent_on 7) qs ->
         no_dispatch_of 7 w' (ticks qs (r', w')).2
         /\ no_dispatch_of 7 w' (ticks qs (processTasks r' w')).2.
Proof.
  apply (loadTasks_removes_absent exampleStale (exampleWorld exampleRegistry)
           [exampleTask 1 "5m"] 7).
  - reflexivity.
  - apply keys_agree_insert; [reflexivity|].
    apply keys_agree_insert; [reflexivity|]. apply keys_agree_empty.
  - by_computation.
Defined.

(** C2 as stated fails where [nextRun] equals the reading of the clock: the
    entry is at or before now, and it is neither started nor advanced. *)
Lemma processTasks_at_nextRun_counterexample :
  nextRun (exampleEntry 1 "5m" 1000)
    <= clock (exampleWorld exampleRegistry) (nowCalls (exampleWorld exampleRegistry))
  /\ tasks (exampleRunner {[ 1 := exampleEntry 1 "5m" 1000 ]}) !! 1
     = Some (exampleEntry 1 "5m" 1000)
  /\ goroutines (processTasks (exampleRunner {[ 1 := exampleEntry 1 "5m" 1000 ]})
                              (exampleWorld exampleRegistry)).2 = []
  /\ tasks (processTasks (exampleRunner {[ 1 := exampleEntry 1 "5m" 1000 ]})
                         (exampleWorld exampleRegistry)).1 !! 1
     = Some (exampleEntry 1 "5m" 1000).
Proof. split_and!; [by vm_compute|reflexivity|reflexivity|reflexivity]. Qed.

(** C2, as the code has it, at a runner with an entry that is past due, one
    that is past due with an interval that does not parse, and one that is
    due exactly now. *)
Lemma processTasks_dispatches_past_due_witness :
  tasks (processTasks
           (exampleRunner {[ 1 := exampleEntry 1 "5m" 999; 2 := exampleEntry 2 "soon" 10;
                             3 := exampleEntry 3 "1m" 1000 ]})
           (exampleWorld exampleRegistry)).1 !! 1
  = Some (exampleEntry 1 "5m" (1000 + 5 * Minute))
  /\ tasks (processTasks
           (exampleRunner {[ 1 := exampleEntry 1 "5m" 999; 2 := exampleEntry 2 "soon" 10;
                             3 := exampleEntry 3 "1m" 1000 ]})
           (exampleWorld exampleRegistry)).1 !! 3
     = Some (exampleEntry 3 "1m" 1000).
Proof.
  pose proof (processTasks_dispatches_past_due
    (exampleRunner {[ 1 := exampleEntry 1 "5m" 999; 2 := exampleEntry 2 "soon" 10;
                      3 := exampleEntry 3 "1m" 1000 ]})
    (exampleWorld exampleRegistry)) as (_ & Hdue & Hnot & _).
  split.
  - exact (Hdue 1 (exampleEntry 1 "5m" 999) eq_refl eq_refl).
  - apply (Hnot 3 (exampleEntry 3 "1m" 1000) eq_refl). by vm_compute.
Defined.


(** ** The execution pipeline: [executeTask] *)

Section Monad.
Context {Disk : Type}.
Implicit Types e : Env Disk.

Lemma run_bind {X A B} (m : @ST Disk X A) (k : A -> ST X B) e :
  (m ≫= k) e = match m e with
               | (inl x, e') => (inl x, e')
               | (inr a, e') => k a e'
               end.
Proof. reflexivity. Qed.

Lemma emits_weaken {X A} (P Q : Call -> Prop) (m : @ST Disk X A) :
  (forall c, P c -> Q c) -> emits P m -> emits Q m.
Proof.
  intros HPQ Hm e. destruct (Hm e) as (l & E & Hl). exists l. split; [done|].
  eapply Forall_impl; eauto.
Qed.

Lemma emits_ret {X A} P (a : A) : emits P (ret a : @ST Disk X A).
Proof. intros e. exists []. by rewrite app_nil_r. Qed.

Lemma emits_fail {X A} P (x : X) : emits P (fail x : @ST Disk X A).
Proof. intros e. exists []. by rewrite app_nil_r. Qed.

Lemma emits_return {A} P : emits P (return_ : @ST Disk unit A).
Proof. apply emits_fail. Qed.

Lemma emits_read {A} P (f : Disk -> error + A) : emits P (read f).
Proof. intros e. exists []. by rewrite app_nil_r. Qed.

Lemma emits_pure {X A} P (x : X + A) : emits P ((fun e => (x, e)) : @ST Disk X A).
Proof. intros e. exists []. by rewrite app_nil_r. Qed.

Lemma emits_say P entry : emits P (say entry : @ST Disk unit unit).
Proof. intros e. exists []. by rewrite app_nil_r. Qed.

Lemma emits_now P : emits P (time_NowE : @ST Disk error Time).
Proof. intros e. exists []. by rewrite app_nil_r. Qed.

Lemma emits_change (P : Call -> Prop) c (f : Disk -> option error * Disk) :
  P c -> emits P (change c f).
Proof.
  intros Hc e. exists [c]. unfold change. destruct (f (disk e)) as [err d]. simpl.
  split; [done|]. by apply Forall_singleton.
Qed.

Lemma emits_wrap {A} P prefix (m : @ST Disk error A) : emits P m -> emits P (wrap prefix m).
Proof.
  intros Hm e. destruct (Hm e) as (l & E & Hl). exists l. unfold wrap.
  by destruct (m e) as [[err|a] e'].
Qed.

Lemma emits_try {A} P (m : @ST Disk error A) report : emits P m -> emits P (try m report).
Proof.
  intros Hm e. destruct (Hm e) as (l & E & Hl). exists l. unfold try.
  by destruct (m e) as [[err|a] e'].
Qed.

Lemma emits_bind {X A B} P (m : @ST Disk X A) (k : A -> ST X B) :
  emits P m -> (forall a, emits P (k a)) -> emits P (m ≫= k).
Proof.
  intros Hm Hk e. rewrite run_bind. destruct (Hm e) as (l & E & Hl).
  destruct (m e) as [[x|a] e']; simpl in *; [by exists l|].
  destruct (Hk a e') as (l' & E' & Hl'). exists (l ++ l'). split.
  - by rewrite E', E, app_assoc.
  - by apply Forall_app.
Qed.

Lemma emits_forEach {X A} P (l : list A) (body : A -> @ST Disk X unit) :
  (forall x, emits P (body x)) -> emits P (forEach l body).
Proof.
  intros Hb. induction l as [|x l IH]; simpl; [apply emits_ret|].
  intros e. unfold bind. destruct (Hb x e) as (l1 & E1 & H1).
  destruct (body x e) as [[y|[]] e']; simpl in *; [by exists l1|].
  destruct (IH e') as (l2 & E2 & H2). exists (l1 ++ l2). split.
  - by rewrite E2, E1, app_assoc.
  - by apply Forall_app.
Qed.

Lemma emits_llm c diff :
  emits isHTTP (llmClient_GenerateCommitMessage c diff : @ST Disk error string).
Proof.
  intros e. unfold llmClient_GenerateCommitMessage.
  destruct (llm.GenerateCommitMessage c diff (transport e)) as [reqs res]. simpl.
  exists (CallHTTP <$> reqs). split; [done|].
  apply Forall_fmap. by apply Forall_true.
Qed.

Lemma readonly_ret {X A} (a : A) : readonly (ret a : @ST Disk X A).
Proof. by intros e. Qed.

Lemma readonly_read {A} (f : Disk -> error + A) : readonly (read f).
Proof. intros e. split; [done|]. intros e' E. unfold read. simpl. by rewrite E. Qed.

Lemma readonly_wrap {A} prefix (m : @ST Disk error A) : readonly m -> readonly (wrap prefix m).
Proof.
  intros Hm e. destruct (Hm e) as [E2 E1]. unfold wrap. split.
  - destruct (m e) as [[err|a] e0]; simpl in *; done.
  - intros e' Hd. specialize (E1 e' Hd).
    destruct (m e) as [[err|a] e0], (m e') as [[err'|a'] e0']; simpl in *; congruence.
Qed.

Lemma readonly_bind {X A B} (m : @ST Disk X A) (k : A -> ST X B) :
  readonly m -> (forall a, readonly (k a)) -> readonly (m ≫= k).
Proof.
  intros Hm Hk e. destruct (Hm e) as [E2 E1]. split.
  - rewrite run_bind. destruct (m e) as [[x|a] e0]; simpl in *; [done|].
    subst e0. apply (Hk a e).
  - intros e' Hd. rewrite !run_bind. specialize (E1 e' Hd).
    destruct (Hm e') as [E2' _].
    destruct (m e) as [[x|a] e0], (m e') as [[x'|a'] e0']; simpl in *; try congruence.
    subst e0 e0'. injection E1 as ->. by apply (Hk a e).
Qed.

Lemma readonly_run {X A} (m : @ST Disk X A) e e' :
  readonly m -> disk e' = disk e -> m e' = ((m e).1, e').
Proof.
  intros Hm Hd. destruct (Hm e') as [E2 _]. destruct (Hm e) as [_ E1].
  rewrite <- (E1 e' Hd). rewrite <- E2 at 3. by destruct (m e').
Qed.

End Monad.

Section Pipeline.
Context `{!git.GoGit} `{!git.GlobPkg}.
Implicit Types e : Env git.Disk.

Ltac emits_step :=
  first
    [ apply emits_bind; [|intros ?]
    | apply emits_wrap
    | apply emits_try
    | apply emits_read
    | apply emits_ret
    | apply emits_say
    | apply emits_return
    | apply emits_fail
    | apply emits_now
    | apply emits_pure
    | apply emits_forEach; intros ?
    | apply emits_change; exact I
    | match goal with |- emits _ (if ?b then _ else _) => destruct b end
    | match goal with |- emits _ (let x := _ in _) => cbv zeta end ].

Ltac readonly_step :=
  first
    [ apply readonly_bind; [|intros ?]
    | apply readonly_wrap
    | apply readonly_read
    | apply readonly_ret
    | match goal with |- readonly (if ?b then _ else _) => destruct b end ].

Lemma NewRepoManager_readonly p : readonly (git.NewRepoManager p).
Proof. unfold git.NewRepoManager. repeat readonly_step. Qed.

Lemma HasChanges_readonly rm : readonly (git.HasChanges rm).
Proof. unfold git.HasChanges. repeat readonly_step. Qed.

Lemma HasStagedChanges_readonly rm : readonly (git.HasStagedChanges rm).
Proof. unfold git.HasStagedChanges. repeat readonly_step. Qed.

Lemma HasStagedChanges_emits P rm : emits P (git.HasStagedChanges rm).
Proof. unfold git.HasStagedChanges. repeat emits_step. Qed.

Lemma getSystemGitDiff_emits P rm : emits P (git.getSystemGitDiff rm).
Proof. unfold git.getSystemGitDiff. repeat emits_step. Qed.

Lemma GetDiff_emits P rm : emits P (git.GetDiff rm).
Proof.
  intros e. unfold git.GetDiff.
  destruct (getSystemGitDiff_emits P rm e) as (l & E & Hl).
  destruct (git.getSystemGitDiff rm e) as [[err|d] e1]; simpl in *; [|by exists l].
  match goal with |- context [(?m ≫= ?k) e1] =>
    assert (emits P (m ≫= k)) as Hm by repeat emits_step;
    destruct (Hm e1) as (l' & E' & Hl')
  end.
  exists (l ++ l'). split; [by rewrite E', E, app_assoc|by apply Forall_app].
Qed.

Lemma StageChanges_emits rm patterns : emits isStaging (git.StageChanges rm patterns).
Proof. unfold git.StageChanges. repeat emits_step. Qed.

Lemma Commit_emits rm message : emits (commitsOnly message) (git.Commit rm message).
Proof.
  unfold git.Commit. repeat emits_step; try apply HasStagedChanges_emits.
  apply emits_change. reflexivity.
Qed.

Lemma Push_emits rm : emits noCommit (git.Push rm).
Proof.
  unfold git.Push. apply emits_bind; [repeat emits_step|]. intros head e.
  exists [CallPush [head +:+ ":" +:+ head]].
  split; [|by apply Forall_singleton].
  cbv beta zeta.
  destruct (git.repo_Push (git.repo rm) [head +:+ ":" +:+ head] (disk e)) as [err d].
  destruct err as [err|]; [destruct (negb _)|]; reflexivity.
Qed.

Lemma prepare_emits t : emits isStaging (executeTask_prepare t).
Proof.
  unfold executeTask_prepare, git.NewRepoManager, git.HasChanges.
  repeat emits_step.
  all: try apply StageChanges_emits.
  all: try apply HasStagedChanges_emits.
  all: try apply GetDiff_emits.
Qed.

Lemma emitted_trans P e1 e2 e3 :
  emitted P e1 e2 -> emitted P e2 e3 -> emitted P e1 e3.
Proof.
  intros (l1 & E1 & H1) (l2 & E2 & H2). exists (l1 ++ l2). split.
  - by rewrite E2, E1, app_assoc.
  - by apply Forall_app.
Qed.

Lemma emitted_weaken (P Q : Call -> Prop) e1 e2 :
  (forall c, P c -> Q c) -> emitted P e1 e2 -> emitted Q e1 e2.
Proof.
  intros HPQ (l & E & Hl). exists l. split; [done|]. eapply Forall_impl; eauto.
Qed.

Lemma emitted_logE P entry e1 e2 : emitted P e1 e2 -> emitted P e1 (logE entry e2).
Proof. by intros (l & E & Hl); exists l. Qed.

Lemma finish_emits t rm message :
  emits (commitsOnly message) (executeTask_finish t rm message).
Proof.
  unfold executeTask_finish.
  apply emits_bind; [apply emits_try, Commit_emits|intros _].
  apply emits_bind; [apply emits_say|intros _].
  destruct (AutoPush t); [|apply emits_ret].
  apply emits_bind; [apply emits_say|intros _].
  apply emits_bind; [|intros _; apply emits_say].
  apply emits_try. apply (emits_weaken noCommit); [by intros []|]. apply Push_emits.
Qed.

(** The three stages of [executeTask] in sequence. *)
Lemma executeTask_run r t e :
  executeTask r t e
  = match executeTask_prepare t e with
    | (inl x, e1) => (inl x, e1)
    | (inr prepared, e1) =>
        match executeTask_message r t prepared.2 e1 with
        | (inl x, e2) => (inl x, e2)
        | (inr commitMsg, e2) => executeTask_finish t prepared.1 commitMsg e2
        end
    end.
Proof. reflexivity. Qed.

(** C7. If the repository opens and [HasChanges] reports none, the run
    ends after the two log lines of that case: nothing is staged, the disk is
    as before, no call is put on record (no request to the generator, no
    commit), and the run is the same whatever the LLM client, the static
    message and the other fields of the task are. *)
Theorem executeTask_without_changes (r : TaskRunner) (t : Task) (e : Env git.Disk)
    (rm : git.RepoManager) :
  (git.NewRepoManager (Path t) e).1 = inr rm ->
  (git.HasChanges rm e).1 = inr false ->
  executeTask r t e
  = (inl tt,
     logE (logger.Printf "No changes detected in %s, skipping" [logger.S_ (Path t)])
       (logE (logger.Printf "Executing task for repository: %s" [logger.S_ (Path t)]) e))
  /\ calls (executeTask r t e).2 = calls e
  /\ disk (executeTask r t e).2 = disk e
  /\ forall r2 t2, Path t2 = Path t -> executeTask r2 t2 e = executeTask r t e.
Proof.
  intros Hopen Hnone.
  assert (forall r2 t2, Path t2 = Path t ->
            executeTask r2 t2 e
            = (inl tt,
               logE (logger.Printf "No changes detected in %s, skipping" [logger.S_ (Path t)])
                 (logE (logger.Printf "Executing task for repository: %s"
                          [logger.S_ (Path t)]) e))) as Hrun.
  { intros r2 t2 Hp. rewrite executeTask_run. unfold executeTask_prepare.
    rewrite Hp. rewrite run_bind. unfold say at 1. cbv beta iota.
    set (e0 := logE _ e).
    rewrite run_bind. unfold try at 1.
    rewrite (readonly_run _ e e0 (NewRepoManager_readonly (Path t)) eq_refl), Hopen.
    cbv beta iota.
    rewrite run_bind. unfold try at 1.
    rewrite (readonly_run _ e e0 (HasChanges_readonly rm) eq_refl), Hnone.
    cbv beta iota. simpl negb. cbv iota.
    rewrite run_bind. rewrite run_bind. unfold say at 1. cbv beta iota.
    reflexivity. }
  split_and!.
  - by apply Hrun.
  - by rewrite (Hrun r t eq_refl).
  - by rewrite (Hrun r t eq_refl).
  - intros r2 t2 Hp. by rewrite (Hrun r2 t2 Hp), (Hrun r t eq_refl).
Qed.

(** What a successful generation returns: the content of the first choice
    of a 200 response, trimmed of white space and then of quotes. *)
Lemma GenerateCommitMessage_success c diff net reqs message :
  llm.GenerateCommitMessage c diff net = (reqs, inr message) ->
  llm.HasCredentials c = true
  /\ exists req resp content rest,
       reqs = [req]
       /\ llm.client_Do net req = inr resp
       /\ llm.StatusCode resp = llm.StatusOK
       /\ llm.decodeChat resp = inr (content :: rest)
       /\ message = gostrings.Trim (gostrings.TrimSpace content) llm.quotes.
Proof.
  unfold llm.GenerateCommitMessage.
  destruct (llm.HasCredentials c); simpl; [|done].
  destruct (llm.json_Marshal net _) as [err|body]; [done|].
  destruct (llm.http_NewRequest net _ _) as [err|[]]; [done|].
  match goal with |- context [llm.client_Do net ?r] => set (req := r) end.
  destruct (llm.client_Do net req) as [err|resp] eqn:Hdo; [done|].
  destruct (llm.StatusCode resp =? llm.StatusOK) eqn:Hst; simpl.
  - destruct (llm.decodeChat resp) as [err|[|content rest]] eqn:Hdec; try done.
    intros [= <- <-]. split; [done|]. exists req, resp, content, rest.
    split_and!; try done. by apply Z.eqb_eq.
  - by destruct (llm.decodeError resp).
Qed.

Lemma message_with_credentials r t diff e :
  llm.HasCredentials (llmClient r) = true ->
  executeTask_message r t diff e
  = let gen := llm.GenerateCommitMessage (llmClient r) diff (transport e) in
    let sent := record (CallHTTP <$> gen.1)
                  (logE (logger.Printf "Generating commit message using LLM for %s"
                           [logger.S_ (Path t)]) e) in
    match gen.2 with
    | inr message => (inr message, sent)
    | inl err =>
        let e2 := logE (logger.Errorf "Error generating commit message for %s: %v"
                          [logger.S_ (Path t); logger.V_ err]) sent in
        if negb (String.eqb (StaticMsg t) "") then
          (inr (StaticMsg t),
           logE (logger.Printf "Falling back to static message for %s"
                   [logger.S_ (Path t)]) e2)
        else
          (inl tt,
           logE (logger.Errorf
                   "LLM failed and no static message configured for %s, cannot commit"
                   [logger.S_ (Path t)]) e2)
    end.
Proof.
  intros Hc. unfold executeTask_message. rewrite Hc. rewrite run_bind.
  unfold say at 1. cbv beta iota zeta. unfold llmClient_GenerateCommitMessage.
  change (transport (logE _ e)) with (transport e).
  destruct (llm.GenerateCommitMessage (llmClient r) diff (transport e)) as [reqs [err|m]];
    reflexivity.
Qed.

Lemma message_without_credentials r t diff e :
  llm.HasCredentials (llmClient r) = false ->
  executeTask_message r t diff e
  = if negb (String.eqb (StaticMsg t) "") then
      (inr (StaticMsg t),
       logE (logger.Printf "Using configured static message for %s" [logger.S_ (Path t)]) e)
    else
      (inl tt,
       logE (logger.Errorf
               "No LLM credentials and no static message configured for %s, cannot commit"
               [logger.S_ (Path t)]) e).
Proof.
  intros Hc. unfold executeTask_message. rewrite Hc.
  by destruct (negb (String.eqb (StaticMsg t) "")).
Qed.

Lemma emitted_sent P e reqs :
  (forall req, P (CallHTTP req)) -> emitted P e (record (CallHTTP <$> reqs) e).
Proof.
  intros HP. exists (CallHTTP <$> reqs). split; [done|].
  apply Forall_fmap. apply Forall_forall. intros req _. apply HP.
Qed.

(** C1. For a run that reaches message resolution, with the diff [diff]:
    with credentials the client is called first, whatever the static message
    is; if it succeeds its result, the trimmed content of the first choice, is
    the message the run commits with; if it fails the static message is, when
    it is not empty, and otherwise the run ends without a commit. Without
    credentials no request is made: the static message is the message when it
    is not empty and otherwise the run ends without a commit. In the runs that
    go on, every commit put on record carries the resolved message. *)
Theorem executeTask_message_matrix (r : TaskRunner) (t : Task) (e e1 : Env git.Disk)
    (rm : git.RepoManager) (diff : string) :
  executeTask_prepare t e = (inr (rm, diff), e1) ->
  let gen := llm.GenerateCommitMessage (llmClient r) diff (transport e1) in
  let sent := record (CallHTTP <$> gen.1)
                (logE (logger.Printf "Generating commit message using LLM for %s"
                         [logger.S_ (Path t)]) e1) in
  let failed err := logE (logger.Errorf "Error generating commit message for %s: %v"
                            [logger.S_ (Path t); logger.V_ err]) sent in
  match llm.HasCredentials (llmClient r), gen.2, negb (String.eqb (StaticMsg t) "") with
  | true, inr message, _ =>
      executeTask r t e = executeTask_finish t rm message sent
      /\ emitted (commitsOnly message) e (executeTask r t e).2
      /\ exists req resp content rest,
           gen.1 = [req]
           /\ llm.client_Do (transport e1) req = inr resp
           /\ llm.decodeChat resp = inr (content :: rest)
           /\ message = gostrings.Trim (gostrings.TrimSpace content) llm.quotes
  | true, inl err, true =>
      executeTask r t e
      = executeTask_finish t rm (StaticMsg t)
          (logE (logger.Printf "Falling back to static message for %s"
                   [logger.S_ (Path t)]) (failed err))
      /\ emitted (commitsOnly (StaticMsg t)) e (executeTask r t e).2
  | true, inl err, false =>
      executeTask r t e
      = (inl tt,
         logE (logger.Errorf
                 "LLM failed and no static message configured for %s, cannot commit"
                 [logger.S_ (Path t)]) (failed err))
      /\ emitted noCommit e (executeTask r t e).2
  | false, _, true =>
      executeTask r t e
      = executeTask_finish t rm (StaticMsg t)
          (logE (logger.Printf "Using configured static message for %s"
                   [logger.S_ (Path t)]) e1)
      /\ emitted (commitsOnly (StaticMsg t)) e (executeTask r t e).2
      /\ emitted isStaging e e1
  | false, _, false =>
      executeTask r t e
      = (inl tt,
         logE (logger.Errorf
                 "No LLM credentials and no static message configured for %s, cannot commit"
                 [logger.S_ (Path t)]) e1)
      /\ emitted isStaging e (executeTask r t e).2
  end.
Proof.
  intros Hprep gen sent failed.
  pose proof (prepare_emits t e) as Hstaged. rewrite Hprep in Hstaged. simpl in Hstaged.
  assert (forall message e2,
            emitted (commitsOnly message) e e2 ->
            emitted (commitsOnly message) e (executeTask_finish t rm message e2).2) as Hfin.
  { intros message e2 He2. eapply emitted_trans; [exact He2|]. apply finish_emits. }
  assert (forall P, (forall req, P (CallHTTP req)) -> (forall c, isStaging c -> P c) ->
                    emitted P e sent) as Hsent.
  { intros P HP1 HP2. eapply emitted_trans; [|by apply emitted_sent].
    apply emitted_logE. by eapply emitted_weaken. }
  rewrite executeTask_run, Hprep. simpl fst. simpl snd.
  destruct (llm.HasCredentials (llmClient r)) eqn:Hc.
  - rewrite (message_with_credentials r t diff e1 Hc). cbv zeta.
    fold gen. fold sent.
    destruct (gen.2) as [err|message] eqn:Hgen.
    + fold (failed err).
      destruct (negb (String.eqb (StaticMsg t) "")).
      * split; [done|]. apply Hfin. do 2 apply emitted_logE.
        apply Hsent; [done|by intros []].
      * split; [done|]. simpl. do 2 apply emitted_logE.
        apply Hsent; [done|by intros []].
    + split_and!; [done| |].
      * apply Hfin. apply Hsent; [done|by intros []].
      * destruct (GenerateCommitMessage_success (llmClient r) diff (transport e1)
                    gen.1 message) as (_ & req & resp & content & rest & H1 & H2 & _ & H4 & H5).
        { subst gen. rewrite <- Hgen. by destruct (llm.GenerateCommitMessage _ _ _). }
        by exists req, resp, content, rest.
  - rewrite (message_without_credentials r t diff e1 Hc).
    destruct (negb (String.eqb (StaticMsg t) "")).
    + destruct (gen.2); (split_and!; [done| |done]);
        apply Hfin, emitted_logE; (eapply emitted_weaken; [|exact Hstaged]); by intros [].
    + destruct (gen.2); (split; [done|]); simpl; by apply emitted_logE.
Qed.

Lemma Push_run rm e head :
  git.repo_Head (git.repo rm) (disk e) = inr head ->
  git.Push rm e
  = let pushed := git.repo_Push (git.repo rm) [head +:+ ":" +:+ head] (disk e) in
    let e' := record [CallPush [head +:+ ":" +:+ head]] (set_disk pushed.2 e) in
    match pushed.1 with
    | Some err =>
        if negb (isNoErrAlreadyUpToDate err)
        then (inl (wrapError "failed to push: " err), e')
        else (inr tt, e')
    | None => (inr tt, e')
    end.
Proof.
  intros Hhead. unfold git.Push. rewrite run_bind. unfold wrap, read. rewrite Hhead.
  cbv beta iota zeta.
  by destruct (git.repo_Push (git.repo rm) [head +:+ ":" +:+ head] (disk e)) as [[err|] d].
Qed.

(** C8. When the push of go-git answers [NoErrAlreadyUpToDate], [Push]
    returns no error; and a run that has committed and pushes with that
    answer runs to its end, its last log line being the one of a successful
    push, with no error line after the commit. *)
Theorem Push_already_up_to_date_is_success (r : TaskRunner) (t : Task)
    (e e1 e2 e3 : Env git.Disk) (rm : git.RepoManager) (diff message head : string)
    (d4 : git.Disk) :
  executeTask_prepare t e = (inr (rm, diff), e1) ->
  executeTask_message r t diff e1 = (inr message, e2) ->
  git.Commit rm message e2 = (inr tt, e3) ->
  AutoPush t = true ->
  git.repo_Head (git.repo rm) (disk e3) = inr head ->
  git.repo_Push (git.repo rm) [head +:+ ":" +:+ head] (disk e3)
    = (Some NoErrAlreadyUpToDate, d4) ->
  let pushing :=
    logE (logger.Printf "Auto-pushing commits in %s" [logger.S_ (Path t)])
      (logE (logger.Printf "Created commit in %s: %s"
               [logger.S_ (Path t); logger.S_ message]) e3) in
  let pushed := record [CallPush [head +:+ ":" +:+ head]] (set_disk d4 pushing) in
  git.Push rm pushing = (inr tt, pushed)
  /\ executeTask r t e
     = (inr tt,
        logE (logger.Printf "Successfully pushed commits in %s" [logger.S_ (Path t)]) pushed)
  /\ loggedE (executeTask r t e).2
     = loggedE e3
       ++ [ logger.Printf "Created commit in %s: %s" [logger.S_ (Path t); logger.S_ message];
            logger.Printf "Auto-pushing commits in %s" [logger.S_ (Path t)];
            logger.Printf "Successfully pushed commits in %s" [logger.S_ (Path t)] ].
Proof.
  intros Hprep Hmsg Hcommit Hauto Hhead Hpush pushing pushed.
  assert (git.Push rm pushing = (inr tt, pushed)) as HPush.
  { rewrite (Push_run rm pushing head Hhead).
    change (disk pushing) with (disk e3). rewrite Hpush. reflexivity. }
  assert (executeTask r t e
          = (inr tt,
             logE (logger.Printf "Successfully pushed commits in %s"
                     [logger.S_ (Path t)]) pushed)) as Hrun.
  { rewrite executeTask_run, Hprep. simpl fst. simpl snd. rewrite Hmsg.
    unfold executeTask_finish. rewrite run_bind. unfold try at 1. rewrite Hcommit.
    cbv beta iota. rewrite run_bind. unfold say at 1. cbv beta iota.
    rewrite Hauto. rewrite run_bind. unfold say at 1. cbv beta iota.
    rewrite run_bind. unfold try at 1. fold pushing. rewrite HPush. reflexivity. }
  split_and!; [done|done|].
  rewrite Hrun. simpl. by rewrite <- !app_assoc.
Qed.



End Pipeline.


(** ** The pipeline at concrete inputs *)

(** C7 at a repository without changes. *)
Lemma executeTask_without_changes_witness :
  @executeTask exampleGit exampleGlob exampleKeyed exampleSecretTask (exampleEnv exampleCleanDisk exampleAnswer)
  = (inl tt,
     logE (logger.Printf "No changes detected in %s, skipping" [logger.S_ "/srv/repo"])
       (logE (logger.Printf "Executing task for repository: %s" [logger.S_ "/srv/repo"])
          (exampleEnv exampleCleanDisk exampleAnswer)))
  /\ calls (@executeTask exampleGit exampleGlob exampleKeyed exampleSecretTask
              (exampleEnv exampleCleanDisk exampleAnswer)).2 = [].
Proof.
  destruct (@executeTask_without_changes exampleGit exampleGlob exampleKeyed exampleSecretTask
              (exampleEnv exampleCleanDisk exampleAnswer) exampleManager eq_refl eq_refl)
    as (Hrun & Hcalls & _).
  split; [exact Hrun|exact Hcalls].
Defined.

(** C1 at a client with a key, a task with a static message and an endpoint
    that answers: the answer, trimmed, is committed, not the static message. *)
Lemma executeTask_message_matrix_witness :
  (exists e2,
     @executeTask exampleGit exampleGlob exampleKeyed exampleSecretTask (exampleEnv exampleSecretDisk exampleAnswer)
     = @executeTask_finish exampleGit exampleSecretTask exampleManager "feat: x" e2)
  /\ history (disk (@executeTask exampleGit exampleGlob exampleKeyed exampleSecretTask
                      (exampleEnv exampleSecretDisk exampleAnswer)).2)
     = [("feat: x", ["secret.env"])].
Proof.
  destruct (@executeTask_message_matrix exampleGit exampleGlob exampleKeyed exampleSecretTask
              (exampleEnv exampleSecretDisk exampleAnswer)
              (@executeTask_prepare exampleGit exampleGlob exampleSecretTask
                 (exampleEnv exampleSecretDisk exampleAnswer)).2
              exampleManager "" eq_refl : (_ = _) /\ _) as [Hrun _].
  split; [eexists; exact Hrun|reflexivity].
Defined.

(** C8 at a remote that is already up to date. *)
Lemma Push_already_up_to_date_is_success_witness :
  (@executeTask exampleGit exampleGlob (exampleRunner ∅) exampleSecretTask
     (exampleEnv exampleSecretDisk exampleAnswer)).1 = inr tt
  /\ loggedE (@executeTask exampleGit exampleGlob (exampleRunner ∅) exampleSecretTask
                (exampleEnv exampleSecretDisk exampleAnswer)).2
     = [ logger.Printf "Executing task for repository: %s" [logger.S_ "/srv/repo"];
         logger.Printf "Auto-staging changes in %s" [logger.S_ "/srv/repo"];
         logger.Printf "Using configured static message for %s" [logger.S_ "/srv/repo"];
         logger.Printf "Created commit in %s: %s"
           [logger.S_ "/srv/repo"; logger.S_ "checkpoint"];
         logger.Printf "Auto-pushing commits in %s" [logger.S_ "/srv/repo"];
         logger.Printf "Successfully pushed commits in %s" [logger.S_ "/srv/repo"] ].
Proof.
  pose (e := exampleEnv exampleSecretDisk exampleAnswer).
  pose (e1 := (@executeTask_prepare exampleGit exampleGlob exampleSecretTask e).2).
  pose (e2 := (@executeTask_message exampleGit (exampleRunner ∅) exampleSecretTask "" e1).2).
  pose (e3 := (@git.Commit exampleGit exampleManager "checkpoint" e2).2).
  destruct (@Push_already_up_to_date_is_success exampleGit exampleGlob (exampleRunner ∅) exampleSecretTask
              e e1 e2 e3 exampleManager "" "checkpoint" "refs/heads/main" (disk e3)
              eq_refl eq_refl eq_refl eq_refl eq_refl eq_refl)
    as (_ & Hrun & Hlog).
  split.
  - fold e. by rewrite Hrun.
  - fold e. rewrite Hlog. reflexivity.
Defined.


(** * More of the scheduler *)

Section SchedulerMore.
Context `{!TimePkg} `{!GoMapRange}.

Lemma loadTasks_keys_agree r w :
  keys_agree (tasks r) -> keys_agree (tasks (loadTasks r w).1.2).
Proof.
  intros Hk.
  destruct (loadTasks_cases r w)
    as [(err & Hq & ->)|(records & r' & w' & Hq & -> & Hlk & _)]; simpl; [done|].
  intros k s. rewrite Hlk. case_bool_decide; [|done].
  by apply records_loop_keys_agree.
Qed.

Lemma tick_keys_agree r w : keys_agree (tasks r) -> keys_agree (tasks (tick r w).1).
Proof.
  intros Hk. unfold tick.
  assert (keys_agree (tasks (checkForChanges r w).1.2)) as Hk1.
  { unfold checkForChanges. simpl. destruct (_ <? _); [done|].
    by apply loadTasks_keys_agree. }
  destruct (checkForChanges r w) as [[err r1] w1]. simpl in Hk1.
  by apply processTasks_keys_agree.
Qed.

(** X1: After a load whose read succeeds, with distinct IDs, the schedule holds
    records of this read only, each under its own ID, and it holds one for a
    record exactly when the record had an entry before or its interval
    parses. *)
Theorem loadTasks_schedule_follows_registry (r : TaskRunner) (w : World)
    (records : list Task) :
  GetAllTasks (sqlite w) = inr records ->
  NoDup (ID <$> records) ->
  (forall id s, tasks (loadTasks r w).1.2 !! id = Some s ->
                task s ∈ records /\ ID (task s) = id)
  /\ (forall t, t ∈ records ->
        (is_Some (tasks (loadTasks r w).1.2 !! ID t)
         <-> is_Some (tasks r !! ID t) \/ exists d, ParseDuration (Every t) = inr d)).
Proof.
  intros Hq Hnd.
  destruct (loadTasks_ok r w records Hq) as (r' & w' & -> & Hlk & _). simpl.
  assert (forall t, t ∈ records -> bool_decide (ID t ∈ ID <$> records) = true) as Hmem.
  { intros t Hin. apply bool_decide_eq_true. by apply list_elem_of_fmap_2. }
  assert (forall t st, t ∈ records -> tasks r !! ID t = Some st ->
            tasks r' !! ID t = Some {| task := t; nextRun := nextRun st |}) as Hupd.
  { intros t st Hin Hst. rewrite Hlk, (Hmem t Hin). by apply records_loop_update. }
  assert (forall t d, t ∈ records -> tasks r !! ID t = None ->
            ParseDuration (Every t) = inr d ->
            exists n, tasks r' !! ID t
                      = Some {| task := t; nextRun := Add (clock w n) d |}) as Hnew.
  { intros t d Hin Hst Hp.
    destruct (records_loop_new records ∅ r w t d Hnd Hin Hst Hp) as (n & _ & Hn).
    exists n. by rewrite Hlk, (Hmem t Hin). }
  assert (forall t err, t ∈ records -> tasks r !! ID t = None ->
            ParseDuration (Every t) = inl err -> tasks r' !! ID t = None) as Hinv.
  { intros t err Hin Hst Hp. rewrite Hlk, (Hmem t Hin).
    by destruct (records_loop_invalid records ∅ r w t err Hnd Hin Hst Hp). }
  split.
  - intros id s Hs.
    assert (id ∈ ID <$> records) as Hid.
    { rewrite Hlk in Hs. by case_bool_decide. }
    apply list_elem_of_fmap in Hid as (t & -> & Hin).
    destruct (tasks r !! ID t) as [st|] eqn:Hst.
    + rewrite (Hupd t st Hin Hst) in Hs. by injection Hs as <-.
    + destruct (ParseDuration (Every t)) as [err|d] eqn:Hp.
      * by rewrite (Hinv t err Hin Hst Hp) in Hs.
      * destruct (Hnew t d Hin Hst Hp) as (n & Hn). rewrite Hn in Hs.
        by injection Hs as <-.
  - intros t Hin. split.
    + intros [s Hs]. destruct (tasks r !! ID t) as [st|] eqn:Hst; [left; by eexists|].
      right. destruct (ParseDuration (Every t)) as [err|d] eqn:Hp; [|by eexists].
      by rewrite (Hinv t err Hin Hst Hp) in Hs.
    + intros [[st Hst]|[d Hp]].
      * rewrite (Hupd t st Hin Hst). by eexists.
      * destruct (tasks r !! ID t) as [st|] eqn:Hst.
        -- rewrite (Hupd t st Hin Hst). by eexists.
        -- destruct (Hnew t d Hin Hst Hp) as (n & ->). by eexists.
Qed.

(** X2: The rate limit counts from the last load that succeeded: a check less
    than ten seconds after it leaves the runner alone and does not read the
    registry. A load that failed does not count: the runner keeps its
    [lastCheck], and every later check reads the registry again. *)
Theorem checkForChanges_rate_limit (r : TaskRunner) (w : World) :
  (forall r' w', loadTasks r w = (None, r', w') ->
     forall w2 q,
       clock w2 (nowCalls w2) - clock w (Nat.pred (nowCalls w')) < 10 * Second ->
       checkForChanges r' (set_sqlite q w2) = (None, r', (time_Now (set_sqlite q w2)).2))
  /\ (forall err r1 w1, checkForChanges r w = (Some err, r1, w1) ->
        r1 = r
        /\ forall w2, clock w (nowCalls w) <= clock w2 (nowCalls w2) ->
             checkForChanges r w2
             = loadTasks r (log (logger.Println "Checking for task updates...")
                              (time_Now w2).2)).
Proof.
  split.
  - intros r' w' Hload w2 q Hlt.
    destruct (loadTasks_cases r w)
      as [(err & Hq & E)|(records & r1 & w1 & Hq & E & _)]; [congruence|].
    destruct (loadTasks_ok r w records Hq) as (r2 & w3 & E2 & _ & _ & Hnow & _ & Hlast & _).
    assert (r2 = r' /\ w3 = w') as [-> ->] by (split; congruence).
    unfold checkForChanges. simpl.
    rewrite Hlast. rewrite Hnow in Hlt. simpl in Hlt.
    apply Z.ltb_lt in Hlt. by rewrite Hlt.
  - intros err r1 w1 Hcheck. unfold checkForChanges in Hcheck. simpl in Hcheck.
    destruct (clock w (nowCalls w) - lastCheck r <? 10 * Second) eqn:Hlt; [done|].
    apply Z.ltb_ge in Hlt.
    split.
    + match type of Hcheck with loadTasks r ?w0 = _ =>
        destruct (loadTasks_cases r w0)
          as [(err' & Hq & E)|(records & r2 & w2 & Hq & E & _)]
      end; congruence.
    + intros w2 Hle. unfold checkForChanges. simpl.
      assert ((clock w2 (nowCalls w2) - lastCheck r <? 10 * Second) = false) as ->; [|done].
      apply Z.ltb_ge. lia.
Qed.

(** X3: A read error of the registry during a tick is logged and the tick goes
    on: the entries of the unchanged schedule that are due are processed as
    usual. *)
Theorem tick_survives_read_error (r : TaskRunner) (w : World) (err : error) :
  10 * Second <= clock w (nowCalls w) - lastCheck r ->
  GetAllTasks (sqlite w) = inl err ->
  tick r w
  = processTasks r
      (log (logger.Printf "Error checking for task updates: %v" [logger.V_ err])
         (log (logger.Println "Checking for task updates...") (time_Now w).2)).
Proof.
  intros Hge Hq. unfold tick, checkForChanges. simpl.
  assert ((clock w (nowCalls w) - lastCheck r <? 10 * Second) = false) as ->.
  { apply Z.ltb_ge. lia. }
  unfold loadTasks. simpl. by rewrite Hq.
Qed.

(** X4: Whatever the loop and its surroundings do, every entry of the schedule
    stays under the ID of its record. *)
Theorem schedule_keys_invariant (c c' : loop * TaskRunner * World) :
  keys_agree (tasks c.1.2) ->
  rtc step c c' ->
  keys_agree (tasks c'.1.2).
Proof.
  intros Hk Hsteps. induction Hsteps as [|c1 c2 c3 Hstep _ IH]; [done|].
  apply IH. destruct Hstep as [Hrun|Henv].
  - destruct Hrun as [r w _|r w _]; simpl in *; [done|]. by apply tick_keys_agree.
  - destruct Henv as [l r w|l r w q|l r w r' w' HStop]; simpl in *; [done|done|].
    unfold Stop in HStop. destruct (close (stopCh r)); [|done].
    by injection HStop as <- <-.
Qed.

(** X5: With intervals that are not negative, [processTasks] never moves a
    [nextRun] backwards and never changes the record of an entry it keeps. *)
Theorem processTasks_never_rewinds (r : TaskRunner) (w : World) (id : Z) (s s' : taskState) :
  nonnegative_intervals (tasks r) ->
  tasks r !! id = Some s ->
  tasks (processTasks r w).1 !! id = Some s' ->
  task s' = task s /\ nextRun s <= nextRun s'.
Proof.
  intros Hnn Hs Hs'. destruct (processTasks_spec r w) as (Hp & _).
  rewrite Hp, Hs in Hs'. destruct (due _ _) eqn:Hd.
  - unfold rescheduled in Hs'.
    destruct (ParseDuration (Every (task s))) as [err|d] eqn:Hpd; [done|].
    injection Hs' as <-. simpl. split; [done|].
    specialize (Hnn id s d Hs Hpd). unfold due, After in Hd. simpl in Hd.
    apply Z.ltb_lt in Hd. unfold Add. lia.
  - injection Hs' as <-. split; [done|lia].
Qed.

(** X6: With intervals that are not negative, nothing is due right after
    [processTasks]: a second pass whose reading of the clock is not later
    starts no goroutine and changes no entry. *)
Theorem processTasks_no_double_dispatch (r : TaskRunner) (w w2 : World) :
  nonnegative_intervals (tasks r) ->
  clock w2 (nowCalls w2) <= clock w (nowCalls w) ->
  goroutines (processTasks (processTasks r w).1 w2).2 = goroutines w2
  /\ tasks (processTasks (processTasks r w).1 w2).1 = tasks (processTasks r w).1.
Proof.
  intros Hnn Hle. destruct (processTasks_spec r w) as (Hp & _).
  assert (forall id s', tasks (processTasks r w).1 !! id = Some s' ->
                        due (clock w2 (nowCalls w2)) (id, s') = false) as Hnot.
  { intros id s' Hs'. rewrite Hp in Hs'. unfold due, After. simpl. apply Z.ltb_ge.
    destruct (tasks r !! id) as [s|] eqn:Hs; [|done].
    destruct (due (clock w (nowCalls w)) (id, s)) eqn:Hd.
    - unfold rescheduled in Hs'.
      destruct (ParseDuration (Every (task s))) as [err|d] eqn:Hpd; [done|].
      injection Hs' as <-. simpl. specialize (Hnn id s d Hs Hpd). unfold Add. lia.
    - injection Hs' as <-. unfold due, After in Hd. simpl in Hd.
      apply Z.ltb_ge in Hd. lia. }
  destruct (processTasks_spec (processTasks r w).1 w2) as (Hp2 & Hgo2 & _).
  split.
  - rewrite Hgo2.
    assert (filter (fun e => due (clock w2 (nowCalls w2)) e = true)
                   (mapRange (tasks (processTasks r w).1)) = []) as ->;
      [|by rewrite app_nil_r].
    apply elem_of_nil_inv. intros [id s'] [Hd Hin]%list_elem_of_filter.
    apply elem_of_mapRange in Hin. rewrite (Hnot id s' Hin) in Hd. done.
  - apply map_eq. intros id. rewrite Hp2.
    destruct (tasks (processTasks r w).1 !! id) as [s'|] eqn:Hs'; [|done].
    by rewrite (Hnot id s' Hs').
Qed.

End SchedulerMore.

Section SchedulerShutdown.
Context `{!TimePkg} `{!GoMapRange}.

Lemma ticks_stopCh qs : forall r w,
  stopCh (fold_left (fun st q => tick st.1 (set_sqlite q st.2)) qs (r, w)).1 = stopCh r.
Proof.
  induction qs as [|q qs IH]; intros r w; [done|]. simpl.
  pose proof (tick_stopCh r (set_sqlite q w)) as Ht.
  destruct (tick r (set_sqlite q w)) as [r1 w1]. simpl in *. by rewrite IH.
Qed.

(** X7: [commitmonk run] never panics. It fails only when the first load of the
    registry fails, with that error wrapped twice and before any tick; when
    the first load succeeds, whatever the ticks until the signal do, the one
    call of [Stop] returns and leaves the stop channel closed. *)
Theorem RunAction_never_panics (cfg : config.Config) (w : World) (qs : list QueryResult) :
  match GetAllTasks (sqlite w) with
  | inl err =>
      exists r' w',
        cmd.RunAction cfg w qs
        = Returns (Some (wrapError "failed to start scheduler: "
                           (wrapError "failed to load tasks: " err)), [], r', w')
        /\ tasks r' = ∅ /\ goroutines w' = goroutines w
  | inr _ =>
      exists out r' w',
        cmd.RunAction cfg w qs = Returns (None, out, r', w')
        /\ stopCh r' = chanClosed
  end.
Proof.
  unfold cmd.RunAction, NewTaskRunner. simpl.
  set (r0 := {| llmClient := _; stopCh := chanOpen; tasks := ∅; lastCheck := _ |}).
  unfold Start.
  match goal with |- context [loadTasks r0 ?w0] =>
    set (w1 := w0);
    destruct (loadTasks_cases r0 w1)
      as [(err & Hq & E)|(records & r1 & w2 & Hq & E & _ & _ & Hstop)]
  end; rewrite E; change (sqlite w1) with (sqlite w) in Hq; rewrite Hq.
  - by eexists _, _.
  - pose proof (ticks_stopCh qs r1 w2) as Ht.
    destruct (fold_left _ qs (r1, w2)) as [r3 w3]. simpl in Ht.
    unfold Stop. rewrite Ht, Hstop. simpl. by eexists _, _, _.
Qed.

End SchedulerShutdown.

(** * The commands *)

Lemma Repeat_length n : String.length (cmd.Repeat "*" n) = n.
Proof. induction n as [|n IH]; simpl; [done|]. f_equal. exact IH. Qed.

Lemma Repeat_get n i : (i < n)%nat -> String.get i (cmd.Repeat "*" n) = Some "*"%char.
Proof.
  revert i. induction n as [|n IH]; intros i Hi; [lia|].
  destruct i as [|i]; simpl; [done|]. apply IH. lia.
Qed.

Lemma substring_length s : forall n m,
  (n + m <= String.length s)%nat -> String.length (String.substring n m s) = m.
Proof.
  induction s as [|c s IH]; intros n m Hle; simpl in *.
  - destruct n, m; simpl; try done; lia.
  - destruct n as [|n].
    + destruct m as [|m]; simpl; [done|]. rewrite (IH 0%nat m); [done|lia].
    + apply IH. lia.
Qed.

Lemma string_length_append s1 s2 :
  String.length (s1 +:+ s2) = (String.length s1 + String.length s2)%nat.
Proof. induction s1 as [|c s1 IH]; simpl; [done|]. by rewrite IH. Qed.

Lemma string_get_append_l s1 s2 i :
  (i < String.length s1)%nat -> String.get i (s1 +:+ s2) = String.get i s1.
Proof.
  revert i. induction s1 as [|c s1 IH]; intros i Hi; simpl in *; [lia|].
  destruct i as [|i]; [done|]. apply IH. lia.
Qed.

Lemma string_get_append_r s1 s2 i :
  (String.length s1 <= i)%nat ->
  String.get i (s1 +:+ s2) = String.get (i - String.length s1) s2.
Proof.
  revert i. induction s1 as [|c s1 IH]; intros i Hi; simpl in *.
  - by rewrite Nat.sub_0_r.
  - destruct i as [|i]; [lia|]. simpl. apply IH. lia.
Qed.

(** X8: A key that is set is masked to a string of the same length. Of a key of
    up to eight bytes every byte is shown as a star; of a longer one the
    first four and the last four bytes are shown as they are and every byte
    between them as a star. *)
Theorem maskAPIKey_shows_eight_bytes_at_most (key : string) (i : nat) :
  key <> "" ->
  String.length (cmd.maskAPIKey key) = String.length key
  /\ ((i < String.length key)%nat ->
      String.get i (cmd.maskAPIKey key)
      = if (String.length key <=? 8)%nat
           || ((4 <=? i)%nat && (i <? String.length key - 4)%nat)
        then Some "*"%char
        else String.get i key).
Proof.
  intros Hne. unfold cmd.maskAPIKey.
  destruct (String.eqb key "") eqn:He; [by apply String.eqb_eq in He|]. clear He.
  destruct (String.length key <=? 8)%nat eqn:Hlen.
  - rewrite orb_true_l. split; [apply Repeat_length|]. intros Hi. by apply Repeat_get.
  - apply Nat.leb_gt in Hlen. rewrite orb_false_l.
    assert (String.length (String.substring 0 4 key) = 4%nat) as H4.
    { apply substring_length. lia. }
    assert (String.length (String.substring (String.length key - 4) 4 key) = 4%nat) as H4'.
    { apply substring_length. lia. }
    split.
    + rewrite !string_length_append, H4, H4', Repeat_length. lia.
    + intros Hi. destruct (4 <=? i)%nat eqn:Hlo; cbv iota; cbn [andb].
      * apply Nat.leb_le in Hlo.
        rewrite string_get_append_r by (rewrite H4; lia). rewrite H4.
        destruct (i <? String.length key - 4)%nat eqn:Hhi.
        -- apply Nat.ltb_lt in Hhi.
           rewrite string_get_append_l by (rewrite Repeat_length; lia).
           apply Repeat_get. lia.
        -- apply Nat.ltb_ge in Hhi.
           rewrite string_get_append_r by (rewrite Repeat_length; lia).
           rewrite Repeat_length.
           rewrite String.substring_correct1 by lia. f_equal. lia.
      * apply Nat.leb_gt in Hlo.
        rewrite string_get_append_l by (rewrite H4; lia).
        rewrite String.substring_correct1 by lia. f_equal. lia.
Qed.

Section Commands.
Context `{!TimePkg}.

(** X9: [add] gives a task to the registry only after its checks: one argument,
    whose absolute path is the task's path and has a [.git] that is not
    missing; an interval, given or the default, that parses to one minute or
    more; a static message or an API key. It gives one task at most, and
    reports success only when that statement ran without an error. *)
Theorem AddAction_registers_checked_tasks (conn : Conn) (cfg : config.Config)
    (host : cmd.Host) (c : cmd.AddContext) (task : Task) :
  task ∈ (cmd.AddAction conn cfg host c).2 ->
  (cmd.AddAction conn cfg host c).2 = [task]
  /\ (exists repoPath, cmd.Args c = [repoPath]
        /\ cmd.filepath_Abs host repoPath = inr (Path task))
  /\ cmd.os_Stat_IsNotExist host (cmd.filepath_Join host (Path task) ".git") = false
  /\ Every task = default (config.DefaultInterval cfg) (cmd.every c)
  /\ (exists d, ParseDuration (Every task) = inr d /\ Minute <= d)
  /\ (StaticMsg task <> "" \/ config.APIKey (config.LLM cfg) <> "")
  /\ AutoAdd task = negb (cmd.no_autoadd c)
  /\ ((cmd.AddAction conn cfg host c).1.1 = None <-> AddTask conn task = None).
Proof.
  unfold cmd.AddAction.
  destruct (cmd.Args c) as [|repoPath [|? ?]] eqn:Hargs; simpl;
    try (by intros ?%elem_of_nil).
  destruct (cmd.filepath_Abs host repoPath) as [err|absPath] eqn:Habs;
    [by intros ?%elem_of_nil|].
  destruct (cmd.os_Stat_IsNotExist host _) eqn:Hstat; [by intros ?%elem_of_nil|].
  destruct (ParseDuration _) as [err|d] eqn:Hp; [by intros ?%elem_of_nil|].
  destruct (d <? Minute) eqn:Hd; [by intros ?%elem_of_nil|].
  apply Z.ltb_ge in Hd.
  destruct (String.eqb (cmd.message c) "" && _) eqn:Hmsg; [by intros ?%elem_of_nil|].
  match goal with |- context [AddTask conn ?t] => set (t0 := t) end.
  assert (task ∈ [t0] -> task = t0) as Hin.
  { intros [->|?%elem_of_nil]%elem_of_cons; done. }
  assert (StaticMsg t0 <> "" \/ config.APIKey (config.LLM cfg) <> "") as Hsrc.
  { apply andb_false_iff in Hmsg as [Hm|Hm]; apply String.eqb_neq in Hm; auto. }
  destruct (AddTask conn t0) as [err|] eqn:Hadd; simpl; intros ->%Hin;
    (split_and!; [done|by exists repoPath|done|done|by exists d|done|done|]);
    rewrite Hadd; done.
Qed.

(** X10: [remove] reports success only when the one statement it ran deleted a
    row. *)
Theorem RemoveAction_succeeds_only_on_a_deleted_row (conn : Conn) (host : cmd.Host)
    (Sscanf_d : string -> error + Z) (args : list string) :
  (cmd.RemoveAction conn host Sscanf_d args).1.1 = None ->
  exists st n,
    (cmd.RemoveAction conn host Sscanf_d args).2 = [st]
    /\ conn st = Executed n None /\ n <> 0.
Proof.
  unfold cmd.RemoveAction.
  destruct args as [|arg [|? ?]]; simpl; try done.
  destruct (Sscanf_d arg) as [err|id].
  - destruct (cmd.filepath_Abs host arg) as [err'|absPath]; [done|].
    unfold RemoveTask.
    destruct (conn (deleteByPath absPath)) as [e|e|n [e|]] eqn:Hc; simpl; try done.
    destruct (n =? 0) eqn:Hn; simpl; [done|]. intros _.
    exists (deleteByPath absPath), n. split_and!; [done|done|by apply Z.eqb_neq].
  - unfold RemoveTaskByID.
    destruct (conn (deleteByID id)) as [e|e|n [e|]] eqn:Hc; simpl; try done.
    destruct (n =? 0) eqn:Hn; simpl; [done|]. intros _.
    exists (deleteByID id), n. split_and!; [done|done|by apply Z.eqb_neq].
Qed.

End Commands.

(** * More of package git *)

Section GitMore.
Context `{!git.GoGit} `{!git.GlobPkg}.
Implicit Types e : Env git.Disk.

Lemma emits_forEach_in {X A} P (l : list A) (body : A -> @ST git.Disk X unit) :
  (forall x, x ∈ l -> emits P (body x)) -> emits P (forEach l body).
Proof.
  induction l as [|x l IH]; intros Hb; simpl; [apply emits_ret|].
  intros e. unfold bind.
  destruct (Hb x (list_elem_of_here x l) e) as (l1 & E1 & H1).
  destruct (body x e) as [[y|[]] e']; simpl in *; [by exists l1|].
  destruct (IH (fun y Hy => Hb y (list_elem_of_further y x l Hy)) e') as (l2 & E2 & H2).
  exists (l1 ++ l2). split; [by rewrite E2, E1, app_assoc|by apply Forall_app].
Qed.

Lemma forEach_skips {X A} (l : list A) (body : A -> @ST git.Disk X unit) e :
  (forall x, x ∈ l -> body x = ret tt) -> forEach l body e = (inr tt, e).
Proof.
  induction l as [|x l IH]; intros Hb; simpl; [reflexivity|].
  unfold bind. rewrite (Hb x (list_elem_of_here x l)). unfold ret at 1.
  apply IH. intros y Hy. apply Hb. by apply list_elem_of_further.
Qed.

(** X11: Staged changes are changes: when [HasStagedChanges] reports some,
    [HasChanges] on the same disk does too. *)
Theorem HasStagedChanges_implies_HasChanges (rm : git.RepoManager) (e : Env git.Disk) :
  (git.HasStagedChanges rm e).1 = inr true ->
  (git.HasChanges rm e).1 = inr true.
Proof.
  unfold git.HasStagedChanges, git.HasChanges. rewrite !run_bind.
  unfold wrap at 1 3, read at 1 3.
  destruct (git.repo_Worktree (git.repo rm) (disk e)) as [err|wt]; [done|].
  cbv beta iota. rewrite !run_bind. unfold wrap, read.
  destruct (git.wt_Status wt (disk e)) as [err|st]; [done|]. simpl.
  intros [= Hex]. f_equal. apply existsb_exists in Hex as (fs & Hin & Hfs).
  apply existsb_exists. exists fs. split; [done|]. by rewrite Hfs, orb_true_r.
Qed.

(** X12: [Push] returns no error exactly when the push of go-git returned none
    or the very value [NoErrAlreadyUpToDate]; any other error, also one that
    wraps it, comes back wrapped. When HEAD cannot be read nothing is pushed. *)
Theorem Push_outcome (rm : git.RepoManager) (e : Env git.Disk) :
  match git.repo_Head (git.repo rm) (disk e) with
  | inl err => git.Push rm e = (inl (wrapError "failed to get HEAD: " err), e)
  | inr head =>
      let pushed := git.repo_Push (git.repo rm) [head +:+ ":" +:+ head] (disk e) in
      calls (git.Push rm e).2 = calls e ++ [CallPush [head +:+ ":" +:+ head]]
      /\ disk (git.Push rm e).2 = pushed.2
      /\ ((git.Push rm e).1 = inr tt
          <-> pushed.1 = None \/ pushed.1 = Some NoErrAlreadyUpToDate)
      /\ (forall err, pushed.1 = Some err -> err <> NoErrAlreadyUpToDate ->
          (git.Push rm e).1 = inl (wrapError "failed to push: " err))
  end.
Proof.
  destruct (git.repo_Head (git.repo rm) (disk e)) as [err|head] eqn:Hhead.
  - unfold git.Push. rewrite run_bind. unfold wrap, read. by rewrite Hhead.
  - rewrite (Push_run rm e head Hhead). cbv zeta.
    destruct (git.repo_Push (git.repo rm) [head +:+ ":" +:+ head] (disk e))
      as [[err|] d]; simpl.
    + destruct (isNoErrAlreadyUpToDate err) eqn:Hs; simpl.
      * assert (err = NoErrAlreadyUpToDate) as -> by (by destruct err).
        split; [done|]. split; [done|]. split; [split; [by right|done]|].
        by intros ? [= <-] ?.
      * split; [done|]. split; [done|]. split.
        -- split; [done|]. intros [?|[= ->]]; done.
        -- by intros ? [= <-] _.
    + split; [done|]. split; [done|]. split; [split; [by left|done]|]. done.
Qed.

Lemma Commit_staged_run rm message e wt :
  git.repo_Worktree (git.repo rm) (disk e) = inr wt ->
  (git.HasStagedChanges rm e).1 = inr true ->
  git.Commit rm message e
  = (match (git.wt_Commit wt message
              {| git.Name := "Commitmonk"; git.Email := "commitmonk@automated.tool";
                 git.When := clockE e (nowCallsE e) |} (disk e)).1 with
     | Some err => inl (wrapError "failed to create commit: " err)
     | None => inr tt
     end,
     record [CallCommit message]
       (set_disk (git.wt_Commit wt message
                    {| git.Name := "Commitmonk"; git.Email := "commitmonk@automated.tool";
                       git.When := clockE e (nowCallsE e) |} (disk e)).2
          (time_NowE e).2)).
Proof.
  intros Hwt Hstaged.
  destruct (HasStagedChanges_readonly rm e) as [Hsame _].
  unfold git.Commit. rewrite run_bind. unfold wrap at 1, read at 1. rewrite Hwt.
  cbv beta iota. rewrite run_bind. unfold wrap at 1.
  destruct (git.HasStagedChanges rm e) as [[err|b] e1]. { done. }
  simpl in Hstaged, Hsame. injection Hstaged as ->. subst e1.
  cbv beta iota. rewrite run_bind. change (negb true) with false. cbv iota.
  unfold ret at 1. cbv beta iota. rewrite run_bind. unfold time_NowE at 1.
  cbv beta iota. unfold wrap, change. simpl.
  by destruct (git.wt_Commit _ _ _ _) as [[err|] d].
Qed.

(** X13: [Commit] on an index that holds something stages nothing: the one call
    it puts on record is the commit, made from the disk as it is, and the only
    error it can return is that of the commit itself. *)
Theorem Commit_of_staged_changes (rm : git.RepoManager) (message : string)
    (e : Env git.Disk) (wt : git.WorktreeHandle) :
  git.repo_Worktree (git.repo rm) (disk e) = inr wt ->
  (git.HasStagedChanges rm e).1 = inr true ->
  let committed :=
    git.wt_Commit wt message
      {| git.Name := "Commitmonk"; git.Email := "commitmonk@automated.tool";
         git.When := clockE e (nowCallsE e) |} (disk e) in
  calls (git.Commit rm message e).2 = calls e ++ [CallCommit message]
  /\ disk (git.Commit rm message e).2 = committed.2
  /\ (git.Commit rm message e).1
     = match committed.1 with
       | Some err => inl (wrapError "failed to create commit: " err)
       | None => inr tt
       end.
Proof.
  intros Hwt Hstaged committed. subst committed.
  by rewrite (Commit_staged_run rm message e wt Hwt Hstaged).
Qed.

(** X14: [StageChanges] first stages everything; after that it only takes out
    paths that one of the exclude patterns matches. *)
Theorem StageChanges_unstages_matches_only (rm : git.RepoManager)
    (excludePatterns : string) (e : Env git.Disk) :
  emitted (stagesFor excludePatterns) e (git.StageChanges rm excludePatterns e).2
  /\ (forall wt, git.repo_Worktree (git.repo rm) (disk e) = inr wt ->
        exists l, calls (git.StageChanges rm excludePatterns e).2
                  = calls e ++ CallAddGlob "." :: l).
Proof.
  split.
  - revert e. change (emits (stagesFor excludePatterns) (git.StageChanges rm excludePatterns)).
    unfold git.StageChanges.
    apply emits_bind; [apply emits_wrap, emits_read|intros wt].
    apply emits_bind; [apply emits_wrap, emits_change; reflexivity|intros _].
    destruct (negb _); [|apply emits_ret]. cbv zeta.
    apply emits_forEach_in. intros pattern Hin.
    destruct (String.eqb _ ""); [apply emits_ret|].
    intros e. rewrite run_bind. unfold wrap at 1.
    destruct (git.Compile (gostrings.TrimSpace pattern)) as [err|g] eqn:Hg.
    { exists []. by rewrite app_nil_r. }
    cbv beta iota. revert e.
    change (emits (stagesFor excludePatterns)
              (wrap "failed to get status: " (read (git.wt_Status wt)) ≫=
               (fun status => forEach status.*1 (fun filePath =>
                  if git.Match g filePath
                  then wrap ("failed to unstage file " +:+ filePath +:+ ": ")
                         (change (CallRemoveGlob filePath) (git.wt_RemoveGlob wt filePath))
                  else ret tt)))).
    apply emits_bind; [apply emits_wrap, emits_read|intros status].
    apply emits_forEach. intros filePath.
    destruct (git.Match g filePath) eqn:Hm; [|apply emits_ret].
    apply emits_wrap, emits_change. by exists pattern, g.
  - intros wt Hwt. unfold git.StageChanges. rewrite run_bind.
    unfold wrap at 1, read at 1. rewrite Hwt. cbv beta iota. rewrite run_bind.
    unfold wrap at 1, change at 1.
    destruct (git.wt_AddGlob wt "." (disk e)) as [[err|] d]; cbv beta iota zeta.
    { by exists []. }
    match goal with |- context [(?m ?e1).2] =>
      assert (emits (fun _ => True) m) as Hm
    end.
    { destruct (negb _); [|apply emits_ret]. cbv zeta.
      apply emits_forEach. intros pattern.
      destruct (String.eqb _ ""); [apply emits_ret|].
      apply emits_bind; [apply emits_wrap, emits_pure|intros g].
      apply emits_bind; [apply emits_wrap, emits_read|intros status].
      apply emits_forEach. intros filePath.
      destruct (git.Match g filePath); [|apply emits_ret].
      by apply emits_wrap, emits_change. }
    match goal with |- context [(?m ?e1).2] =>
      destruct (Hm e1) as (l & -> & _)
    end.
    exists l. simpl. by rewrite <- app_assoc.
Qed.

(** X15: Patterns that are all blank once trimmed count as no pattern. *)
Theorem StageChanges_ignores_blank_patterns (rm : git.RepoManager)
    (excludePatterns : string) (e : Env git.Disk) :
  Forall (fun pattern => gostrings.TrimSpace pattern = "")
         (gostrings.Split excludePatterns ","%char) ->
  git.StageChanges rm excludePatterns e = git.StageChanges rm "" e.
Proof.
  intros Hblank. unfold git.StageChanges. rewrite !run_bind.
  destruct (wrap _ _ e) as [[err|wt] e1]; [done|].
  rewrite !run_bind.
  destruct (wrap _ _ e1) as [[err|[]] e2]; [done|].
  destruct (negb (String.eqb excludePatterns "")); [|done]. cbv zeta.
  change (negb (String.eqb "" "")) with false. cbv iota.
  apply forEach_skips. intros pattern Hin.
  rewrite Forall_forall in Hblank. by rewrite (Hblank pattern Hin).
Qed.

Lemma getSystemGitDiff_readonly rm : readonly (git.getSystemGitDiff rm).
Proof.
  unfold git.getSystemGitDiff.
  apply readonly_bind; [apply readonly_wrap, readonly_read|intros _].
  apply readonly_bind; [apply readonly_wrap, readonly_read|intros output].
  destruct (_ =? _)%nat; [|apply readonly_ret].
  apply readonly_bind; [apply readonly_wrap, readonly_read|intros ?].
  apply readonly_ret.
Qed.

Lemma GetDiff_unchanged rm e : (git.GetDiff rm e).2 = e.
Proof.
  destruct (getSystemGitDiff_readonly rm e) as [Hsame _].
  unfold git.GetDiff. destruct (git.getSystemGitDiff rm e) as [[err|d] e1];
    simpl in Hsame; subst e1; [|done].
  rewrite run_bind. unfold wrap at 1, read at 1.
  destruct (git.repo_Worktree _ _) as [err'|wt]; [done|]. cbv beta iota.
  rewrite run_bind. unfold wrap at 1, read at 1.
  by destruct (git.wt_Status _ _) as [err'|st].
Qed.

(** X16: [GetDiff] changes nothing. It returns what the git executable gives, the
    staged diff, or the unstaged one when the staged one is empty; and when
    that fails it still succeeds as long as the status can be read. *)
Theorem GetDiff_sources (rm : git.RepoManager) (e : Env git.Disk) :
  (git.GetDiff rm e).2 = e
  /\ (forall gitPath staged,
        git.exec_LookPath "git" (disk e) = inr gitPath ->
        git.exec_Output (git.path rm) ["git"; "diff"; "--staged"] (disk e) = inr staged ->
        (staged <> "" -> (git.GetDiff rm e).1 = inr staged)
        /\ (staged = "" -> forall unstaged,
            git.exec_Output (git.path rm) ["git"; "diff"] (disk e) = inr unstaged ->
            (git.GetDiff rm e).1 = inr unstaged))
  /\ (forall wt st,
        git.repo_Worktree (git.repo rm) (disk e) = inr wt ->
        git.wt_Status wt (disk e) = inr st ->
        exists text, (git.GetDiff rm e).1 = inr text).
Proof.
  destruct (getSystemGitDiff_readonly rm e) as [Hsame _].
  split_and!.
  - apply GetDiff_unchanged.
  - intros gitPath staged Hlook Hstaged.
    assert (forall out, git.getSystemGitDiff rm e = (inr out, e) ->
                        (git.GetDiff rm e).1 = inr out) as Hget.
    { intros out E. unfold git.GetDiff. by rewrite E. }
    split.
    + intros Hne. apply Hget. unfold git.getSystemGitDiff. rewrite run_bind.
      unfold wrap at 1, read at 1. rewrite Hlook. cbv beta iota. rewrite run_bind.
      unfold wrap at 1, read at 1. rewrite Hstaged. cbv beta iota.
      destruct staged; [done|]. reflexivity.
    + intros -> unstaged Hun. apply Hget. unfold git.getSystemGitDiff. rewrite run_bind.
      unfold wrap at 1, read at 1. rewrite Hlook. cbv beta iota. rewrite run_bind.
      unfold wrap at 1, read at 1. rewrite Hstaged. cbv beta iota. simpl.
      rewrite run_bind. unfold wrap at 1, read at 1. by rewrite Hun.
  - intros wt st Hwt Hst. unfold git.GetDiff.
    destruct (git.getSystemGitDiff rm e) as [[err|d] e1]; simpl in Hsame; subst e1;
      [|by eexists].
    rewrite run_bind. unfold wrap at 1, read at 1. rewrite Hwt. cbv beta iota.
    rewrite run_bind. unfold wrap at 1, read at 1. rewrite Hst. by eexists.
Qed.

End GitMore.

(** * More of the execution pipeline *)

Section PipelineMore.
Context `{!git.GoGit} `{!git.GlobPkg}.
Implicit Types e : Env git.Disk.

Lemma bind_inr_inv {X A B} (m : @ST git.Disk X A) (k : A -> ST X B) e b e' :
  (m ≫= k) e = (inr b, e') ->
  exists a e1, m e = (inr a, e1) /\ k a e1 = (inr b, e').
Proof.
  rewrite run_bind. destruct (m e) as [[x|a] e1]; [done|]. intros E. by exists a, e1.
Qed.

Lemma Commit_emits_own rm message : emits (commitCall message) (git.Commit rm message).
Proof.
  unfold git.Commit.
  apply emits_bind; [apply emits_wrap, emits_read|intros wt].
  apply emits_bind; [apply emits_wrap, HasStagedChanges_emits|intros staged].
  apply emits_bind.
  - destruct (negb staged); [|apply emits_ret].
    apply emits_bind; [apply emits_wrap, emits_change; by left|intros _].
    apply emits_bind; [apply emits_wrap, HasStagedChanges_emits|intros staged'].
    destruct (negb staged'); [apply emits_fail|apply emits_ret].
  - intros _. apply emits_bind; [apply emits_now|intros now].
    apply emits_wrap, emits_change. by right.
Qed.

Lemma Commit_success_records rm message e e' :
  git.Commit rm message e = (inr tt, e') ->
  exists l, calls e' = calls e ++ l /\ CallCommit message ∈ l.
Proof.
  unfold git.Commit. intros E.
  apply bind_inr_inv in E as (wt & e1 & E1 & E).
  apply bind_inr_inv in E as (staged & e2 & E2 & E).
  apply bind_inr_inv in E as ([] & e3 & E3 & E).
  apply bind_inr_inv in E as (now & e4 & E4 & E).
  assert (emitted (fun _ => True) e e4) as (l0 & Hl0 & _).
  { eapply emitted_trans.
    { assert (emits (fun _ => True)
                (wrap "failed to get worktree: " (read (git.repo_Worktree (git.repo rm)))))
        as Hm by apply emits_wrap, emits_read.
      specialize (Hm e). rewrite E1 in Hm. exact Hm. }
    eapply emitted_trans.
    { assert (emits (fun _ => True)
                (wrap "failed to check for staged changes: " (git.HasStagedChanges rm)))
        as Hm by apply emits_wrap, HasStagedChanges_emits.
      specialize (Hm e1). rewrite E2 in Hm. exact Hm. }
    eapply emitted_trans.
    { match type of E3 with ?m e2 = _ => assert (emits (fun _ => True) m) as Hm end.
      { destruct (negb staged); [|apply emits_ret].
        apply emits_bind; [by apply emits_wrap, emits_change|intros _].
        apply emits_bind; [apply emits_wrap, HasStagedChanges_emits|intros staged'].
        destruct (negb staged'); [apply emits_fail|apply emits_ret]. }
      specialize (Hm e2). rewrite E3 in Hm. exact Hm. }
    pose proof (emits_now (fun _ => True) e3) as Hm. rewrite E4 in Hm. exact Hm. }
  unfold wrap, change in E.
  destruct (git.wt_Commit _ _ _ _) as [[err|] d]; [done|].
  injection E as <-. exists (l0 ++ [CallCommit message]). split.
  - simpl. by rewrite Hl0, app_assoc.
  - apply elem_of_app. right. by apply list_elem_of_singleton.
Qed.

Lemma Push_emits_own rm : emits isPush (git.Push rm).
Proof.
  unfold git.Push. apply emits_bind; [apply emits_wrap, emits_read|]. intros head e.
  exists [CallPush [head +:+ ":" +:+ head]].
  split; [|by apply Forall_singleton].
  cbv beta zeta.
  destruct (git.repo_Push (git.repo rm) [head +:+ ":" +:+ head] (disk e)) as [err d].
  destruct err as [err|]; [destruct (negb _)|]; reflexivity.
Qed.

Lemma message_quiet r t diff e :
  disk (executeTask_message r t diff e).2 = disk e
  /\ emitted isHTTP e (executeTask_message r t diff e).2.
Proof.
  destruct (llm.HasCredentials (llmClient r)) eqn:Hc.
  - rewrite (message_with_credentials r t diff e Hc). cbv zeta.
    assert (emitted isHTTP e
              (record (CallHTTP <$> (llm.GenerateCommitMessage (llmClient r) diff
                                       (transport e)).1)
                 (logE (logger.Printf "Generating commit message using LLM for %s"
                          [logger.S_ (Path t)]) e))) as Hsent.
    { eapply emitted_trans; [|by apply emitted_sent].
      apply emitted_logE. exists []. by rewrite app_nil_r. }
    destruct (llm.GenerateCommitMessage _ _ _).2 as [err|m]; [|done].
    destruct (negb _); simpl; (split; [done|]); by do 2 apply emitted_logE.
  - rewrite (message_without_credentials r t diff e Hc).
    destruct (negb _); simpl; (split; [done|]);
      apply emitted_logE; exists []; by rewrite app_nil_r.
Qed.




Lemma prepare_message_no_push r t e :
  emitted noPush e (executeTask_prepare t e).2
  /\ forall rm diff e1, executeTask_prepare t e = (inr (rm, diff), e1) ->
       emitted noPush e (executeTask_message r t diff e1).2.
Proof.
  assert (emitted noPush e (executeTask_prepare t e).2) as Hprep.
  { eapply emitted_weaken; [|apply prepare_emits]. by intros []. }
  split; [done|]. intros rm diff e1 E. rewrite E in Hprep.
  eapply emitted_trans; [exact Hprep|].
  eapply emitted_weaken; [|apply message_quiet]. by intros [].
Qed.

Lemma without_auto_push r t e :
  AutoPush t = false -> emitted noPush e (executeTask r t e).2.
Proof.
  intros Hoff. rewrite executeTask_run.
  destruct (prepare_message_no_push r t e) as [Hprep Hmsg].
  destruct (executeTask_prepare t e) as [[[]|[rm diff]] e1] eqn:E; [done|].
  specialize (Hmsg rm diff e1 eq_refl). simpl.
  destruct (executeTask_message r t diff e1) as [[[]|message] e2]; [done|].
  eapply emitted_trans; [exact Hmsg|].
  assert (emits noPush (executeTask_finish t rm message)) as Hfin; [|apply Hfin].
  unfold executeTask_finish. rewrite Hoff.
  apply emits_bind; [|intros _].
  { apply emits_try. apply (emits_weaken (commitCall message)); [by intros ? [->| ->]|].
    apply Commit_emits_own. }
  apply emits_bind; [apply emits_say|intros _; apply emits_ret].
Qed.

(** X19: With auto-push off, no run ever pushes. *)
Theorem executeTask_without_auto_push_never_pushes (r : TaskRunner) (t : Task)
    (e : Env git.Disk) :
  AutoPush t = false ->
  emitted noPush e (executeTask r t e).2.
Proof. apply without_auto_push. Qed.

(** X20: A push is put on record only in a run with auto-push on, and only after
    the commit of that run is. *)
Theorem executeTask_pushes_only_after_commit (r : TaskRunner) (t : Task)
    (e : Env git.Disk) (l : list Call) (refSpecs : list string) :
  calls (executeTask r t e).2 = calls e ++ l ->
  CallPush refSpecs ∈ l ->
  AutoPush t = true
  /\ exists message before after,
       l = before ++ CallCommit message :: after /\ CallPush refSpecs ∈ after.
Proof.
  intros Hl Hpush.
  assert (emitted noPush e (executeTask r t e).2 -> False) as Hno.
  { intros (l' & Hl' & Hall). rewrite Hl in Hl'. apply app_inv_head in Hl'. subst l'.
    rewrite Forall_forall in Hall. by apply (Hall _ Hpush). }
  split.
  { destruct (AutoPush t) eqn:Hauto; [done|]. exfalso. apply Hno.
    by apply without_auto_push. }
  rewrite executeTask_run in Hl, Hno.
  destruct (prepare_message_no_push r t e) as [Hprep Hmsg].
  destruct (executeTask_prepare t e) as [[[]|[rm diff]] e1] eqn:E; [by destruct Hno|].
  specialize (Hmsg rm diff e1 eq_refl). simpl in Hl, Hno.
  destruct (executeTask_message r t diff e1) as [[[]|message] e2]; [by destruct Hno|].
  unfold executeTask_finish in Hl, Hno.
  rewrite run_bind in Hl, Hno. unfold try at 1 in Hl. unfold try at 1 in Hno.
  pose proof (Commit_emits_own rm message e2) as Hown.
  destruct (git.Commit rm message e2) as [[err|[]] e3] eqn:Hcommit.
  { exfalso. apply Hno. simpl. apply emitted_logE.
    eapply emitted_trans; [exact Hmsg|].
    eapply emitted_weaken; [|exact Hown]. by intros ? [->| ->]. }
  destruct (Commit_success_records rm message e2 e3 Hcommit) as (lc & Hlc & Hin).
  simpl in Hown. destruct Hown as (lc' & Hlc' & Hcc).
  rewrite Hlc in Hlc'. apply app_inv_head in Hlc'. subst lc'.
  simpl in Hmsg. destruct Hmsg as (l0 & Hl0 & Hnp).
  match type of Hl with calls (?m e3).2 = _ =>
    assert (emits (fun _ => True) m) as Hrest
  end.
  { apply emits_bind; [apply emits_say|intros _].
    destruct (AutoPush t); [|apply emits_ret].
    apply emits_bind; [apply emits_say|intros _].
    apply emits_bind; [|intros _; apply emits_say].
    apply emits_try. apply (emits_weaken isPush); [done|]. apply Push_emits_own. }
  destruct (Hrest e3) as (lr & Hlr & _). rewrite Hlr, Hlc, Hl0 in Hl.
  rewrite <- !app_assoc in Hl. apply app_inv_head in Hl. subst l.
  apply list_elem_of_split in Hin as (a & b & ->).
  exists message, (l0 ++ a), (b ++ lr). split; [by rewrite <- !app_assoc|].
  apply elem_of_app in Hpush as [Hp|Hp].
  { rewrite Forall_forall in Hnp. by destruct (Hnp _ Hp). }
  apply elem_of_app in Hp as [Hp|Hp]; [|apply elem_of_app; by right].
  rewrite Forall_forall in Hcc. by destruct (Hcc _ Hp) as [?|?].
Qed.

(** X21: When [Commit] fails the run ends there, with one log line: a line of
    information when the text of the error holds "no staged changes", as the
    error of an index that stayed empty does, and an error line otherwise. *)
Theorem executeTask_commit_failure (r : TaskRunner) (t : Task)
    (e e1 e2 e3 : Env git.Disk) (rm : git.RepoManager) (diff message : string)
    (err : error) :
  executeTask_prepare t e = (inr (rm, diff), e1) ->
  executeTask_message r t diff e1 = (inr message, e2) ->
  git.Commit rm message e2 = (inl err, e3) ->
  executeTask r t e
  = (inl tt,
     logE (if gostrings.Contains (Error err) "no staged changes" then
             logger.Printf "No staged changes to commit in %s" [logger.S_ (Path t)]
           else
             logger.Errorf "Error committing changes in %s: %v"
               [logger.S_ (Path t); logger.V_ err]) e3)
  /\ (err = errorString "no staged changes to commit" ->
      executeTask r t e
      = (inl tt,
         logE (logger.Printf "No staged changes to commit in %s" [logger.S_ (Path t)]) e3)).
Proof.
  intros Hprep Hmsg Hcommit.
  assert (executeTask r t e
          = (inl tt,
             logE (if gostrings.Contains (Error err) "no staged changes" then
                     logger.Printf "No staged changes to commit in %s" [logger.S_ (Path t)]
                   else
                     logger.Errorf "Error committing changes in %s: %v"
                       [logger.S_ (Path t); logger.V_ err]) e3)) as Hrun.
  { rewrite executeTask_run, Hprep. simpl fst. simpl snd. rewrite Hmsg.
    unfold executeTask_finish. rewrite run_bind. unfold try at 1. by rewrite Hcommit. }
  split; [done|]. intros ->. by rewrite Hrun.
Qed.

End PipelineMore.

(** * More of packages llm and db *)

Lemma find_none_intro {A} (f : A -> bool) (l : list A) :
  (forall x, In x l -> f x = false) -> List.find f l = None.
Proof.
  induction l as [|a l IH]; intros Hall; simpl; [done|].
  rewrite (Hall a) by by left. apply IH. intros x Hx. apply Hall. by right.
Qed.

Lemma isPrefix_nil (q : list ascii) : q <> [] -> gostrings.isPrefix q [] = false.
Proof. by destruct q. Qed.

Lemma isPrefix_singleton (c : ascii) (s : list ascii) :
  gostrings.isPrefix [c] s = true <-> head s = Some c.
Proof.
  destruct s as [|b s]; simpl; [done|]. rewrite andb_true_r. split.
  - intros E. apply Ascii.eqb_eq in E. by subst.
  - intros [= ->]. apply Ascii.eqb_refl.
Qed.

(** With fuel enough, what [trimLeftSeqs] leaves begins with none of the
    sequences, and is the rest of its argument after a prefix. *)
Lemma trimLeftSeqs_spec (seqs : list (list ascii)) (fuel : nat) (s : list ascii) :
  Forall (fun q => q <> []) seqs ->
  (List.length s <= fuel)%nat ->
  List.find (fun q => gostrings.isPrefix q (gostrings.trimLeftSeqs seqs fuel s)) seqs = None
  /\ exists k, gostrings.trimLeftSeqs seqs fuel s = skipn k s.
Proof.
  intros Hne. revert s. induction fuel as [|fuel IH]; intros s Hlen.
  - destruct s; [|simpl in Hlen; lia]. simpl. split; [|by exists O].
    apply find_none_intro. intros q Hq. apply isPrefix_nil.
    rewrite Forall_forall in Hne. apply Hne. by apply list_elem_of_In.
  - simpl. destruct (List.find (fun q => gostrings.isPrefix q s) seqs) as [q|] eqn:Hfind.
    + apply find_some in Hfind as [Hq Hpre]. cbv beta in Hpre.
      assert (q <> []) as Hq'.
      { rewrite Forall_forall in Hne. apply Hne. by apply list_elem_of_In. }
      assert (s <> []) as Hs. { intros ->. by rewrite isPrefix_nil in Hpre. }
      destruct (IH (skipn (List.length q) s)) as [Hnone [k Hk]].
      { rewrite length_skipn. destruct q; [done|]. destruct s; [done|]. simpl in *. lia. }
      split; [done|]. exists (k + List.length q)%nat. by rewrite Hk, skipn_skipn.
    + split; [done|]. by exists O.
Qed.

Lemma trimLeft_head (cutset s : list ascii) (q : ascii) :
  q ∈ cutset ->
  head (gostrings.trimLeft (map (fun c => [c]) cutset) s) <> Some q.
Proof.
  intros Hq Hhead. unfold gostrings.trimLeft in Hhead.
  destruct (trimLeftSeqs_spec (map (fun c => [c]) cutset) (List.length s) s) as [Hnone _].
  { apply Forall_forall. intros x Hx. apply list_elem_of_In, in_map_iff in Hx as (c & <- & _).
    done. }
  { done. }
  pose proof (find_none _ _ Hnone [q]) as Hq'. cbv beta in Hq'.
  rewrite (proj2 (isPrefix_singleton q _) Hhead) in Hq'.
  discriminate Hq'. apply in_map_iff. exists q. split; [done|]. by apply list_elem_of_In.
Qed.

Lemma trimRight_singletons (cutset s : list ascii) :
  gostrings.trimRight (map (fun c => [c]) cutset) s
  = List.rev (gostrings.trimLeft (map (fun c => [c]) cutset) (List.rev s)).
Proof.
  unfold gostrings.trimRight. f_equal. f_equal. rewrite map_map. by apply map_ext.
Qed.

Lemma head_rev {A} (l : list A) : head (List.rev l) = last l.
Proof.
  induction l as [|a l IH] using rev_ind; [done|].
  by rewrite rev_app_distr, last_snoc.
Qed.

Lemma trimRight_last (cutset s : list ascii) (q : ascii) :
  q ∈ cutset ->
  last (gostrings.trimRight (map (fun c => [c]) cutset) s) <> Some q.
Proof.
  intros Hq. rewrite trimRight_singletons, <- head_rev, rev_involutive.
  by apply trimLeft_head.
Qed.

Lemma trimRight_prefix (cutset s : list ascii) :
  exists k, gostrings.trimRight (map (fun c => [c]) cutset) s = take k s.
Proof.
  rewrite trimRight_singletons. unfold gostrings.trimLeft.
  destruct (trimLeftSeqs_spec (map (fun c => [c]) cutset) (List.length (List.rev s))
              (List.rev s)) as [_ [k Hk]].
  { apply Forall_forall. intros x Hx. apply list_elem_of_In, in_map_iff in Hx as (c & <- & _).
    done. }
  { done. }
  rewrite Hk, skipn_rev, rev_involutive. by eexists.
Qed.

Lemma Trim_ends (s cutset : string) (q : ascii) :
  q ∈ list_ascii_of_string cutset ->
  head (list_ascii_of_string (gostrings.Trim s cutset)) <> Some q
  /\ last (list_ascii_of_string (gostrings.Trim s cutset)) <> Some q.
Proof.
  intros Hq. unfold gostrings.Trim. cbv zeta.
  rewrite list_ascii_of_string_of_list_ascii. split; [|by apply trimRight_last].
  destruct (trimRight_prefix (list_ascii_of_string cutset)
              (gostrings.trimLeft (map (fun c => [c]) (list_ascii_of_string cutset))
                 (list_ascii_of_string s))) as [k ->].
  intros Hhead. apply (trimLeft_head (list_ascii_of_string cutset) (list_ascii_of_string s) q Hq).
  destruct k; [done|]. by destruct (gostrings.trimLeft _ _).
Qed.

(** X22: a commit message that [GenerateCommitMessage] returns neither begins
    nor ends with a double or a single quote. *)
Theorem GenerateCommitMessage_strips_quotes (c : llm.Client) (diff : string)
    (net : llm.Transport) (message : string) (q : ascii) :
  (llm.GenerateCommitMessage c diff net).2 = inr message ->
  q = "034"%char \/ q = "039"%char ->
  head (list_ascii_of_string message) <> Some q
  /\ last (list_ascii_of_string message) <> Some q.
Proof.
  intros Hrun Hq.
  destruct (llm.GenerateCommitMessage c diff net) as [reqs res] eqn:E.
  simpl in Hrun. subst res.
  apply GenerateCommitMessage_success in E as (_ & req & resp & content & rest & _ & _ & _ & _ & ->).
  apply Trim_ends. unfold llm.quotes. simpl.
  destruct Hq as [-> | ->]; [by left|by right; left].
Qed.

(** X23: [GenerateCommitMessage] sends one request at most, and none without
    an API key; the request goes to the chat endpoint below the base URL,
    with or without a slash at its end, carries the key as a bearer token
    and what [json.Marshal] made of the chat request as its body. *)
Theorem GenerateCommitMessage_requests (c : llm.Client) (diff : string)
    (net : llm.Transport) (req : llm.Request) :
  req ∈ (llm.GenerateCommitMessage c diff net).1 ->
  (llm.GenerateCommitMessage c diff net).1 = [req]
  /\ llm.APIKey c <> ""
  /\ llm.URL req = gostrings.TrimSuffix (llm.BaseURL c) "/" +:+ "/chat/completions"
  /\ llm.Authorization req = "Bearer " +:+ llm.APIKey c
  /\ llm.ContentType req = "application/json"
  /\ exists chatReq,
       llm.json_Marshal net chatReq = inr (llm.Body req)
       /\ llm.chatModel chatReq = llm.Model c
       /\ llm.MaxTokens chatReq = 100
       /\ llm.Content <$> llm.Messages chatReq
          = ["You generate concise git commit messages in conventional format.";
             llm.promptPrefix +:+ diff].
Proof.
  unfold llm.GenerateCommitMessage, llm.HasCredentials.
  destruct (String.eqb (llm.APIKey c) "") eqn:Hkey; simpl negb; cbv iota.
  { by intros ?%elem_of_nil. }
  apply String.eqb_neq in Hkey. cbv zeta.
  match goal with |- context [llm.json_Marshal net ?r] => set (chatReq := r) end.
  destruct (llm.json_Marshal net chatReq) as [err|body] eqn:Hbody.
  { by intros ?%elem_of_nil. }
  destruct (llm.http_NewRequest net _ _) as [err|[]].
  { by intros ?%elem_of_nil. }
  match goal with |- context [llm.client_Do net ?r] => set (sent := r) end.
  assert (forall reqs : list llm.Request, reqs = [sent] -> req ∈ reqs ->
            reqs = [req] /\ llm.APIKey c <> ""
            /\ llm.URL req = gostrings.TrimSuffix (llm.BaseURL c) "/" +:+ "/chat/completions"
            /\ llm.Authorization req = "Bearer " +:+ llm.APIKey c
            /\ llm.ContentType req = "application/json"
            /\ exists chatReq,
                 llm.json_Marshal net chatReq = inr (llm.Body req)
                 /\ llm.chatModel chatReq = llm.Model c
                 /\ llm.MaxTokens chatReq = 100
                 /\ llm.Content <$> llm.Messages chatReq
                    = ["You generate concise git commit messages in conventional format.";
                       llm.promptPrefix +:+ diff]) as Hsent.
  { intros reqs -> ->%list_elem_of_singleton. split_and!; try done. by exists chatReq. }
  destruct (llm.client_Do net sent) as [err|resp]; [by apply Hsent|].
  destruct (negb _).
  - destruct (llm.decodeError resp); by apply Hsent.
  - destruct (llm.decodeChat resp) as [err|[|content rest]]; by apply Hsent.
Qed.

Lemma substring_all (b : string) : String.substring 0 (String.length b) b = b.
Proof. induction b as [|ch b IH]; simpl; [done|]. by rewrite IH. Qed.

Lemma TrimSuffix_append (s suffix : string) :
  gostrings.TrimSuffix (s +:+ suffix) suffix = s.
Proof.
  unfold gostrings.TrimSuffix. cbv zeta.
  rewrite string_length_append.
  replace (String.length s + String.length suffix - String.length suffix)%nat
    with (String.length s) by lia.
  assert (forall a b, String.substring (String.length a) (String.length b) (a +:+ b) = b) as Hsuf.
  { induction a as [|ch a IH]; intros b; simpl; [apply substring_all|apply IH]. }
  assert (forall a b, String.substring 0 (String.length a) (a +:+ b) = a) as Hpre.
  { induction a as [|ch a IH]; intros b; simpl; [by destruct b|]. by rewrite IH. }
  rewrite Hsuf, String.eqb_refl, Hpre.
  by destruct (_ <=? _)%nat eqn:Hle; [|apply Nat.leb_gt in Hle; lia].
Qed.

(** X24: a slash at the end of the base URL makes no difference. *)
Theorem GenerateCommitMessage_trailing_slash (c : llm.Client) (diff : string)
    (net : llm.Transport) :
  gostrings.TrimSuffix (llm.BaseURL c) "/" = llm.BaseURL c ->
  llm.GenerateCommitMessage
    {| llm.BaseURL := llm.BaseURL c +:+ "/"; llm.APIKey := llm.APIKey c;
       llm.Model := llm.Model c |} diff net
  = llm.GenerateCommitMessage c diff net.
Proof.
  intros Hbare. unfold llm.GenerateCommitMessage, llm.HasCredentials.
  cbn [llm.BaseURL llm.APIKey llm.Model].
  by rewrite TrimSuffix_append, Hbare.
Qed.

Lemma scanRows_spec (rows : list (error + Task)) (acc tasks : list Task) :
  db.scanRows rows acc = inr tasks <->
  exists scanned, rows = inr <$> scanned /\ tasks = acc ++ scanned.
Proof.
  revert acc. induction rows as [|[err|task] rows IH]; intros acc; simpl.
  - split.
    + intros [= <-]. exists []. by rewrite app_nil_r.
    + intros ([|??] & Hrows & ->); [by rewrite app_nil_r|done].
  - split; [done|]. by intros ([|??] & Hrows & _).
  - rewrite IH. split.
    + intros (scanned & -> & ->). exists (task :: scanned). by rewrite <- app_assoc.
    + intros ([|t' scanned] & Hrows & ->); [done|]. injection Hrows as <- ->.
      exists scanned. by rewrite <- app_assoc.
Qed.

(** X25: [GetAllTasks] is all or nothing: it returns tasks exactly when the
    query succeeds, every row scans and the iteration ends without an error,
    and then it returns every row, in the order of the rows. *)
Theorem GetAllTasks_all_or_nothing (q : QueryResult) (tasks : list Task) :
  GetAllTasks q = inr tasks <-> q = Rows (inr <$> tasks) None.
Proof.
  split.
  - destruct q as [err|rows rowsErr]; simpl; [done|].
    destruct (db.scanRows rows []) as [err|scanned] eqn:Hscan; [done|].
    destruct rowsErr as [err|]; [done|]. intros [= ->].
    apply scanRows_spec in Hscan as (scanned & -> & ->). done.
  - intros ->. simpl.
    rewrite (proj2 (scanRows_spec (inr <$> tasks) [] tasks)); [done|]. by exists tasks.
Qed.

(** * The further properties on the examples *)

Lemma nonnegative_intervals_empty `{!TimePkg} : nonnegative_intervals ∅.
Proof. intros id s d Hs. by rewrite lookup_empty in Hs. Qed.

Lemma nonnegative_intervals_insert `{!TimePkg} m id s :
  (forall d, ParseDuration (Every (task s)) = inr d -> 0 <= d) ->
  nonnegative_intervals m -> nonnegative_intervals (<[id := s]> m).
Proof.
  intros Hs Hm k s' d. destruct (decide (k = id)) as [->|Hne].
  - rewrite lookup_insert_eq. intros [= <-]. apply Hs.
  - rewrite lookup_insert_ne by done. apply Hm.
Qed.

Lemma exampleStale_keys_agree : keys_agree (tasks exampleStale).
Proof.
  apply keys_agree_insert; [reflexivity|].
  apply keys_agree_insert; [reflexivity|]. apply keys_agree_empty.
Qed.

Lemma exampleStale_nonnegative : nonnegative_intervals (tasks exampleStale).
Proof.
  apply nonnegative_intervals_insert.
  { intros d Hd. vm_compute in Hd. injection Hd as <-. done. }
  apply nonnegative_intervals_insert.
  { intros d Hd. vm_compute in Hd. injection Hd as <-. done. }
  apply nonnegative_intervals_empty.
Qed.

Lemma loadTasks_schedule_follows_registry_witness :
  is_Some (tasks (loadTasks exampleStale
                    (exampleWorld (Rows (inr <$> exampleRecords) None))).1.2 !! 2)
  <-> is_Some (tasks exampleStale !! 2) \/ exists d, ParseDuration "soon" = inr d.
Proof.
  assert (NoDup (ID <$> exampleRecords)) as Hnd.
  { by_computation. }
  assert (exampleTask 2 "soon" ∈ exampleRecords) as Hin.
  { apply elem_of_cons. right. apply elem_of_cons. by left. }
  assert (GetAllTasks (sqlite (exampleWorld (Rows (inr <$> exampleRecords) None)))
          = inr exampleRecords) as Hread by reflexivity.
  destruct (loadTasks_schedule_follows_registry exampleStale
              (exampleWorld (Rows (inr <$> exampleRecords) None)) exampleRecords
              Hread Hnd) as [_ Hiff].
  exact (Hiff (exampleTask 2 "soon") Hin).
Defined.

Lemma tick_survives_read_error_witness :
  tick (exampleRunner ∅) (exampleLateWorld exampleLocked)
  = processTasks (exampleRunner ∅)
      (log (logger.Printf "Error checking for task updates: %v"
              [logger.V_ (wrapError "failed to query tasks: "
                            (errorString "database is locked"))])
         (log (logger.Println "Checking for task updates...")
            (time_Now (exampleLateWorld exampleLocked)).2)).
Proof.
  apply (tick_survives_read_error (exampleRunner ∅) (exampleLateWorld exampleLocked)
           (wrapError "failed to query tasks: " (errorString "database is locked"))).
  - by vm_compute.
  - reflexivity.
Defined.

Lemma schedule_keys_invariant_witness :
  keys_agree
    (tasks (tick exampleStale
              (set_tickerC false (set_tickerC true (exampleWorld exampleRegistry)))).1).
Proof.
  apply (schedule_keys_invariant
           (Selecting, exampleStale, exampleWorld exampleRegistry)
           (Selecting,
            (tick exampleStale
               (set_tickerC false (set_tickerC true (exampleWorld exampleRegistry)))).1,
            (tick exampleStale
               (set_tickerC false (set_tickerC true (exampleWorld exampleRegistry)))).2)).
  - exact exampleStale_keys_agree.
  - eapply rtc_l; [right; apply env_fire|].
    apply rtc_once. left.
    by apply (run_tick exampleStale (set_tickerC true (exampleWorld exampleRegistry))).
Defined.

Lemma processTasks_never_rewinds_witness :
  tasks (processTasks exampleStale (exampleWorld exampleRegistry)).1 !! 1
  = Some (exampleEntry 1 "5m" (1000 + 5 * Minute))
  /\ 77 <= 1000 + 5 * Minute.
Proof.
  split; [by vm_compute|].
  exact (proj2 (processTasks_never_rewinds exampleStale (exampleWorld exampleRegistry) 1
                  (exampleEntry 1 "5m" 77) (exampleEntry 1 "5m" (1000 + 5 * Minute))
                  exampleStale_nonnegative eq_refl ltac:(by vm_compute))).
Defined.

Lemma processTasks_no_double_dispatch_witness :
  goroutines (processTasks (processTasks exampleStale (exampleWorld exampleRegistry)).1
                (exampleWorld exampleRegistry)).2 = []
  /\ tasks (processTasks (processTasks exampleStale (exampleWorld exampleRegistry)).1
              (exampleWorld exampleRegistry)).1
     = tasks (processTasks exampleStale (exampleWorld exampleRegistry)).1.
Proof.
  apply (processTasks_no_double_dispatch exampleStale (exampleWorld exampleRegistry)
           (exampleWorld exampleRegistry) exampleStale_nonnegative).
  by vm_compute.
Defined.

Lemma maskAPIKey_shows_eight_bytes_at_most_witness :
  String.length (cmd.maskAPIKey "sk-1234567890") = 13%nat
  /\ String.get 5 (cmd.maskAPIKey "sk-1234567890") = Some "*"%char
  /\ String.get 1 (cmd.maskAPIKey "sk-1234567890") = Some "k"%char.
Proof.
  assert ("sk-1234567890" <> "") as Hset by done.
  split; [exact (proj1 (maskAPIKey_shows_eight_bytes_at_most "sk-1234567890" 0 Hset))|].
  split.
  - apply (proj2 (maskAPIKey_shows_eight_bytes_at_most "sk-1234567890" 5 Hset)).
    by_computation.
  - apply (proj2 (maskAPIKey_shows_eight_bytes_at_most "sk-1234567890" 1 Hset)).
    by_computation.
Defined.

Lemma AddAction_registers_checked_tasks_witness :
  (cmd.AddAction exampleConn config.DefaultConfig exampleHost exampleAdd).2 = [exampleAdded]
  /\ ((cmd.AddAction exampleConn config.DefaultConfig exampleHost exampleAdd).1.1 = None
      <-> AddTask exampleConn exampleAdded = None).
Proof.
  assert (exampleAdded
            ∈ (cmd.AddAction exampleConn config.DefaultConfig exampleHost exampleAdd).2)
    as Hin.
  { change (exampleAdded ∈ [exampleAdded]). apply list_elem_of_here. }
  destruct (AddAction_registers_checked_tasks exampleConn config.DefaultConfig exampleHost
              exampleAdd exampleAdded Hin) as (Hone & _ & _ & _ & _ & _ & _ & Hok).
  split; [exact Hone|exact Hok].
Defined.

Lemma RemoveAction_succeeds_only_on_a_deleted_row_witness :
  exists st n,
    (cmd.RemoveAction exampleConn exampleHost exampleSscanf ["3"]).2 = [st]
    /\ exampleConn st = Executed n None /\ n <> 0.
Proof.
  exact (RemoveAction_succeeds_only_on_a_deleted_row exampleConn exampleHost exampleSscanf
           ["3"] eq_refl).
Defined.

Lemma HasStagedChanges_implies_HasChanges_witness :
  (@git.HasChanges exampleGit exampleManager (exampleEnv exampleStagedDisk exampleAnswer)).1
  = inr true.
Proof.
  exact (@HasStagedChanges_implies_HasChanges exampleGit exampleManager
           (exampleEnv exampleStagedDisk exampleAnswer) eq_refl).
Defined.

Lemma Commit_of_staged_changes_witness :
  calls (@git.Commit exampleGit exampleManager "checkpoint"
           (exampleEnv exampleStagedDisk exampleAnswer)).2
  = [CallCommit "checkpoint"]
  /\ (@git.Commit exampleGit exampleManager "checkpoint"
        (exampleEnv exampleStagedDisk exampleAnswer)).1 = inr tt.
Proof.
  pose proof (@Commit_of_staged_changes exampleGit exampleManager "checkpoint"
                (exampleEnv exampleStagedDisk exampleAnswer) tt eq_refl eq_refl) as H.
  cbv zeta in H. destruct H as (Hcalls & _ & Hres).
  split; [exact Hcalls|exact Hres].
Defined.

Lemma StageChanges_ignores_blank_patterns_witness :
  @git.StageChanges exampleGit exampleGlob exampleManager " , "
    (exampleEnv exampleSecretDisk exampleAnswer)
  = @git.StageChanges exampleGit exampleGlob exampleManager ""
      (exampleEnv exampleSecretDisk exampleAnswer).
Proof.
  apply (@StageChanges_ignores_blank_patterns exampleGit exampleGlob exampleManager " , "
           (exampleEnv exampleSecretDisk exampleAnswer)).
  by repeat constructor.
Defined.



Lemma executeTask_without_auto_push_never_pushes_witness :
  emitted noPush (exampleEnv exampleStagedDisk exampleAnswer)
    (@executeTask exampleGit exampleGlob exampleKeyed exampleManualTask
       (exampleEnv exampleStagedDisk exampleAnswer)).2.
Proof.
  exact (@executeTask_without_auto_push_never_pushes exampleGit exampleGlob exampleKeyed
           exampleManualTask (exampleEnv exampleStagedDisk exampleAnswer) eq_refl).
Defined.

Lemma executeTask_pushes_only_after_commit_witness :
  AutoPush exampleSecretTask = true
  /\ exists message before after,
       [CallAddGlob "."; CallRemoveGlob "secret.env"; CallAddGlob ".";
        CallCommit "checkpoint"; CallPush ["refs/heads/main:refs/heads/main"]]
       = before ++ CallCommit message :: after
       /\ CallPush ["refs/heads/main:refs/heads/main"] ∈ after.
Proof.
  apply (@executeTask_pushes_only_after_commit exampleGit exampleGlob (exampleRunner ∅)
           exampleSecretTask (exampleEnv exampleSecretDisk exampleAnswer)
           [CallAddGlob "."; CallRemoveGlob "secret.env"; CallAddGlob ".";
            CallCommit "checkpoint"; CallPush ["refs/heads/main:refs/heads/main"]]
           ["refs/heads/main:refs/heads/main"]).
  - by vm_compute.
  - do 4 apply list_elem_of_further. apply list_elem_of_here.
Defined.

Lemma executeTask_commit_failure_witness :
  last (loggedE (@executeTask exampleInertGit exampleGlob (exampleRunner ∅) exampleSecretTask
                   (exampleEnv exampleSecretDisk exampleAnswer)).2)
  = Some (logger.Printf "No staged changes to commit in %s" [logger.S_ "/srv/repo"]).
Proof.
  pose (e1 := (@executeTask_prepare exampleInertGit exampleGlob exampleSecretTask
                 (exampleEnv exampleSecretDisk exampleAnswer)).2).
  pose (e2 := (@executeTask_message exampleInertGit (exampleRunner ∅) exampleSecretTask ""
                 e1).2).
  pose (e3 := (@git.Commit exampleInertGit exampleInertManager "checkpoint" e2).2).
  destruct (@executeTask_commit_failure exampleInertGit exampleGlob (exampleRunner ∅)
              exampleSecretTask (exampleEnv exampleSecretDisk exampleAnswer) e1 e2 e3
              exampleInertManager "" "checkpoint"
              (errorString "no staged changes to commit")
              ltac:(by vm_compute) ltac:(by vm_compute) ltac:(by vm_compute))
    as [_ Hrun].
  rewrite (Hrun eq_refl). apply last_snoc.
Defined.

Lemma GenerateCommitMessage_strips_quotes_witness :
  head (list_ascii_of_string "feat: x") <> Some "039"%char
  /\ last (list_ascii_of_string "feat: x") <> Some "039"%char.
Proof.
  apply (GenerateCommitMessage_strips_quotes (llmClient exampleKeyed) "diff"
           (exampleTransport exampleAnswer) "feat: x" "039"%char).
  - by vm_compute.
  - by right.
Defined.

Lemma GenerateCommitMessage_requests_witness :
  (llm.GenerateCommitMessage (llmClient exampleKeyed) "diff"
     (exampleTransport exampleAnswer)).1 = [exampleRequest].
Proof.
  apply (GenerateCommitMessage_requests (llmClient exampleKeyed) "diff"
           (exampleTransport exampleAnswer) exampleRequest).
  change (exampleRequest ∈ [exampleRequest]). apply list_elem_of_here.
Defined.

Lemma GenerateCommitMessage_trailing_slash_witness :
  llm.GenerateCommitMessage
    {| llm.BaseURL := llm.BaseURL exampleBare +:+ "/"; llm.APIKey := llm.APIKey exampleBare;
       llm.Model := llm.Model exampleBare |} "diff" (exampleTransport exampleAnswer)
  = llm.GenerateCommitMessage exampleBare "diff" (exampleTransport exampleAnswer).
Proof.
  exact (GenerateCommitMessage_trailing_slash exampleBare "diff"
           (exampleTransport exampleAnswer) eq_refl).
Defined.

Lemma checkForChanges_rate_limit_witness :
  checkForChanges
    (loadTasks (exampleRunner ∅) (exampleWorld exampleRegistry)).1.2
    (set_sqlite exampleLocked (loadTasks (exampleRunner ∅) (exampleWorld exampleRegistry)).2)
  = (None,
     (loadTasks (exampleRunner ∅) (exampleWorld exampleRegistry)).1.2,
     (time_Now
        (set_sqlite exampleLocked
           (loadTasks (exampleRunner ∅) (exampleWorld exampleRegistry)).2)).2).
Proof.
  apply (proj1 (checkForChanges_rate_limit (exampleRunner ∅) (exampleWorld exampleRegistry))
           (loadTasks (exampleRunner ∅) (exampleWorld exampleRegistry)).1.2
           (loadTasks (exampleRunner ∅) (exampleWorld exampleRegistry)).2).
  - by vm_compute.
  - by vm_compute.
Defined.

Lemma StageChanges_unstages_matches_only_witness :
  exists l,
    calls (@git.StageChanges exampleGit exampleGlob exampleManager "*.log, secret.env"
             (exampleEnv exampleSecretDisk exampleAnswer)).2
    = [] ++ CallAddGlob "." :: l.
Proof.
  exact (proj2 (@StageChanges_unstages_matches_only exampleGit exampleGlob exampleManager
                  "*.log, secret.env" (exampleEnv exampleSecretDisk exampleAnswer))
           tt eq_refl).
Defined.

Lemma GetDiff_sources_witness :
  exists text,
    (@git.GetDiff exampleGit exampleManager (exampleEnv exampleStagedDisk exampleAnswer)).1
    = inr text.
Proof.
  exact (proj2 (proj2 (@GetDiff_sources exampleGit exampleManager
                         (exampleEnv exampleStagedDisk exampleAnswer)))
           tt (status exampleStagedDisk) eq_refl eq_refl).
Defined.
